(** * FLTiles: the tile-map viewer of [main.cpp]

    A shallow embedding of the view state of [TilemapWindow] and
    [TilemapScrollView] (pan offset, zoom, hovered tile, scrollbars), of the
    per-frame tile culling and level-of-detail stepping in
    [TilemapWindow::draw], of the hover pick in
    [TilemapWindow::updateHoveredTile], of the event handler
    [TilemapWindow::handle] and of [TilemapScrollView::updateScrollbars].

    The program computes on C++ [float] and [int].  A [float] is an IEEE 754
    binary32 number, carried by the standard library's [spec_float]; every
    arithmetic operation returns the exact rational result rounded to the
    nearest binary32 number, ties to even (the default rounding mode, each
    operation rounded on its own).  An [int] is a 32-bit signed integer,
    carried by [Z]; an operation whose C++ behaviour is undefined (a
    float-to-int conversion out of range, a signed overflow, an index outside
    [tileMap]) yields [None]. *)

From Stdlib Require Import ZArith QArith Qround Qabs Qpower Qminmax.
From Stdlib Require Import Lia Lqa Bool List.
From Stdlib Require Import SpecFloat.
Import ListNotations.

(** ** IEEE 754 binary32 *)

Module F32.

Open Scope Q_scope.

Definition float : Type := spec_float.

Definition prec : Z := 24.
Definition emax : Z := 128.

Definition fsign (f : float) : bool :=
  match f with
  | S754_zero s | S754_infinity s | S754_finite s _ _ => s
  | S754_nan => false
  end.

Definition is_finite (f : float) : bool :=
  match f with
  | S754_zero _ | S754_finite _ _ _ => true
  | _ => false
  end.

Definition is_nan (f : float) : bool :=
  match f with
  | S754_nan => true
  | _ => false
  end.

(** The rational value of a finite number (and 0 for the others). *)
Definition F2Q (f : float) : Q :=
  match f with
  | S754_finite s m e => inject_Z (if s then Zneg m else Zpos m) * 2 ^ e
  | _ => 0
  end.

(** The value on the extended line: the infinities sit at [2^128] and
    [-2^128], one unit in the last place beyond the largest finite number. *)
Definition F2X (f : float) : Q :=
  match f with
  | S754_infinity s => if s then - 2 ^ 128 else 2 ^ 128
  | _ => F2Q f
  end.

(** A canonical binary32 number: 24 significant bits, exponent of the last
    bit between -149 and 104, and a full significand above the subnormal
    range. *)
Definition valid (f : float) : bool :=
  match f with
  | S754_finite _ m e =>
      ((-149 <=? e) && (e <=? 104) && (Zpos m <? 2 ^ 24)
       && ((e =? -149) || (2 ^ 23 <=? Zpos m)))%Z
  | _ => true
  end.

(** [ilog2 x] is the integer part of the binary logarithm of [x > 0]. *)
Definition ilog2 (x : Q) : Z :=
  let k := (Z.log2 (Qnum x) - Z.log2 (Zpos (Qden x)))%Z in
  if Qle_bool (2 ^ k) x then k else (k - 1)%Z.

(** Rounding to the nearest integer, ties to even. *)
Definition rne (y : Q) : Z :=
  let f := Qfloor y in
  match Qcompare (y - inject_Z f) (1 # 2) with
  | Lt => f
  | Gt => (f + 1)%Z
  | Eq => if Z.even f then f else (f + 1)%Z
  end.

(** The exponent of the last bit of the binary32 numbers around [x > 0]. *)
Definition qexp (x : Q) : Z := Z.max (ilog2 x - 23) (-149).

(** The number [m * 2^e] of sign [s], for [0 <= m <= 2^24]: zero when [m]
    is, renormalised when [m] has rounded up to [2^24], infinite beyond the
    largest exponent. *)
Definition mk (s : bool) (m e : Z) : float :=
  if (m =? 0)%Z then S754_zero s
  else
    let '(m', e') := if (m =? 2 ^ 24)%Z then (2 ^ 23, e + 1)%Z else (m, e) in
    if (104 <? e')%Z then S754_infinity s else S754_finite s (Z.to_pos m') e'.

Definition round_pos (s : bool) (x : Q) : float :=
  let e := qexp x in mk s (rne (x / 2 ^ e)) e.

(** [round32 s0 x]: the binary32 number nearest to [x]; [s0] is the sign of
    the zero returned when [x] is zero. *)
Definition round32 (s0 : bool) (x : Q) : float :=
  match Qcompare x 0 with
  | Eq => S754_zero s0
  | Gt => round_pos false x
  | Lt => round_pos true (- x)
  end.

(** The same rounding on values: [rnd x] is the value, on the extended
    line, of the binary32 number nearest to [x]. *)
Definition rndp (x : Q) : Q :=
  Qmin (inject_Z (rne (x / 2 ^ qexp x)) * 2 ^ qexp x) (2 ^ 128).

Definition rnd (x : Q) : Q :=
  match Qcompare x 0 with
  | Eq => 0
  | Gt => rndp x
  | Lt => - rndp (- x)
  end.

(** [rndp] before the overflow threshold is applied. *)
Definition rawp (x : Q) : Q := inject_Z (rne (x / 2 ^ qexp x)) * 2 ^ qexp x.

Definition sgn (s : bool) : Q := if s then -1 else 1.

(** The values of the finite binary32 numbers. *)
Definition representable (x : Q) : Prop :=
  exists n e : Z,
    (Z.abs n < 2 ^ 24)%Z /\ (-149 <= e)%Z /\ x == inject_Z n * 2 ^ e /\
    - 2 ^ 128 < x /\ x < 2 ^ 128.

Definition fneg (x : float) : float := SFopp x.

Definition fmul (x y : float) : float :=
  match x, y with
  | S754_nan, _ | _, S754_nan => S754_nan
  | S754_infinity _, S754_zero _ | S754_zero _, S754_infinity _ => S754_nan
  | S754_infinity sx, _ => S754_infinity (xorb sx (fsign y))
  | _, S754_infinity sy => S754_infinity (xorb (fsign x) sy)
  | _, _ => round32 (xorb (fsign x) (fsign y)) (F2Q x * F2Q y)
  end.

Definition fdiv (x y : float) : float :=
  match x, y with
  | S754_nan, _ | _, S754_nan => S754_nan
  | S754_infinity _, S754_infinity _ => S754_nan
  | S754_zero _, S754_zero _ => S754_nan
  | S754_infinity sx, _ => S754_infinity (xorb sx (fsign y))
  | _, S754_infinity sy => S754_zero (xorb (fsign x) sy)
  | _, S754_zero sy => S754_infinity (xorb (fsign x) sy)
  | _, _ => round32 (xorb (fsign x) (fsign y)) (F2Q x / F2Q y)
  end.

Definition fadd (x y : float) : float :=
  match x, y with
  | S754_nan, _ | _, S754_nan => S754_nan
  | S754_infinity sx, S754_infinity sy => if Bool.eqb sx sy then x else S754_nan
  | S754_infinity _, _ => x
  | _, S754_infinity _ => y
  | S754_zero sx, S754_zero sy => S754_zero (sx && sy)
  | _, _ => round32 false (F2Q x + F2Q y)
  end.

Definition fsub (x y : float) : float := fadd x (fneg y).

(** Conversion of an [int] to [float]. *)
Definition of_int (n : Z) : float := round32 false (inject_Z n).

(** [std::floor] and [std::ceil] on [float]: the result is again a [float];
    a zero result keeps the sign of the argument. *)
Definition floorf (x : float) : float :=
  if is_finite x then
    let n := Qfloor (F2Q x) in
    if (n =? 0)%Z then S754_zero (fsign x) else round32 false (inject_Z n)
  else x.

Definition ceilf (x : float) : float :=
  if is_finite x then
    let n := Qceiling (F2Q x) in
    if (n =? 0)%Z then S754_zero (fsign x) else round32 false (inject_Z n)
  else x.

(** Truncation toward zero. *)
Definition Qtrunc (x : Q) : Z :=
  if Qle_bool 0 x then Qfloor x else Qceiling x.

Definition flt (x y : float) : Prop :=
  is_nan x = false /\ is_nan y = false /\ F2X x < F2X y.

Definition fle (x y : float) : Prop :=
  is_nan x = false /\ is_nan y = false /\ F2X x <= F2X y.

(** The operations above against those of the standard library's
    [SpecFloat], on a table of numbers: integers, fractions, the ends of the
    range, zeros, infinities and NaN. *)
Definition samples : list float :=
  [of_int 0; of_int 1; of_int 4; of_int 16; of_int 400; of_int 800; of_int (-8);
   of_int (-56); round32 false (5 # 100); round32 false (9 # 10); round32 false (11 # 10);
   round32 false (1 # 3); round32 true (- (123456789 # 1000));
   S754_finite false 10737418 (-30); S754_finite false 8388608 (-57);
   S754_finite false 8388608 (-53); S754_finite false 16777215 104;
   S754_finite false 1 (-149); S754_finite true 8388609 (-23);
   S754_zero true; S754_infinity false; S754_infinity true; S754_nan].

Definition same_float (x y : float) : bool :=
  match x, y with
  | S754_nan, S754_nan => true
  | S754_zero a, S754_zero b | S754_infinity a, S754_infinity b => Bool.eqb a b
  | S754_finite a m e, S754_finite b m' e' => Bool.eqb a b && Pos.eqb m m' && Z.eqb e e'
  | _, _ => false
  end.

Definition agree (f g : float -> float -> float) : bool :=
  forallb (fun x => forallb (fun y => same_float (f x y) (g x y)) samples) samples.

End F32.

Export F32.

(** ** The C++ [int] and undefined behaviour *)

Definition bind {A B : Type} (m : option A) (f : A -> option B) : option B :=
  match m with
  | Some a => f a
  | None => None
  end.

Notation "x <- m ;; k" := (bind m (fun x => k))
  (at level 61, m at next level, right associativity).

Module Int.

Open Scope Z_scope.

Definition INT_MIN : Z := - 2 ^ 31.
Definition INT_MAX : Z := 2 ^ 31 - 1.

Definition in_range (z : Z) : bool := (INT_MIN <=? z) && (z <=? INT_MAX).

(** The result of an [int] operation whose mathematical value is [z]. *)
Definition checked (z : Z) : option Z := if in_range z then Some z else None.

Definition add (a b : Z) : option Z := checked (a + b).
Definition sub (a b : Z) : option Z := checked (a - b).
Definition mul (a b : Z) : option Z := checked (a * b).
Definition neg (a : Z) : option Z := checked (- a).

(** [(int)x] for a [float] [x]: the value truncated toward zero, undefined
    when that is not an [int] (also for the infinities and NaN). *)
Definition of_float (x : float) : option Z :=
  if is_finite x then checked (Qtrunc (F2Q x)) else None.

End Int.

(** ** The program *)

Module Tilemap.

Open Scope Z_scope.

(** Settings *)
Definition TILE_SIZE : Z := 16.
Definition MAP_WIDTH : Z := 10000.
Definition MAP_HEIGHT : Z := 10000.
Definition TILES_PER_ROW : Z := 8.
Definition MIN_VISIBLE_PIXELS : float := of_int 4.

Definition FL_LEFT_MOUSE : Z := 1.

(** The fields of [TilemapWindow] the view logic reads and writes, with the
    widget size [w()], [h()]. *)
Record TilemapWindow : Type := mkWindow {
  offsetX : float;
  offsetY : float;
  zoom : float;
  parentView : bool;
  lastMouseX : Z;
  lastMouseY : Z;
  dragging : bool;
  hoveredX : Z;
  hoveredY : Z;
  w : Z;
  h : Z
}.

(** An [Fl_Scrollbar], as the four arguments of its last
    [value(pos, size, first, total)]. *)
Record Fl_Scrollbar : Type := mkScrollbar {
  sb_pos : Z;
  sb_size : Z;
  sb_first : Z;
  sb_total : Z
}.

Record TilemapScrollView : Type := mkView {
  canvas : TilemapWindow;
  hscroll : Fl_Scrollbar;
  vscroll : Fl_Scrollbar
}.

Definition set_offset (t : TilemapWindow) (ox oy : float) : TilemapWindow :=
  mkWindow ox oy (zoom t) (parentView t) (lastMouseX t) (lastMouseY t)
    (dragging t) (hoveredX t) (hoveredY t) (w t) (h t).

Definition set_zoom (t : TilemapWindow) (z : float) : TilemapWindow :=
  mkWindow (offsetX t) (offsetY t) z (parentView t) (lastMouseX t)
    (lastMouseY t) (dragging t) (hoveredX t) (hoveredY t) (w t) (h t).

Definition set_lastMouse (t : TilemapWindow) (mx my : Z) : TilemapWindow :=
  mkWindow (offsetX t) (offsetY t) (zoom t) (parentView t) mx my
    (dragging t) (hoveredX t) (hoveredY t) (w t) (h t).

Definition set_dragging (t : TilemapWindow) (d : bool) : TilemapWindow :=
  mkWindow (offsetX t) (offsetY t) (zoom t) (parentView t) (lastMouseX t)
    (lastMouseY t) d (hoveredX t) (hoveredY t) (w t) (h t).

Definition set_hovered (t : TilemapWindow) (hx hy : Z) : TilemapWindow :=
  mkWindow (offsetX t) (offsetY t) (zoom t) (parentView t) (lastMouseX t)
    (lastMouseY t) (dragging t) hx hy (w t) (h t).

Definition set_size (t : TilemapWindow) (W H : Z) : TilemapWindow :=
  mkWindow (offsetX t) (offsetY t) (zoom t) (parentView t) (lastMouseX t)
    (lastMouseY t) (dragging t) (hoveredX t) (hoveredY t) W H.

(** *** [TilemapWindow::draw] *)

(** The visible world bounds. *)
Definition invZoom (t : TilemapWindow) : float := fdiv (of_int 1) (zoom t).
Definition viewLeft (t : TilemapWindow) : float :=
  fmul (fneg (offsetX t)) (invZoom t).
Definition viewTop (t : TilemapWindow) : float :=
  fmul (fneg (offsetY t)) (invZoom t).
Definition viewRight (t : TilemapWindow) : float :=
  fmul (fsub (of_int (w t)) (offsetX t)) (invZoom t).
Definition viewBottom (t : TilemapWindow) : float :=
  fmul (fsub (of_int (h t)) (offsetY t)) (invZoom t).

(** The same bounds in tile space: the quotients by [TILE_SIZE] that [draw]
    rounds with [floor] and [ceil]. *)
Definition tileLeft (t : TilemapWindow) : float :=
  fdiv (viewLeft t) (of_int TILE_SIZE).
Definition tileTop (t : TilemapWindow) : float :=
  fdiv (viewTop t) (of_int TILE_SIZE).
Definition tileRight (t : TilemapWindow) : float :=
  fdiv (viewRight t) (of_int TILE_SIZE).
Definition tileBottom (t : TilemapWindow) : float :=
  fdiv (viewBottom t) (of_int TILE_SIZE).

(** [tileX0], [tileY0], [tileX1], [tileY1], for a map of [mapW] by [mapH]
    tiles. *)
Definition tileRangeOf (mapW mapH : Z) (t : TilemapWindow)
  : option (Z * Z * Z * Z) :=
  fx0 <- Int.of_float (floorf (tileLeft t)) ;;
  fy0 <- Int.of_float (floorf (tileTop t)) ;;
  cx1 <- Int.of_float (ceilf (tileRight t)) ;;
  cy1 <- Int.of_float (ceilf (tileBottom t)) ;;
  Some (Z.max 0 fx0, Z.max 0 fy0, Z.min mapW cx1, Z.min mapH cy1).

Definition tileRange : TilemapWindow -> option (Z * Z * Z * Z) :=
  tileRangeOf MAP_WIDTH MAP_HEIGHT.

Definition pixelsPerTile (z : float) : float := fmul (of_int TILE_SIZE) z.

(** The level-of-detail [step] at zoom [z]. *)
Definition lodStep (z : float) : option Z :=
  c <- Int.of_float (ceilf (fdiv MIN_VISIBLE_PIXELS (pixelsPerTile z))) ;;
  Some (Z.max 1 c).

(** [for (int x = x0; x < x1; x += step) body], threading the accumulated
    output [a]; [fuel] bounds the number of evaluations of the loop test. *)
Fixpoint forLoop {A : Type} (fuel : nat) (x x1 step : Z)
    (body : Z -> A -> option A) (a : A) : option A :=
  match fuel with
  | O => None
  | S fuel' =>
      if x <? x1 then
        a' <- body x a ;;
        x' <- Int.add x step ;;
        forLoop fuel' x' x1 step body a'
      else Some a
  end.

(** Enough fuel for a loop from [x0] to [x1] whose step is positive. *)
Definition loopFuel (x0 x1 : Z) : nat := S (Z.to_nat (x1 - x0)).

(** A call [drawTile(tileIndex, x, y, size)]; the corners [x + size] and
    [y + size] are computed on [int]. *)
Record DrawCall : Type := mkDrawCall {
  dc_tile : Z;
  dc_x : Z;
  dc_y : Z;
  dc_size : Z
}.

Definition drawTile (tileIndex x y size : Z) : option DrawCall :=
  _ <- Int.add x size ;;
  _ <- Int.add y size ;;
  Some (mkDrawCall tileIndex x y size).

(** [tileMap[y][x]], an array of [MAP_HEIGHT] rows of [MAP_WIDTH] tiles. *)
Definition readTile (mapW mapH : Z) (tileMap : Z -> Z -> Z) (y x : Z)
  : option Z :=
  if (0 <=? y) && (y <? mapH) && (0 <=? x) && (x <? mapW)
  then Some (tileMap y x) else None.

(** The body of the inner loop: one tile read and one [drawTile]; the calls
    made so far are kept latest first. *)
Definition drawCell (mapW mapH : Z) (tileMap : Z -> Z -> Z) (step y x : Z)
    (calls : list DrawCall) : option (list DrawCall) :=
  tile <- readTile mapW mapH tileMap y x ;;
  px <- Int.mul x TILE_SIZE ;;
  py <- Int.mul y TILE_SIZE ;;
  size <- Int.mul TILE_SIZE step ;;
  call <- drawTile tile px py size ;;
  Some (call :: calls).

Definition drawRow (mapW mapH : Z) (tileMap : Z -> Z -> Z)
    (tileX0 tileX1 step y : Z) (calls : list DrawCall)
  : option (list DrawCall) :=
  forLoop (loopFuel tileX0 tileX1) tileX0 tileX1 step
    (drawCell mapW mapH tileMap step y) calls.

(** The two nested loops of [draw]: the calls of [drawTile], in order. *)
Definition drawTilesOf (mapW mapH : Z) (tileMap : Z -> Z -> Z)
    (t : TilemapWindow) : option (list DrawCall) :=
  r <- tileRangeOf mapW mapH t ;;
  let '(tileX0, tileY0, tileX1, tileY1) := r in
  step <- lodStep (zoom t) ;;
  calls <- forLoop (loopFuel tileY0 tileY1) tileY0 tileY1 step
             (drawRow mapW mapH tileMap tileX0 tileX1 step) [] ;;
  Some (rev_append calls []).

Definition drawTiles : (Z -> Z -> Z) -> TilemapWindow -> option (list DrawCall) :=
  drawTilesOf MAP_WIDTH MAP_HEIGHT.

(** The outline around the hovered tile: its corner [(tx, ty)], when one is
    drawn. *)
Definition drawHover (t : TilemapWindow) : option (option (Z * Z)) :=
  if (0 <=? hoveredX t) && (0 <=? hoveredY t) then
    tx <- Int.mul (hoveredX t) TILE_SIZE ;;
    ty <- Int.mul (hoveredY t) TILE_SIZE ;;
    _ <- Int.add tx TILE_SIZE ;;
    _ <- Int.add ty TILE_SIZE ;;
    Some (Some (tx, ty))
  else Some None.

(** One frame: the tile quads and the hover outline. *)
Definition draw (tileMap : Z -> Z -> Z) (t : TilemapWindow)
  : option (list DrawCall * option (Z * Z)) :=
  calls <- drawTiles tileMap t ;;
  outline <- drawHover t ;;
  Some (calls, outline).

(** *** [TilemapWindow::updateHoveredTile] *)

(** The world coordinate under a screen coordinate, [(mouse - offset) / zoom]:
    the expression that [updateHoveredTile] and the wheel case of [handle]
    both write out, on each axis. *)
Definition screenToWorld (mouse : Z) (offset z : float) : float :=
  fdiv (fsub (of_int mouse) offset) z.

Definition updateHoveredTile (t : TilemapWindow) (mouseX mouseY : Z)
  : option TilemapWindow :=
  let fx := screenToWorld mouseX (offsetX t) (zoom t) in
  let fy := screenToWorld mouseY (offsetY t) (zoom t) in
  tileX <- Int.of_float (fdiv fx (of_int TILE_SIZE)) ;;
  tileY <- Int.of_float (fdiv fy (of_int TILE_SIZE)) ;;
  if (0 <=? tileX) && (0 <=? tileY) && (tileX <? MAP_WIDTH) && (tileY <? MAP_HEIGHT)
  then Some (set_hovered t tileX tileY)
  else Some (set_hovered t (-1) (-1)).

(** *** [TilemapScrollView::updateScrollbars] *)

Definition updateScrollbars (v : TilemapScrollView) : option TilemapScrollView :=
  m <- Int.mul MAP_WIDTH TILE_SIZE ;;
  contentW <- Int.of_float (fmul (of_int m) (zoom (canvas v))) ;;
  m' <- Int.mul MAP_HEIGHT TILE_SIZE ;;
  contentH <- Int.of_float (fmul (of_int m') (zoom (canvas v))) ;;
  let viewW := w (canvas v) in
  let viewH := h (canvas v) in
  px <- Int.of_float (fneg (offsetX (canvas v))) ;;
  py <- Int.of_float (fneg (offsetY (canvas v))) ;;
  Some (mkView (canvas v)
          (mkScrollbar px viewW 0 (Z.max viewW contentW))
          (mkScrollbar py viewH 0 (Z.max viewH contentH))).

(** *** [TilemapWindow::handle] *)

(** The events [handle] switches on, with the values of [Fl::event_button],
    [Fl::event_x], [Fl::event_y] and [Fl::event_dy] it reads. *)
Inductive Event : Type :=
| FL_PUSH (button x y : Z)
| FL_DRAG (x y : Z)
| FL_RELEASE
| FL_MOUSEWHEEL (x y dy : Z)
| FL_MOVE (x y : Z)
| FL_OTHER.

Definition with_canvas (v : TilemapScrollView) (t : TilemapWindow)
  : TilemapScrollView :=
  mkView t (hscroll v) (vscroll v).

(** [if (parentView) parentView->updateScrollbars();] *)
Definition notifyParent (v : TilemapScrollView) : option TilemapScrollView :=
  if parentView (canvas v) then updateScrollbars v else Some v.

(** The offset that keeps [world] under the screen coordinate [mouse] at
    zoom [z]: [mouse - world * zoom]. *)
Definition anchored (mouse : Z) (world z : float) : float :=
  fsub (of_int mouse) (fmul world z).

Definition zoomFactor (dy : Z) : float :=
  if 0 <? dy then round32 false (9 # 10) else round32 false (11 # 10).

Definition handle (v : TilemapScrollView) (event : Event)
  : option TilemapScrollView :=
  let t := canvas v in
  match event with
  | FL_PUSH button x y =>
      if button =? FL_LEFT_MOUSE
      then Some (with_canvas v (set_lastMouse (set_dragging t true) x y))
      else Some v
  | FL_DRAG x y =>
      if dragging t then
        dx <- Int.sub x (lastMouseX t) ;;
        dy <- Int.sub y (lastMouseY t) ;;
        let t1 := set_offset t (fadd (offsetX t) (of_int dx))
                               (fadd (offsetY t) (of_int dy)) in
        notifyParent (with_canvas v (set_lastMouse t1 x y))
      else Some v
  | FL_RELEASE => Some (with_canvas v (set_dragging t false))
  | FL_MOUSEWHEEL mx my dy =>
      let worldX := screenToWorld mx (offsetX t) (zoom t) in
      let worldY := screenToWorld my (offsetY t) (zoom t) in
      let zoom' := fmul (zoom t) (zoomFactor dy) in
      let t1 := set_zoom t zoom' in
      let t2 := set_offset t1 (anchored mx worldX zoom') (anchored my worldY zoom') in
      notifyParent (with_canvas v t2)
  | FL_MOVE x y =>
      t' <- updateHoveredTile t x y ;;
      Some (with_canvas v t')
  | FL_OTHER => Some v
  end.

(** *** [TilemapScrollView]: scrollbar callbacks, resize, construction *)

(** What reaches the view: an event of the canvas, the user moving a
    scrollbar to [pos] (the widget takes the position, then runs its
    callback), or a resize. *)
Inductive Input : Type :=
| CanvasEvent (e : Event)
| HScroll (pos : Z)
| VScroll (pos : Z)
| Resize (X Y W H : Z).

Definition hscrollCallback (v : TilemapScrollView) : option TilemapScrollView :=
  n <- Int.neg (sb_pos (hscroll v)) ;;
  Some (with_canvas v (set_offset (canvas v) (of_int n) (offsetY (canvas v)))).

Definition vscrollCallback (v : TilemapScrollView) : option TilemapScrollView :=
  n <- Int.neg (sb_pos (vscroll v)) ;;
  Some (with_canvas v (set_offset (canvas v) (offsetX (canvas v)) (of_int n))).

Definition set_pos (s : Fl_Scrollbar) (pos : Z) : Fl_Scrollbar :=
  mkScrollbar pos (sb_size s) (sb_first s) (sb_total s).

Definition resize (v : TilemapScrollView) (X Y W H : Z) : option TilemapScrollView :=
  cw <- Int.sub W 16 ;;
  ch <- Int.sub H 16 ;;
  updateScrollbars (with_canvas v (set_size (canvas v) cw ch)).

Definition step (v : TilemapScrollView) (i : Input) : option TilemapScrollView :=
  match i with
  | CanvasEvent e => handle v e
  | HScroll pos =>
      if Int.in_range pos
      then hscrollCallback (mkView (canvas v) (set_pos (hscroll v) pos) (vscroll v))
      else None
  | VScroll pos =>
      if Int.in_range pos
      then vscrollCallback (mkView (canvas v) (hscroll v) (set_pos (vscroll v) pos))
      else None
  | Resize X Y W H => resize v X Y W H
  end.

Fixpoint run (v : TilemapScrollView) (inputs : list Input)
  : option TilemapScrollView :=
  match inputs with
  | [] => Some v
  | i :: rest => v' <- step v i ;; run v' rest
  end.

(** The window built by [TilemapWindow(x, y, w, h)], before its parent is
    set. *)
Definition newWindow (W H : Z) : TilemapWindow :=
  mkWindow (of_int 0) (of_int 0) (of_int 1) false 0 0 false (-1) (-1) W H.

(** [TilemapScrollView(X, Y, W, H)]: the canvas leaves 16 pixels to each
    scrollbar, gets its parent and the scrollbars are computed once. *)
Definition newView (W H : Z) : option TilemapScrollView :=
  cw <- Int.sub W 16 ;;
  ch <- Int.sub H 16 ;;
  let t := newWindow cw ch in
  let t' := mkWindow (offsetX t) (offsetY t) (zoom t) true (lastMouseX t)
              (lastMouseY t) (dragging t) (hoveredX t) (hoveredY t) (w t) (h t) in
  updateScrollbars (mkView t' (mkScrollbar 0 0 0 0) (mkScrollbar 0 0 0 0)).

(** *** [TilemapWindow::TilemapWindow]: the cells of the tile map *)

(** The tile index stored in a cell, [rand() % (TILES_PER_ROW *
    TILES_PER_ROW)], for the value [r] that [rand()] returned; [%] is the
    remainder of the truncating division. *)
Definition tileOfRand (r : Z) : option Z :=
  n <- Int.mul TILES_PER_ROW TILES_PER_ROW ;;
  if n =? 0 then None else Some (Z.rem r n).

(** *** [TilemapWindow::drawTile]: the texture coordinates *)

(** [u], [v], [du] and [dv], for a tileset of [tilesetWidth] by
    [tilesetHeight] pixels. *)
Record TexCoords : Type := mkTexCoords {
  tex_u : float;
  tex_v : float;
  tex_du : float;
  tex_dv : float
}.

Definition texCoords (tilesetWidth tilesetHeight tileIndex : Z) : TexCoords :=
  mkTexCoords
    (fdiv (fmul (of_int (Z.rem tileIndex TILES_PER_ROW)) (of_int TILE_SIZE))
          (of_int tilesetWidth))
    (fdiv (fmul (of_int (Z.quot tileIndex TILES_PER_ROW)) (of_int TILE_SIZE))
          (of_int tilesetHeight))
    (fdiv (of_int TILE_SIZE) (of_int tilesetWidth))
    (fdiv (of_int TILE_SIZE) (of_int tilesetHeight)).

(** The far corner of the textured quad, [(u + du, v + dv)]. *)
Definition texRight (c : TexCoords) : float := fadd (tex_u c) (tex_du c).
Definition texBottom (c : TexCoords) : float := fadd (tex_v c) (tex_dv c).

End Tilemap.

Export Tilemap.

(** ** Vocabulary of the properties *)

Module Props.

Open Scope Z_scope.

(** The floats of a window are binary32 numbers. *)
Definition valid_window (t : TilemapWindow) : Prop :=
  valid (offsetX t) = true /\ valid (offsetY t) = true /\ valid (zoom t) = true.

(** The number of times the body of [for (x = x0; x < x1; x += step)]
    runs. *)
Definition iterations (x0 x1 step : Z) : Z :=
  Z.max 0 ((x1 - x0 + step - 1) / step).

(** *** The tile range *)

Definition in_map (x y : Z) : Prop := 0 <= x < MAP_WIDTH /\ 0 <= y < MAP_HEIGHT.

(** Tile [(i, j)] overlaps the viewport, in tile space: the square
    [[i, i+1] x [j, j+1]] and the rectangle between the four bounds that
    [draw] rounds share more than an edge. *)
Definition overlaps (t : TilemapWindow) (i j : Z) : Prop :=
  (F2Q (tileLeft t) < inject_Z (i + 1))%Q /\ (inject_Z i < F2Q (tileRight t))%Q /\
  (F2Q (tileTop t) < inject_Z (j + 1))%Q /\ (inject_Z j < F2Q (tileBottom t))%Q.

(** The range [r] stays inside the map and holds every tile of the map that
    overlaps the viewport. *)
Definition culler_ok (t : TilemapWindow) (r : Z * Z * Z * Z) : Prop :=
  let '(x0, y0, x1, y1) := r in
  (forall x y, x0 <= x < x1 -> y0 <= y < y1 -> in_map x y) /\
  (forall i j, in_map i j -> overlaps t i j -> x0 <= i < x1 /\ y0 <= j < y1).

(** The world coordinate that lies under screen pixel [s] of the viewport,
    in exact arithmetic: [draw] puts the world point [x] at the screen
    position [offset + zoom * x] ([glTranslatef] by the offset, then
    [glScalef] by the zoom). *)
Definition worldOf (s : Z) (o z : float) : Q := ((inject_Z s - F2Q o) / F2Q z)%Q.

(** The world-space quad of tile [(i, j)], the square of side [TILE_SIZE]
    at [(TILE_SIZE * i, TILE_SIZE * j)], reaches into the viewport, the
    screen rectangle [[0, w] x [0, h]], by more than [k * (i + 1)] world
    pixels across and [k * (j + 1)] down. *)
Definition intersects_by (k : Q) (t : TilemapWindow) (i j : Z) : Prop :=
  (worldOf 0 (offsetX t) (zoom t) + k * inject_Z (i + 1) < inject_Z (TILE_SIZE * (i + 1)))%Q /\
  (inject_Z (TILE_SIZE * i) + k * inject_Z (i + 1) < worldOf (w t) (offsetX t) (zoom t))%Q /\
  (worldOf 0 (offsetY t) (zoom t) + k * inject_Z (j + 1) < inject_Z (TILE_SIZE * (j + 1)))%Q /\
  (inject_Z (TILE_SIZE * j) + k * inject_Z (j + 1) < worldOf (h t) (offsetY t) (zoom t))%Q.

(** The quad and the viewport share more than an edge. *)
Definition intersects : TilemapWindow -> Z -> Z -> Prop := intersects_by 0.

(** The part of a world pixel, per tile index, that the roundings of the
    tile range can lose: [2^-17]. *)
Definition slack : Q := 1 # 131072.

(** A window whose pan, zoom and size are far from the limits of [float]
    and [int]: offsets up to [2^20] pixels, zoom at least [1/64], sides up
    to [2^15] pixels. *)
Definition moderate (t : TilemapWindow) : Prop :=
  is_finite (offsetX t) = true /\ is_finite (offsetY t) = true /\
  is_finite (zoom t) = true /\
  (- 2 ^ 20 <= F2Q (offsetX t) <= 2 ^ 20)%Q /\
  (- 2 ^ 20 <= F2Q (offsetY t) <= 2 ^ 20)%Q /\
  (2 ^ (-6) <= F2Q (zoom t))%Q /\
  0 <= w t <= 2 ^ 15 /\ 0 <= h t <= 2 ^ 15.

(** *** Runs of the program of [main]: an 800 x 600 view *)

Definition start : option TilemapScrollView := newView 800 600.

Definition wheelDown : Input := CanvasEvent (FL_MOUSEWHEEL 0 0 1).
Definition wheelUp : Input := CanvasEvent (FL_MOUSEWHEEL 0 0 (-1)).

(** 170 wheel steps out, at the origin. *)
Definition farOut : option TilemapScrollView :=
  v0 <- start ;; run v0 (repeat wheelDown 170).

(** One wheel step in, then the horizontal scrollbar at 88. *)
Definition nearMiss : option TilemapScrollView :=
  v0 <- start ;; run v0 [wheelUp; HScroll 88].

(** 99 wheel steps in, then the horizontal scrollbar at 1656682940, of the
    2004456064 of its range. *)
Definition deepZoom : option TilemapScrollView :=
  v0 <- start ;; run v0 (repeat wheelUp 99 ++ [HScroll 1656682940]).

(** A view of 16777233 x 600 pixels, dragged 16777200 pixels to the right. *)
Definition wideView : option TilemapScrollView :=
  v0 <- newView 16777233 600 ;;
  run v0 [CanvasEvent (FL_PUSH FL_LEFT_MOUSE 0 0); CanvasEvent (FL_DRAG 16777200 0)].

(** 843 wheel steps out. *)
Definition zoomedOut : option TilemapScrollView :=
  v0 <- start ;; run v0 (repeat wheelDown 843).

(** 100 wheel steps in. *)
Definition zoomedIn : option TilemapScrollView :=
  v0 <- start ;; run v0 (repeat wheelUp 100).


(** A drag of 8 pixels to the right, then the pointer at (0, 5). *)
Definition pannedRight : option TilemapScrollView :=
  v0 <- start ;;
  run v0 [CanvasEvent (FL_PUSH FL_LEFT_MOUSE 100 100); CanvasEvent (FL_DRAG 108 100);
          CanvasEvent FL_RELEASE; CanvasEvent (FL_MOVE 0 5)].

(** Two wheel steps in at pixel (400, 300). *)
Definition zoomedTwice : option TilemapScrollView :=
  v0 <- start ;;
  run v0 [CanvasEvent (FL_MOUSEWHEEL 400 300 (-1)); CanvasEvent (FL_MOUSEWHEEL 400 300 (-1))].



(** Offset (0, 0), zoom 1, 800 x 600 pixels. *)
Definition scenarioA : TilemapWindow := newWindow 800 600.

(** *** The level-of-detail step *)

(** The step as the specification writes it, in exact arithmetic:
    [max(1, ceil(MIN_VISIBLE_PIXELS / (TILE_SIZE * zoom)))]. *)
Definition lodStepSpec (zoom : Q) : Z :=
  Z.max 1 (Qceiling (F2Q MIN_VISIBLE_PIXELS / (inject_Z TILE_SIZE * zoom))%Q).

Definition zoom005 : float := round32 false (5 # 100).

(** A zoom near 0.01 at which the rounded quotient and the exact one fall on
    the two sides of an integer. *)
Definition zoomRounded : float := S754_finite false 10737418 (-30).

(** A zoom below [2^-33] and one above. *)
Definition zoomTiny : float := S754_finite false 8388608 (-57).
Definition zoomSmall : float := S754_finite false 8388608 (-53).

(** Offset (0, 0), zoom 0.05, 160 x 120 pixels: 200 x 150 tiles in view. *)
Definition coarseWindow : TilemapWindow :=
  mkWindow (of_int 0) (of_int 0) zoom005 true 0 0 false (-1) (-1) 160 120.

(** *** The cells of one frame *)

(** A bound on the cells [draw] visits, from the size of the viewport alone:
    on each axis one cell for every [MIN_VISIBLE_PIXELS = 4] pixels of the
    side and a constant [K] for the ends of the range and the roundings. *)
Definition cellBoundWith (K W H : Z) : Z := (W / 4 + K) * (H / 4 + K).

(** Tile bounds near [2^31] are rounded to multiples of 128, and five
    roundings separate the two ends of the range: [K = 1000] covers them
    and the sides up to [INT_MAX]. *)
Definition cellBound : Z -> Z -> Z := cellBoundWith 1000.

(** On a window far from the limits the roundings stay below one tile. *)
Definition cellBoundModerate : Z -> Z -> Z := cellBoundWith 6.

(** 224 wheel steps out, then a drag that takes the corner of the map to
    the last pixel of the canvas. *)
Definition draggedOut : option TilemapScrollView :=
  v0 <- start ;;
  run v0 (repeat wheelDown 224 ++
          [CanvasEvent (FL_PUSH FL_LEFT_MOUSE 0 0); CanvasEvent (FL_DRAG 783 583);
           CanvasEvent FL_RELEASE]).

(** *** The zoom factor *)

Definition zoom_ok (t : TilemapWindow) : Prop :=
  valid (zoom t) = true /\ flt (of_int 0) (zoom t).

(** A transform that can be inverted in [float]: the zoom is positive and
    finite and so is [1 / zoom]. *)
Definition nondegenerate (t : TilemapWindow) : Prop :=
  flt (of_int 0) (zoom t) /\ is_finite (zoom t) = true /\
  is_finite (invZoom t) = true.

(** *** The hover state *)

(** The hover state is "none" or a tile of the map. *)
Definition hover_ok (t : TilemapWindow) : Prop :=
  (hoveredX t = -1 /\ hoveredY t = -1) \/
  (0 <= hoveredX t < MAP_WIDTH /\ 0 <= hoveredY t < MAP_HEIGHT).

(** *** Scrollbars *)

(** [MAP_WIDTH * TILE_SIZE * zoom], as a [float]. *)
Definition contentExtent (tiles : Z) (t : TilemapWindow) : float :=
  fmul (of_int (tiles * TILE_SIZE)) (zoom t).

(** The scrollbars hold what [updateScrollbars] computes from the canvas:
    position [(int)-offset], page size the side of the canvas, range from 0
    to the larger of that side and [(int)] of the content extent. *)
Definition synced (v : TilemapScrollView) : Prop :=
  let t := canvas v in
  hscroll v = mkScrollbar (Qtrunc (F2Q (fneg (offsetX t)))) (w t) 0
                (Z.max (w t) (Qtrunc (F2Q (contentExtent MAP_WIDTH t)))) /\
  vscroll v = mkScrollbar (Qtrunc (F2Q (fneg (offsetY t)))) (h t) 0
                (Z.max (h t) (Qtrunc (F2Q (contentExtent MAP_HEIGHT t)))).



(** *** The anchor of a zoom *)

(** The largest finite [float], and the state of a window at that zoom. *)
Definition maxFloat : float := S754_finite false 16777215 104.

(** The four roundings of a zoom about a screen point move the world
    coordinate under it by at most this much: [2^-22] of the world
    coordinates of the point and of the screen origin, and the underflow of
    the four operations. *)
Definition anchorTolerance (world offset' zoom' : Q) : Q :=
  ((4 * 2 ^ (-24) * (Qabs world * zoom' + Qabs offset') + 8 * 2 ^ (-150)) / zoom'
   + 2 ^ (-150))%Q.

(** *** The calls of one frame *)

(** The values of [x] in [for (x = x0; x < x1; x += step)]. *)
Definition strideList (x0 x1 step : Z) : list Z :=
  map (fun k => x0 + Z.of_nat k * step) (seq 0 (Z.to_nat (iterations x0 x1 step))).

(** The call that the body of the inner loop makes at cell [(x, y)]. *)
Definition cellCall (tileMap : Z -> Z -> Z) (step y x : Z) : DrawCall :=
  mkDrawCall (tileMap y x) (x * TILE_SIZE) (y * TILE_SIZE) (TILE_SIZE * step).

(** The quad of a call covers tile [(i, j)]. *)
Definition covers (c : DrawCall) (i j : Z) : Prop :=
  dc_x c <= i * TILE_SIZE /\ (i + 1) * TILE_SIZE <= dc_x c + dc_size c /\
  dc_y c <= j * TILE_SIZE /\ (j + 1) * TILE_SIZE <= dc_y c + dc_size c.

(** *** The scrollbars and the canvas *)

(** Page size, minimum and range of the two scrollbars are those of the
    canvas. *)
Definition geometry_ok (v : TilemapScrollView) : Prop :=
  let t := canvas v in
  sb_size (hscroll v) = w t /\ sb_first (hscroll v) = 0 /\
  sb_total (hscroll v) = Z.max (w t) (Qtrunc (F2Q (contentExtent MAP_WIDTH t))) /\
  sb_size (vscroll v) = h t /\ sb_first (vscroll v) = 0 /\
  sb_total (vscroll v) = Z.max (h t) (Qtrunc (F2Q (contentExtent MAP_HEIGHT t))).

(** *** Drags *)

(** A left push at [p], then drags through the points [pts]. *)
Definition dragPath (p : Z * Z) (pts : list (Z * Z)) : list Input :=
  CanvasEvent (FL_PUSH FL_LEFT_MOUSE (fst p) (snd p))
  :: map (fun q => CanvasEvent (FL_DRAG (fst q) (snd q))) pts.

(** An offset that is a whole number of pixels, [n]. *)
Definition whole (o : float) (n : Z) : Prop :=
  is_finite o = true /\ (F2Q o == inject_Z n)%Q.

(** The state of a drag: the button is down, the offset is a whole number
    of pixels and trails the pointer by [(bx, by')], and the content extents
    at the current zoom fit an [int]. *)
Definition dragging_by (bx by' : Z) (v : TilemapScrollView) : Prop :=
  let t := canvas v in
  dragging t = true /\
  whole (offsetX t) (bx + lastMouseX t) /\ whole (offsetY t) (by' + lastMouseY t) /\
  Z.abs (lastMouseX t) <= 2 ^ 22 /\ Z.abs (lastMouseY t) <= 2 ^ 22 /\
  exists cw ch, Int.of_float (contentExtent MAP_WIDTH t) = Some cw /\
                Int.of_float (contentExtent MAP_HEIGHT t) = Some ch.

(** The inputs that neither press the left button nor zoom, scroll or
    resize. *)
Definition idle (i : Input) : Prop :=
  match i with
  | CanvasEvent (FL_PUSH b _ _) => b <> FL_LEFT_MOUSE
  | CanvasEvent (FL_DRAG _ _) | CanvasEvent FL_RELEASE
  | CanvasEvent (FL_MOVE _ _) | CanvasEvent FL_OTHER => True
  | _ => False
  end.

(** *** Rounding *)

(** The unit roundoff of binary32 and half its smallest positive number. *)
Definition u32 : Q := 2 ^ (-24).
Definition eta32 : Q := 2 ^ (-150).

(** [x] is [y] up to one rounding: a relative error of [u32] and an
    absolute one of [e]. *)
Definition near (e x y : Q) : Prop := (Qabs (x - y) <= u32 * Qabs y + e)%Q.

End Props.

Export Props.

(** * Properties of the binary32 model *)

Module F32Facts.

Open Scope Q_scope.

(** ** Powers of two and the binary logarithm *)

Lemma pow2_pos (k : Z) : 0 < 2 ^ k.
Proof. apply Qpower_0_lt. reflexivity. Qed.

Lemma pow2_add (a b : Z) : 2 ^ (a + b) == 2 ^ a * 2 ^ b.
Proof. apply Qpower_plus. discriminate. Qed.

Lemma pow2_sub (a b : Z) : 2 ^ (a - b) == 2 ^ a / 2 ^ b.
Proof. apply Qpower_minus. discriminate. Qed.

Lemma pow2_le (a b : Z) : (a <= b)%Z -> 2 ^ a <= 2 ^ b.
Proof. intros H. apply Qpower_le_compat_l; [exact H | discriminate]. Qed.

Lemma pow2_lt (a b : Z) : (a < b)%Z -> 2 ^ a < 2 ^ b.
Proof. intros H. apply Qpower_lt_compat_l; [exact H | reflexivity]. Qed.

Lemma pow2_Z (n : Z) : (0 <= n)%Z -> inject_Z (2 ^ n) == 2 ^ n.
Proof. intros H. rewrite Zpower_Qpower by exact H. reflexivity. Qed.

Lemma pow2_succ (a : Z) : 2 ^ (a + 1) == 2 * 2 ^ a.
Proof. rewrite pow2_add. change (2 ^ 1) with 2. ring. Qed.

Lemma Q_num_den (x : Q) : x * inject_Z (Zpos (Qden x)) == inject_Z (Qnum x).
Proof.
  destruct x as [n d]. unfold Qeq, inject_Z. simpl. lia.
Qed.

Lemma inject_Z_log2 (n : Z) :
  (0 < n)%Z -> 2 ^ Z.log2 n <= inject_Z n /\ inject_Z n < 2 ^ (Z.log2 n + 1).
Proof.
  intros H. destruct (Z.log2_spec n H) as [H1 H2].
  pose proof (Z.log2_nonneg n) as H0.
  split.
  - rewrite <- pow2_Z by exact H0. rewrite <- Zle_Qle. exact H1.
  - rewrite <- pow2_Z by lia. rewrite <- Zlt_Qlt. replace (Z.log2 n + 1)%Z with (Z.succ (Z.log2 n)) by lia. exact H2.
Qed.

Lemma ilog2_spec (x : Q) :
  0 < x -> 2 ^ ilog2 x <= x /\ x < 2 ^ (ilog2 x + 1).
Proof.
  intros Hx.
  assert (Hn : (0 < Qnum x)%Z).
  { destruct x as [n d]. unfold Qlt in Hx. simpl in *. lia. }
  pose proof (Q_num_den x) as E.
  destruct (inject_Z_log2 _ Hn) as [N1 N2].
  destruct (inject_Z_log2 (Zpos (Qden x)) eq_refl) as [D1 D2].
  set (a := Z.log2 (Qnum x)) in *. set (b := Z.log2 (Zpos (Qden x))) in *.
  set (N := inject_Z (Qnum x)) in *. set (D := inject_Z (Zpos (Qden x))) in *.
  unfold ilog2. fold a b. clearbody N D a b.
  pose proof (pow2_pos a) as Pa. pose proof (pow2_pos b) as Pb.
  pose proof (pow2_pos (a - b)) as Pk.
  pose proof (pow2_succ a) as Sa. pose proof (pow2_succ b) as Sb.
  assert (Eab : 2 ^ (a - b) * 2 ^ b == 2 ^ a).
  { rewrite <- pow2_add. replace (a - b + b)%Z with a by lia. reflexivity. }
  destruct (Qle_bool (2 ^ (a - b)) x) eqn:T.
  - apply Qle_bool_iff in T. split; [exact T|].
    pose proof (pow2_succ (a - b)) as Sk.
    rewrite Sk.
    assert (M : x * D < 2 * 2 ^ (a - b) * D).
    { assert (2 ^ (a - b) * 2 ^ b <= 2 ^ (a - b) * D).
      { apply Qmult_le_l; lra. }
      lra. }
    apply Qmult_lt_r in M; [exact M | lra].
  - assert (T' : x < 2 ^ (a - b)).
    { apply Qnot_le_lt. intros C. apply Qle_bool_iff in C. congruence. }
    replace (a - b - 1 + 1)%Z with (a - b)%Z by lia. split; [|exact T'].
    assert (Sk : 2 ^ (a - b) == 2 * 2 ^ (a - b - 1)).
    { rewrite <- pow2_succ. replace (a - b - 1 + 1)%Z with (a - b)%Z by lia. reflexivity. }
    pose proof (pow2_pos (a - b - 1)) as Pk1.
    assert (E1 : 2 ^ (a - b - 1) * 2 ^ (b + 1) == 2 ^ a).
    { rewrite <- pow2_add. replace (a - b - 1 + (b + 1))%Z with a by lia. reflexivity. }
    assert (M : 2 ^ (a - b - 1) * D <= x * D).
    { assert (2 ^ (a - b - 1) * D <= 2 ^ (a - b - 1) * 2 ^ (b + 1)).
      { apply Qmult_le_l; lra. }
      lra. }
    apply Qmult_le_r in M; [exact M | lra].
Qed.

Lemma ilog2_unique (x : Q) (k : Z) :
  2 ^ k <= x -> x < 2 ^ (k + 1) -> ilog2 x = k.
Proof.
  intros H1 H2.
  assert (Hx : 0 < x) by (pose proof (pow2_pos k); lra).
  destruct (ilog2_spec _ Hx) as [L1 L2].
  destruct (Z.lt_trichotomy (ilog2 x) k) as [C | [C | C]]; [exfalso | exact C | exfalso].
  - assert (2 ^ (ilog2 x + 1) <= 2 ^ k) by (apply pow2_le; lia). lra.
  - assert (2 ^ (k + 1) <= 2 ^ ilog2 x) by (apply pow2_le; lia). lra.
Qed.

(** rne *)
Lemma rne_comp (x y : Q) : x == y -> rne x = rne y.
Proof.
  intros E. unfold rne. rewrite (Qfloor_comp _ _ E).
  assert (E' : x - inject_Z (Qfloor y) == y - inject_Z (Qfloor y)) by (rewrite E; reflexivity).
  rewrite (Qcompare_comp _ _ E' (1 # 2) (1 # 2) (Qeq_refl _)). reflexivity.
Qed.

Lemma rne_bounds (y : Q) :
  y - (1 # 2) <= inject_Z (rne y) /\ inject_Z (rne y) <= y + (1 # 2).
Proof.
  unfold rne.
  pose proof (Qfloor_le y) as F1. pose proof (Qlt_floor y) as F2.
  rewrite inject_Z_plus in F2. change (inject_Z 1) with 1 in F2.
  destruct (Qcompare (y - inject_Z (Qfloor y)) (1 # 2)) eqn:C.
  - apply Qeq_alt in C.
    destruct (Z.even (Qfloor y)); [| rewrite inject_Z_plus; change (inject_Z 1) with 1]; lra.
  - apply Qlt_alt in C. lra.
  - apply Qgt_alt in C. rewrite inject_Z_plus. change (inject_Z 1) with 1. lra.
Qed.

Lemma inject_Z_lt_succ (a b : Z) : inject_Z a < inject_Z b + 1 -> (a <= b)%Z.
Proof.
  intros H. change 1 with (inject_Z 1) in H. rewrite <- inject_Z_plus in H.
  rewrite <- Zlt_Qlt in H. lia.
Qed.

Lemma rne_mono (x y : Q) : x <= y -> (rne x <= rne y)%Z.
Proof.
  intros H. destruct (Qlt_le_dec x y) as [L | G].
  - destruct (rne_bounds x) as [_ X]. destruct (rne_bounds y) as [Y _].
    apply inject_Z_lt_succ. lra.
  - rewrite (rne_comp x y); [lia | lra].
Qed.

Lemma rne_Z (n : Z) : rne (inject_Z n) = n.
Proof.
  unfold rne. rewrite Qfloor_Z.
  assert (C : Qcompare (inject_Z n - inject_Z n) (1 # 2) = Lt).
  { apply (proj1 (Qlt_alt _ _)). lra. }
  rewrite C. reflexivity.
Qed.

Lemma rne_nonneg (x : Q) : 0 <= x -> (0 <= rne x)%Z.
Proof. intros H. rewrite <- (rne_Z 0). apply rne_mono. exact H. Qed.

(** values of the numbers built by mk *)
Lemma F2Q_finite (s : bool) (m e : Z) :
  (0 < m)%Z ->
  F2Q (S754_finite s (Z.to_pos m) e) == sgn s * (inject_Z m * 2 ^ e).
Proof.
  intros H. unfold F2Q, sgn.
  assert (E : Zpos (Z.to_pos m) = m) by (apply Z2Pos.id; exact H).
  destruct s.
  - change (Zneg (Z.to_pos m)) with (- Zpos (Z.to_pos m))%Z. rewrite E.
    rewrite inject_Z_opp. ring.
  - rewrite E. ring.
Qed.

Lemma pow2_split (a b : Z) : 2 ^ a * 2 ^ (b - a) == 2 ^ b.
Proof. rewrite <- pow2_add. replace (a + (b - a))%Z with b by lia. reflexivity. Qed.

Lemma F2X_mk (s : bool) (m e : Z) :
  (0 <= m <= 2 ^ 24)%Z -> (-149 <= e)%Z -> (e = -149 \/ 2 ^ 23 <= m)%Z ->
  F2X (mk s m e) == sgn s * Qmin (inject_Z m * 2 ^ e) (2 ^ 128).
Proof.
  intros Hm He Hn. unfold mk.
  pose proof (pow2_pos e) as Pe.
  destruct (Z.eqb_spec m 0) as [Z0 | NZ].
  - subst m. simpl F2X. rewrite Q.min_l.
    + change (inject_Z 0) with 0. ring.
    + pose proof (pow2_pos 128). change (inject_Z 0) with 0. lra.
  - destruct (Z.eqb_spec m (2 ^ 24)) as [T | NT].
    + subst m.
      assert (E24 : inject_Z (2 ^ 24) * 2 ^ e == 2 ^ (e + 24)).
      { rewrite pow2_Z by lia. rewrite pow2_add. ring. }
      destruct (Z.ltb_spec 104 (e + 1)) as [O | O].
      * simpl F2X. rewrite Q.min_r.
        -- unfold sgn. destruct s; ring.
        -- rewrite E24. apply pow2_le. lia.
      * change (F2X (S754_finite s (Z.to_pos (2 ^ 23)) (e + 1)))
          with (F2Q (S754_finite s (Z.to_pos (2 ^ 23)) (e + 1))).
        rewrite F2Q_finite by lia. rewrite Q.min_l.
        -- rewrite E24. rewrite pow2_Z by lia. rewrite <- pow2_add.
           replace (23 + (e + 1))%Z with (e + 24)%Z by lia. reflexivity.
        -- rewrite E24. apply pow2_le. lia.
    + assert (M1 : inject_Z m < 2 ^ 24).
      { rewrite <- pow2_Z by lia. rewrite <- Zlt_Qlt. lia. }
      assert (M0 : 0 < inject_Z m).
      { change 0 with (inject_Z 0). rewrite <- Zlt_Qlt. lia. }
      destruct (Z.ltb_spec 104 e) as [O | O].
      * simpl F2X. rewrite Q.min_r.
        -- unfold sgn. destruct s; ring.
        -- assert (M2 : 2 ^ 23 <= inject_Z m).
           { rewrite <- pow2_Z by lia. rewrite <- Zle_Qle. lia. }
           assert (P : 2 ^ 105 <= 2 ^ e) by (apply pow2_le; lia).
           pose proof (pow2_add 23 105) as A. change (23 + 105)%Z with 128%Z in A.
           pose proof (pow2_pos 23). pose proof (pow2_pos 105).
           rewrite A.
           apply Qle_trans with (inject_Z m * 2 ^ 105).
           ++ apply Qmult_le_compat_r; lra.
           ++ apply Qmult_le_l; lra.
      * change (F2X (S754_finite s (Z.to_pos m) e)) with (F2Q (S754_finite s (Z.to_pos m) e)).
        rewrite F2Q_finite by lia. rewrite Q.min_l; [reflexivity |].
        assert (P : 2 ^ e <= 2 ^ 104) by (apply pow2_le; lia).
        pose proof (pow2_add 24 104) as A. change (24 + 104)%Z with 128%Z in A.
        pose proof (pow2_pos 24). pose proof (pow2_pos 104).
        rewrite A.
        apply Qle_trans with (inject_Z m * 2 ^ 104).
        ++ apply Qmult_le_l; lra.
        ++ apply Qmult_le_compat_r; lra.
Qed.

Lemma qexp_ge (x : Q) : (-149 <= qexp x)%Z /\ (ilog2 x - 23 <= qexp x)%Z.
Proof. unfold qexp. lia. Qed.

Lemma scaled_lt (x : Q) (a q : Z) : x < 2 ^ a -> x / 2 ^ q < 2 ^ (a - q).
Proof.
  intros H. pose proof (pow2_pos q) as Pq.
  rewrite pow2_sub. apply Qmult_lt_r; [apply Qinv_lt_0_compat; exact Pq | exact H].
Qed.

Lemma scaled_le (x : Q) (a q : Z) : 2 ^ a <= x -> 2 ^ (a - q) <= x / 2 ^ q.
Proof.
  intros H. pose proof (pow2_pos q) as Pq.
  rewrite pow2_sub. apply Qmult_le_r; [apply Qinv_lt_0_compat; exact Pq | exact H].
Qed.

Lemma scaled_le' (x : Q) (a q : Z) : x <= 2 ^ a -> x / 2 ^ q <= 2 ^ (a - q).
Proof.
  intros H. pose proof (pow2_pos q) as Pq.
  rewrite pow2_sub. apply Qmult_le_r; [apply Qinv_lt_0_compat; exact Pq | exact H].
Qed.

Lemma rne_pow2_le (y : Q) (n : Z) : (0 <= n)%Z -> y <= 2 ^ n -> (rne y <= 2 ^ n)%Z.
Proof.
  intros Hn H. rewrite <- (rne_Z (2 ^ n)). apply rne_mono. rewrite pow2_Z by exact Hn. exact H.
Qed.

Lemma rne_pow2_ge (y : Q) (n : Z) : (0 <= n)%Z -> 2 ^ n <= y -> (2 ^ n <= rne y)%Z.
Proof.
  intros Hn H. rewrite <- (rne_Z (2 ^ n)) at 1. apply rne_mono. rewrite pow2_Z by exact Hn. exact H.
Qed.

Lemma rne_range (x : Q) :
  0 < x ->
  (0 <= rne (x / 2 ^ qexp x) <= 2 ^ 24)%Z /\
  (qexp x = -149 \/ 2 ^ 23 <= rne (x / 2 ^ qexp x))%Z.
Proof.
  intros Hx. destruct (ilog2_spec x Hx) as [L U].
  destruct (qexp_ge x) as [Q1 Q2].
  pose proof (pow2_pos (qexp x)) as Pq.
  split; [split |].
  - apply rne_nonneg. apply Qlt_le_weak. apply Qlt_shift_div_l; lra.
  - apply rne_pow2_le; [lia |].
    apply Qlt_le_weak. apply Qlt_le_trans with (2 ^ (ilog2 x + 1 - qexp x)).
    + apply scaled_lt. exact U.
    + apply pow2_le. lia.
  - destruct (Z.eq_dec (qexp x) (-149)) as [E | NE]; [left; exact E | right].
    apply rne_pow2_ge; [lia |].
    apply Qle_trans with (2 ^ (ilog2 x - qexp x)).
    + apply pow2_le. unfold qexp in *. lia.
    + apply scaled_le. exact L.
Qed.

Lemma F2X_round_pos (s : bool) (x : Q) :
  0 < x -> F2X (round_pos s x) == sgn s * rndp x.
Proof.
  intros Hx. unfold round_pos, rndp.
  destruct (rne_range x Hx) as [R1 R2]. destruct (qexp_ge x) as [Q1 _].
  apply F2X_mk; assumption.
Qed.

Lemma F2X_round32 (s : bool) (x : Q) : F2X (round32 s x) == rnd x.
Proof.
  unfold round32, rnd. destruct (Qcompare_spec x 0) as [C | C | C].
  - reflexivity.
  - rewrite F2X_round_pos by lra. unfold sgn. ring.
  - rewrite F2X_round_pos by lra. unfold sgn. ring.
Qed.

Lemma is_nan_mk (s : bool) (m e : Z) : is_nan (mk s m e) = false.
Proof.
  unfold mk. destruct (m =? 0)%Z; [reflexivity |].
  destruct (m =? 2 ^ 24)%Z; destruct (104 <? _)%Z; reflexivity.
Qed.

Lemma is_nan_round32 (s : bool) (x : Q) : is_nan (round32 s x) = false.
Proof.
  unfold round32, round_pos. destruct (Qcompare x 0); [reflexivity | |]; apply is_nan_mk.
Qed.

(** monotony *)
Lemma ilog2_mono (x y : Q) : 0 < x -> x <= y -> (ilog2 x <= ilog2 y)%Z.
Proof.
  intros Hx H. assert (Hy : 0 < y) by lra.
  destruct (ilog2_spec x Hx) as [L1 U1]. destruct (ilog2_spec y Hy) as [L2 U2].
  destruct (Z_le_gt_dec (ilog2 x) (ilog2 y)) as [C | C]; [exact C | exfalso].
  assert (2 ^ (ilog2 y + 1) <= 2 ^ ilog2 x) by (apply pow2_le; lia). lra.
Qed.

Lemma rawp_mono (x y : Q) : 0 < x -> x <= y -> rawp x <= rawp y.
Proof.
  intros Hx H. assert (Hy : 0 < y) by lra.
  pose proof (ilog2_mono x y Hx H) as K.
  destruct (ilog2_spec x Hx) as [L1 U1]. destruct (ilog2_spec y Hy) as [L2 U2].
  pose proof (pow2_pos (qexp x)) as Px. pose proof (pow2_pos (qexp y)) as Py.
  unfold rawp.
  destruct (Z.eq_dec (qexp x) (qexp y)) as [E | NE].
  - rewrite E. apply Qmult_le_compat_r; [| lra].
    rewrite <- Zle_Qle. apply rne_mono.
    apply Qmult_le_compat_r; [exact H |]. apply Qlt_le_weak. apply Qinv_lt_0_compat. exact Py.
  - assert (Q1 : (qexp x < qexp y)%Z) by (unfold qexp in *; lia).
    assert (Q2 : qexp y = (ilog2 y - 23)%Z) by (unfold qexp in *; lia).
    assert (Q3 : (ilog2 x < ilog2 y)%Z) by (unfold qexp in *; lia).
    apply Qle_trans with (2 ^ ilog2 y).
    + assert (R : (rne (x / 2 ^ qexp x) <= 2 ^ (ilog2 y - qexp x))%Z).
      { apply rne_pow2_le; [lia |]. apply scaled_le'.
        apply Qle_trans with (2 ^ (ilog2 x + 1)); [lra | apply pow2_le; lia]. }
      rewrite Zle_Qle in R. rewrite pow2_Z in R by lia.
      rewrite <- (pow2_split (qexp x) (ilog2 y)).
      rewrite (Qmult_comm (2 ^ qexp x)).
      apply Qmult_le_compat_r; [exact R | lra].
    + assert (R : (2 ^ 23 <= rne (y / 2 ^ qexp y))%Z).
      { apply rne_pow2_ge; [lia |].
        replace 23%Z with (ilog2 y - qexp y)%Z by lia. apply scaled_le. exact L2. }
      rewrite Zle_Qle in R. rewrite pow2_Z in R by lia.
      rewrite <- (pow2_split (qexp y) (ilog2 y)).
      rewrite (Qmult_comm (2 ^ qexp y)).
      replace (ilog2 y - qexp y)%Z with 23%Z by lia.
      apply Qmult_le_compat_r; [exact R | lra].
Qed.

Lemma rndp_mono (x y : Q) : 0 < x -> x <= y -> rndp x <= rndp y.
Proof.
  intros Hx H. unfold rndp. apply Q.min_le_compat.
  - apply (rawp_mono x y Hx H).
  - apply Qle_refl.
Qed.

Lemma rndp_nonneg (x : Q) : 0 < x -> 0 <= rndp x.
Proof.
  intros Hx. unfold rndp. apply Q.min_glb.
  - destruct (rne_range x Hx) as [[R _] _]. rewrite Zle_Qle in R.
    pose proof (pow2_pos (qexp x)). change (inject_Z 0) with 0 in R.
    apply Qmult_le_0_compat; lra.
  - pose proof (pow2_pos 128). lra.
Qed.

Lemma rnd_mono (x y : Q) : x <= y -> rnd x <= rnd y.
Proof.
  intros H. unfold rnd.
  destruct (Qcompare_spec x 0) as [Cx | Cx | Cx];
    destruct (Qcompare_spec y 0) as [Cy | Cy | Cy]; try lra.
  - apply rndp_nonneg. exact Cy.
  - pose proof (rndp_nonneg (- x)). lra.
  - assert (rndp (- y) <= rndp (- x)) by (apply rndp_mono; lra). lra.
  - pose proof (rndp_nonneg (- x)). pose proof (rndp_nonneg y). lra.
  - apply rndp_mono; lra.
Qed.

(** extensionality *)
Lemma ilog2_comp (x y : Q) : 0 < x -> x == y -> ilog2 x = ilog2 y.
Proof.
  intros Hx E. destruct (ilog2_spec x Hx) as [L U].
  symmetry. apply ilog2_unique; rewrite <- E; assumption.
Qed.

Lemma rawp_comp (x y : Q) : 0 < x -> x == y -> rawp x == rawp y.
Proof.
  intros Hx E. unfold rawp, qexp. rewrite <- (ilog2_comp x y Hx E).
  rewrite (rne_comp (x / 2 ^ Z.max (ilog2 x - 23) (-149)) (y / 2 ^ Z.max (ilog2 x - 23) (-149))).
  - reflexivity.
  - unfold Qdiv. apply Qmult_comp; [exact E | reflexivity].
Qed.

Lemma rndp_comp (x y : Q) : 0 < x -> x == y -> rndp x == rndp y.
Proof.
  intros Hx E. unfold rndp. fold (rawp x) (rawp y).
  rewrite (rawp_comp x y Hx E). reflexivity.
Qed.

Lemma rnd_comp (x y : Q) : x == y -> rnd x == rnd y.
Proof.
  intros E. unfold rnd.
  destruct (Qcompare_spec x 0) as [Cx | Cx | Cx];
    destruct (Qcompare_spec y 0) as [Cy | Cy | Cy]; try lra.
  - rewrite (rndp_comp (- x) (- y)); [reflexivity | lra | lra].
  - apply rndp_comp; lra.
Qed.

(** exactness *)
Lemma rawp_exact (n e : Z) :
  (0 < n < 2 ^ 24)%Z -> (-149 <= e)%Z ->
  rawp (inject_Z n * 2 ^ e) == inject_Z n * 2 ^ e.
Proof.
  intros Hn He.
  pose proof (pow2_pos e) as Pe.
  assert (N0 : 1 <= inject_Z n).
  { change 1 with (inject_Z 1). rewrite <- Zle_Qle. lia. }
  assert (N1 : inject_Z n < 2 ^ 24).
  { rewrite <- pow2_Z by lia. rewrite <- Zlt_Qlt. lia. }
  assert (Hx : 0 < inject_Z n * 2 ^ e) by (apply Qmult_lt_0_compat; lra).
  remember (inject_Z n * 2 ^ e) as x eqn:Ex.
  destruct (ilog2_spec x Hx) as [L U].
  assert (K : (ilog2 x < 24 + e)%Z).
  { apply Qpower_lt_compat_l_inv with 2; [| reflexivity].
    apply Qle_lt_trans with x; [exact L |].
    rewrite pow2_add. rewrite Ex. apply Qmult_lt_r; lra. }
  assert (Q1 : (qexp x <= e)%Z) by (unfold qexp; lia).
  unfold rawp. generalize dependent (qexp x). intros q Q1.
  pose proof (pow2_pos q) as Pq.
  assert (E : x / 2 ^ q == inject_Z (n * 2 ^ (e - q))).
  { rewrite inject_Z_mult. rewrite pow2_Z by lia. rewrite pow2_sub. rewrite Ex.
    field. lra. }
  rewrite (rne_comp _ _ E). rewrite rne_Z.
  rewrite inject_Z_mult. rewrite pow2_Z by lia. rewrite Ex.
  pose proof (pow2_split q e) as Sp.
  rewrite pow2_sub in *. field_simplify_eq; [ring | lra].
Qed.

Lemma rnd_representable (x : Q) : representable x -> rnd x == x.
Proof.
  intros (n & e & Hn & He & E & Lo & Hi).
  pose proof (pow2_pos e) as Pe.
  unfold rnd. destruct (Qcompare_spec x 0) as [C | C | C].
  - lra.
  - assert (Hn' : (0 < - n < 2 ^ 24)%Z).
    { split; [| lia]. apply Z.opp_pos_neg. rewrite Zlt_Qlt. change (inject_Z 0) with 0.
      apply Qnot_le_lt. intros G. assert (0 <= inject_Z n * 2 ^ e).
      { apply Qmult_le_0_compat; lra. }
      lra. }
    assert (E' : - x == inject_Z (- n) * 2 ^ e) by (rewrite inject_Z_opp, E; ring).
    assert (Hx : 0 < - x) by lra.
    unfold rndp. fold (rawp (- x)). rewrite (rawp_comp _ _ Hx E').
    rewrite rawp_exact by assumption. rewrite <- E'. rewrite Q.min_l; lra.
  - assert (Hn' : (0 < n < 2 ^ 24)%Z).
    { split; [| lia]. rewrite Zlt_Qlt. change (inject_Z 0) with 0.
      apply Qnot_le_lt. intros G.
      assert (0 <= (- inject_Z n) * 2 ^ e) by (apply Qmult_le_0_compat; lra). lra. }
    unfold rndp. fold (rawp x). rewrite (rawp_comp _ _ C E).
    rewrite rawp_exact by assumption. rewrite <- E. rewrite Q.min_l; lra.
Qed.

Lemma F2X_F2Q (f : float) : is_finite f = true -> F2X f == F2Q f.
Proof. destruct f; intros H; try discriminate; reflexivity. Qed.

Lemma finite_of_F2X (f : float) :
  is_nan f = false -> - 2 ^ 128 < F2X f -> F2X f < 2 ^ 128 -> is_finite f = true.
Proof.
  destruct f as [s | s | | s m e]; intros N Lo Hi; try reflexivity; try discriminate.
  simpl in Lo, Hi. destruct s; lra.
Qed.

Lemma round32_representable (s : bool) (x : Q) :
  representable x ->
  is_finite (round32 s x) = true /\ F2Q (round32 s x) == x.
Proof.
  intros R. pose proof (rnd_representable x R) as E.
  destruct R as (n & e & _ & _ & _ & Lo & Hi).
  assert (F : is_finite (round32 s x) = true).
  { apply finite_of_F2X; [apply is_nan_round32 | |]; rewrite F2X_round32, E; assumption. }
  split; [exact F |]. rewrite <- F2X_F2Q by exact F. rewrite F2X_round32. exact E.
Qed.

(** validity *)
Lemma valid_mk (s : bool) (m e : Z) :
  (0 <= m <= 2 ^ 24)%Z -> (-149 <= e)%Z -> (e = -149 \/ 2 ^ 23 <= m)%Z ->
  valid (mk s m e) = true.
Proof.
  intros Hm He Hn. unfold mk.
  destruct (Z.eqb_spec m 0) as [Z0 | NZ]; [reflexivity |].
  destruct (Z.eqb_spec m (2 ^ 24)) as [T | NT].
  - destruct (Z.ltb_spec 104 (e + 1)) as [O | O]; [reflexivity |].
    unfold valid. change (Z.pos (Z.to_pos (2 ^ 23))) with (2 ^ 23)%Z.
    apply andb_true_intro; split; [apply andb_true_intro; split; [apply andb_true_intro; split |] |].
    + apply Z.leb_le. lia.
    + apply Z.leb_le. lia.
    + reflexivity.
    + apply orb_true_intro. right. reflexivity.
  - destruct (Z.ltb_spec 104 e) as [O | O]; [reflexivity |].
    unfold valid. rewrite Z2Pos.id by lia.
    apply andb_true_intro; split; [apply andb_true_intro; split; [apply andb_true_intro; split |] |].
    + apply Z.leb_le. lia.
    + apply Z.leb_le. lia.
    + apply Z.ltb_lt. lia.
    + apply orb_true_intro. destruct Hn as [Hn | Hn]; [left; apply Z.eqb_eq | right; apply Z.leb_le]; lia.
Qed.

Lemma valid_round32 (s : bool) (x : Q) : valid (round32 s x) = true.
Proof.
  unfold round32. destruct (Qcompare_spec x 0) as [C | C | C]; [reflexivity | |];
    unfold round_pos.
  - destruct (rne_range (- x)) as [R1 R2]; [lra |]. destruct (qexp_ge (- x)) as [Q1 _].
    apply valid_mk; assumption.
  - destruct (rne_range x C) as [R1 R2]. destruct (qexp_ge x) as [Q1 _].
    apply valid_mk; assumption.
Qed.

Lemma valid_finite_inv (s : bool) (m : positive) (e : Z) :
  valid (S754_finite s m e) = true ->
  (-149 <= e <= 104)%Z /\ (Zpos m < 2 ^ 24)%Z /\ (e = -149 \/ 2 ^ 23 <= Zpos m)%Z.
Proof.
  unfold valid. intros H.
  apply andb_prop in H. destruct H as [H H4].
  apply andb_prop in H. destruct H as [H H3].
  apply andb_prop in H. destruct H as [H1 H2].
  apply Z.leb_le in H1. apply Z.leb_le in H2. apply Z.ltb_lt in H3.
  apply orb_prop in H4.
  repeat split; try assumption.
  destruct H4 as [H4 | H4]; [left; apply Z.eqb_eq in H4 | right; apply Z.leb_le in H4]; assumption.
Qed.

Lemma F2Q_bound (s : bool) (m : positive) (e : Z) :
  valid (S754_finite s m e) = true ->
  - 2 ^ 128 < F2Q (S754_finite s m e) /\ F2Q (S754_finite s m e) < 2 ^ 128.
Proof.
  intros V. destruct (valid_finite_inv s m e V) as (He & Hm & _).
  assert (M : inject_Z (Zpos m) * 2 ^ e < 2 ^ 128).
  { assert (M1 : inject_Z (Zpos m) < 2 ^ 24).
    { rewrite <- pow2_Z by lia. rewrite <- Zlt_Qlt. exact Hm. }
    assert (M0 : 0 < inject_Z (Zpos m)) by reflexivity.
    assert (P : 2 ^ e <= 2 ^ 104) by (apply pow2_le; lia).
    pose proof (pow2_add 24 104) as A. change (24 + 104)%Z with 128%Z in A.
    pose proof (pow2_pos 24). pose proof (pow2_pos 104). pose proof (pow2_pos e).
    rewrite A. apply Qle_lt_trans with (inject_Z (Zpos m) * 2 ^ 104).
    - apply Qmult_le_l; lra.
    - apply Qmult_lt_r; lra. }
  assert (P : 0 < inject_Z (Zpos m) * 2 ^ e).
  { apply Qmult_lt_0_compat; [reflexivity | apply pow2_pos]. }
  unfold F2Q. destruct s.
  - change (Zneg m) with (- Zpos m)%Z. rewrite inject_Z_opp. split; lra.
  - pose proof (pow2_pos 128). split; lra.
Qed.

Lemma F2Q_representable (f : float) :
  valid f = true -> is_finite f = true -> representable (F2Q f).
Proof.
  intros V F. destruct f as [s | s | | s m e]; try discriminate.
  - exists 0%Z, 0%Z. simpl. pose proof (pow2_pos 128).
    repeat split; try lia; try lra.
  - destruct (valid_finite_inv s m e V) as (He & Hm & _).
    destruct (F2Q_bound s m e V) as [Lo Hi].
    exists (if s then Zneg m else Zpos m), e.
    repeat split; try assumption; try lia; try reflexivity.
    destruct s; simpl; lia.
Qed.

Lemma F2Q_fneg (x : float) : F2Q (fneg x) == - F2Q x.
Proof.
  destruct x as [s | s | | s m e]; simpl; try reflexivity.
  destruct s; simpl.
  - change (Zneg m) with (- Zpos m)%Z. rewrite inject_Z_opp. ring.
  - change (Zneg m) with (- Zpos m)%Z. rewrite inject_Z_opp. ring.
Qed.


Lemma is_finite_fneg (x : float) : is_finite (fneg x) = is_finite x.
Proof. destruct x; reflexivity. Qed.

(** the operations on finite numbers *)
Lemma fmul_finite (x y : float) :
  is_finite x = true -> is_finite y = true ->
  fmul x y = round32 (xorb (fsign x) (fsign y)) (F2Q x * F2Q y).
Proof. destruct x, y; intros; try discriminate; reflexivity. Qed.

Lemma fdiv_finite (x y : float) (s : bool) (m : positive) (e : Z) :
  is_finite x = true -> y = S754_finite s m e ->
  fdiv x y = round32 (xorb (fsign x) (fsign y)) (F2Q x / F2Q y).
Proof. intros F ->. destruct x; try discriminate; reflexivity. Qed.

Lemma F2X_fadd (x y : float) :
  is_finite x = true -> is_finite y = true ->
  F2X (fadd x y) == rnd (F2Q x + F2Q y).
Proof.
  destruct x, y; intros; try discriminate; unfold fadd; try apply F2X_round32.
  reflexivity.
Qed.

Lemma F2X_fsub (x y : float) :
  is_finite x = true -> is_finite y = true ->
  F2X (fsub x y) == rnd (F2Q x - F2Q y).
Proof.
  intros Fx Fy. unfold fsub. rewrite F2X_fadd; [| exact Fx | rewrite is_finite_fneg; exact Fy].
  apply rnd_comp. rewrite F2Q_fneg. ring.
Qed.

Lemma valid_fmul (x y : float) : valid (fmul x y) = true.
Proof. destruct x, y; try reflexivity; apply valid_round32. Qed.

Lemma valid_fdiv (x y : float) : valid (fdiv x y) = true.
Proof. destruct x, y; try reflexivity; apply valid_round32. Qed.

Lemma valid_fadd (x y : float) : valid (fadd x y) = true.
Proof.
  destruct x as [sx | sx | | sx mx ex], y as [sy | sy | | sy my ey];
    try reflexivity; try apply valid_round32.
  simpl. destruct (Bool.eqb sx sy); reflexivity.
Qed.

(** floor, ceil and the conversion to int *)
Lemma near_int_representable (f : float) (n : Z) :
  valid f = true -> is_finite f = true ->
  F2Q f - 1 < inject_Z n -> inject_Z n < F2Q f + 1 ->
  representable (inject_Z n).
Proof.
  intros V F Lo Hi. destruct f as [s | s | | s m e]; try discriminate.
  - simpl in Lo, Hi. assert (n = 0%Z).
    { change 1 with (inject_Z 1) in *. change 0 with (inject_Z 0) in *.
      rewrite <- inject_Z_plus in Hi. unfold Qminus in Lo. rewrite <- inject_Z_opp, <- inject_Z_plus in Lo.
      rewrite <- Zlt_Qlt in Lo, Hi. lia. }
    subst n. exists 0%Z, 0%Z. pose proof (pow2_pos 128).
    repeat split; try lia; try lra.
  - destruct (valid_finite_inv s m e V) as (He & Hm & _).
    destruct (F2Q_bound s m e V) as [B1 B2].
    set (k := if s then Zneg m else Zpos m) in *.
    assert (Hk : (Z.abs k < 2 ^ 24)%Z) by (unfold k; destruct s; simpl; lia).
    change (F2Q (S754_finite s m e)) with (inject_Z k * 2 ^ e) in *.
    destruct (Z_le_gt_dec 0 e) as [P | N].
    + assert (E : inject_Z k * 2 ^ e == inject_Z (k * 2 ^ e)).
      { rewrite inject_Z_mult, pow2_Z by lia. reflexivity. }
      assert (n = k * 2 ^ e)%Z.
      { rewrite E in Lo, Hi. change 1 with (inject_Z 1) in *.
        rewrite <- inject_Z_plus in Hi. unfold Qminus in Lo.
        rewrite <- inject_Z_opp, <- inject_Z_plus in Lo.
        rewrite <- Zlt_Qlt in Lo, Hi. lia. }
      subst n. exists k, e. repeat split; try assumption; try lia; rewrite <- E; try assumption.
      reflexivity.
    + assert (A : - 2 ^ 23 < inject_Z k * 2 ^ e /\ inject_Z k * 2 ^ e < 2 ^ 23).
      { assert (K1 : - 2 ^ 24 < inject_Z k).
        { rewrite <- pow2_Z, <- inject_Z_opp by lia. rewrite <- Zlt_Qlt. lia. }
        assert (K2 : inject_Z k < 2 ^ 24).
        { rewrite <- pow2_Z by lia. rewrite <- Zlt_Qlt. lia. }
        assert (P : 2 ^ e <= 2 ^ (-1)) by (apply pow2_le; lia).
        pose proof (pow2_pos e) as Pe.
        change (2 ^ (-1)) with (1 # 2) in P.
        change (2 ^ 24) with (16777216 # 1) in *. change (2 ^ 23) with (8388608 # 1).
        split; nra. }
      destruct A as [A1 A2].
      assert (Hn : (- 2 ^ 23 <= n <= 2 ^ 23)%Z).
      { change (2 ^ 23) with (8388608 # 1) in A1, A2.
        assert (L : inject_Z (-8388609) < inject_Z n).
        { change (inject_Z (-8388609)) with (-8388609 # 1). lra. }
        assert (U : inject_Z n < inject_Z 8388609).
        { change (inject_Z 8388609) with (8388609 # 1). lra. }
        rewrite <- Zlt_Qlt in L, U. lia. }
      exists n, 0%Z.
      assert (L : inject_Z (- 2 ^ 23) <= inject_Z n) by (rewrite <- Zle_Qle; lia).
      assert (U : inject_Z n <= inject_Z (2 ^ 23)) by (rewrite <- Zle_Qle; lia).
      rewrite inject_Z_opp in L. rewrite pow2_Z in L, U by lia.
      assert (2 ^ 23 < 2 ^ 128) by (apply pow2_lt; lia).
      repeat split; try lia; try lra.
Qed.

Lemma Qtrunc_Z (n : Z) : Qtrunc (inject_Z n) = n.
Proof. unfold Qtrunc. destruct (Qle_bool 0 (inject_Z n)); [apply Qfloor_Z | apply Qceiling_Z]. Qed.

Lemma Qtrunc_comp (x y : Q) : x == y -> Qtrunc x = Qtrunc y.
Proof.
  intros E. unfold Qtrunc. rewrite (Qleb_comp 0 0 (Qeq_refl 0) x y E).
  rewrite (Qfloor_comp x y E), (Qceiling_comp x y E). reflexivity.
Qed.

Lemma floorf_spec (f : float) :
  valid f = true -> is_finite f = true ->
  is_finite (floorf f) = true /\ F2Q (floorf f) == inject_Z (Qfloor (F2Q f)).
Proof.
  intros V F. unfold floorf. rewrite F.
  destruct (Z.eqb_spec (Qfloor (F2Q f)) 0) as [E | NE].
  - rewrite E. split; reflexivity.
  - apply round32_representable. apply (near_int_representable f); try assumption.
    + pose proof (Qlt_floor (F2Q f)) as L. rewrite inject_Z_plus in L.
      change (inject_Z 1) with 1 in L. lra.
    + pose proof (Qfloor_le (F2Q f)). lra.
Qed.

Lemma ceilf_spec (f : float) :
  valid f = true -> is_finite f = true ->
  is_finite (ceilf f) = true /\ F2Q (ceilf f) == inject_Z (Qceiling (F2Q f)).
Proof.
  intros V F. unfold ceilf. rewrite F.
  destruct (Z.eqb_spec (Qceiling (F2Q f)) 0) as [E | NE].
  - rewrite E. split; reflexivity.
  - apply round32_representable. apply (near_int_representable f); try assumption.
    + pose proof (Qle_ceiling (F2Q f)) as L.
      generalize dependent (Qceiling (F2Q f)). intros c _ L. lra.
    + pose proof (Qceiling_lt (F2Q f)) as L. unfold Z.sub in L. rewrite inject_Z_plus in L.
      rewrite inject_Z_opp in L. change (inject_Z 1) with 1 in L.
      generalize dependent (Qceiling (F2Q f)). intros c _ L. lra.
Qed.

Lemma of_float_floorf (f : float) :
  valid f = true -> is_finite f = true ->
  Int.of_float (floorf f) = Int.checked (Qfloor (F2Q f)).
Proof.
  intros V F. destruct (floorf_spec f V F) as [F' E].
  unfold Int.of_float. rewrite F'. rewrite (Qtrunc_comp _ _ E), Qtrunc_Z. reflexivity.
Qed.

Lemma of_float_ceilf (f : float) :
  valid f = true -> is_finite f = true ->
  Int.of_float (ceilf f) = Int.checked (Qceiling (F2Q f)).
Proof.
  intros V F. destruct (ceilf_spec f V F) as [F' E].
  unfold Int.of_float. rewrite F'. rewrite (Qtrunc_comp _ _ E), Qtrunc_Z. reflexivity.
Qed.

Lemma of_float_floorf_inv (f : float) (z : Z) :
  Int.of_float (floorf f) = Some z -> is_finite f = true.
Proof.
  unfold Int.of_float, floorf. destruct (is_finite f) eqn:F; [reflexivity |].
  rewrite F. discriminate.
Qed.

Lemma of_float_ceilf_inv (f : float) (z : Z) :
  Int.of_float (ceilf f) = Some z -> is_finite f = true.
Proof.
  unfold Int.of_float, ceilf. destruct (is_finite f) eqn:F; [reflexivity |].
  rewrite F. discriminate.
Qed.

Lemma checked_Some (z r : Z) :
  Int.checked z = Some r -> r = z /\ (Int.INT_MIN <= z <= Int.INT_MAX)%Z.
Proof.
  unfold Int.checked, Int.in_range. intros H.
  destruct (Int.INT_MIN <=? z)%Z eqn:A; destruct (z <=? Int.INT_MAX)%Z eqn:B;
    simpl in H; try discriminate.
  apply Z.leb_le in A. apply Z.leb_le in B. inversion H. lia.
Qed.

(** The operations agree with [SFmul], [SFdiv], [SFadd] and [SFsub] at
    precision 24 and maximal exponent 128 on every pair of the table. *)
Lemma operations_agree :
  forallb valid samples = true /\
  agree fmul (SFmul prec emax) = true /\ agree fdiv (SFdiv prec emax) = true /\
  agree fadd (SFadd prec emax) = true /\ agree fsub (SFsub prec emax) = true.
Proof. vm_compute. repeat split; reflexivity. Qed.

End F32Facts.

Export F32Facts.

(** * Properties of the view logic *)

Open Scope Z_scope.

(** ** Runs and the hover state *)

Lemma bind_Some {A B : Type} (m : option A) (f : A -> option B) (b : B) :
  bind m f = Some b -> exists a, m = Some a /\ f a = Some b.
Proof. destruct m as [a |]; simpl; intros H; [exists a; auto | discriminate]. Qed.

Lemma Some_inj {A : Type} (a b : A) : Some a = Some b -> a = b.
Proof. intros H. inversion H. reflexivity. Qed.

Lemma updateScrollbars_canvas (v v' : TilemapScrollView) :
  updateScrollbars v = Some v' -> canvas v' = canvas v.
Proof.
  unfold updateScrollbars. intros H.
  repeat (apply bind_Some in H; destruct H as (? & _ & H)).
  inversion H. reflexivity.
Qed.

Lemma notifyParent_canvas (v v' : TilemapScrollView) :
  notifyParent v = Some v' -> canvas v' = canvas v.
Proof.
  unfold notifyParent. destruct (parentView (canvas v)).
  - apply updateScrollbars_canvas.
  - intros H. inversion H. reflexivity.
Qed.

Lemma updateHoveredTile_ok (t t' : TilemapWindow) (mx my : Z) :
  updateHoveredTile t mx my = Some t' -> hover_ok t'.
Proof.
  unfold updateHoveredTile. intros H.
  apply bind_Some in H. destruct H as (tx & _ & H).
  apply bind_Some in H. destruct H as (ty & _ & H).
  destruct ((0 <=? tx) && (0 <=? ty) && (tx <? MAP_WIDTH) && (ty <? MAP_HEIGHT)) eqn:C;
    inversion H; subst t'; unfold hover_ok; simpl.
  - right.
    apply andb_prop in C. destruct C as [C C4].
    apply andb_prop in C. destruct C as [C C3].
    apply andb_prop in C. destruct C as [C1 C2].
    apply Z.leb_le in C1. apply Z.leb_le in C2. apply Z.ltb_lt in C3. apply Z.ltb_lt in C4.
    lia.
  - left. split; reflexivity.
Qed.

Lemma handle_hover (v v' : TilemapScrollView) (e : Event) :
  handle v e = Some v' -> hover_ok (canvas v) -> hover_ok (canvas v').
Proof.
  intros H I. destruct e as [b x y | x y | | x y dy | x y |]; simpl in H.
  - destruct (b =? FL_LEFT_MOUSE); inversion H; subst v'; exact I.
  - destruct (dragging (canvas v)).
    + apply bind_Some in H. destruct H as (dx & _ & H).
      apply bind_Some in H. destruct H as (dy & _ & H).
      apply notifyParent_canvas in H. rewrite H. exact I.
    + inversion H; subst v'; exact I.
  - inversion H; subst v'; exact I.
  - apply notifyParent_canvas in H. rewrite H. exact I.
  - apply bind_Some in H. destruct H as (t' & U & H). inversion H; subst v'. simpl.
    apply (updateHoveredTile_ok _ _ _ _ U).
  - inversion H; subst v'; exact I.
Qed.

Lemma step_hover (v v' : TilemapScrollView) (i : Input) :
  step v i = Some v' -> hover_ok (canvas v) -> hover_ok (canvas v').
Proof.
  intros H I. destruct i as [e | pos | pos | X Y W H']; simpl in H.
  - apply (handle_hover _ _ _ H I).
  - destruct (Int.in_range pos); [| discriminate].
    unfold hscrollCallback in H. apply bind_Some in H. destruct H as (n & _ & H).
    inversion H; subst v'. exact I.
  - destruct (Int.in_range pos); [| discriminate].
    unfold vscrollCallback in H. apply bind_Some in H. destruct H as (n & _ & H).
    inversion H; subst v'. exact I.
  - unfold resize in H. apply bind_Some in H. destruct H as (cw & _ & H).
    apply bind_Some in H. destruct H as (ch & _ & H).
    apply updateScrollbars_canvas in H. rewrite H. exact I.
Qed.

Lemma run_invariant (P : TilemapScrollView -> Prop) :
  (forall v v' i, step v i = Some v' -> P v -> P v') ->
  forall inputs v v', run v inputs = Some v' -> P v -> P v'.
Proof.
  intros S. induction inputs as [| i rest IH]; intros v v' H I; simpl in H.
  - inversion H; subst v'; exact I.
  - apply bind_Some in H. destruct H as (v1 & H1 & H2).
    apply (IH v1 v' H2). apply (S v v1 i H1 I).
Qed.

Lemma newView_hover (W H : Z) (v : TilemapScrollView) :
  newView W H = Some v -> hover_ok (canvas v).
Proof.
  unfold newView. intros E.
  apply bind_Some in E. destruct E as (cw & _ & E).
  apply bind_Some in E. destruct E as (ch & _ & E).
  apply updateScrollbars_canvas in E. rewrite E. left. split; reflexivity.
Qed.

(** Claim C10. In every state that the view reaches from its construction,
    by any inputs, the hover state is (-1, -1) or a tile of the map, with
    [0 <= hoveredX < MAP_WIDTH] and [0 <= hoveredY < MAP_HEIGHT]; [draw]
    draws no outline in the first case and, in the second, the outline
    whose corner is the corner of the hovered tile. *)
Theorem hover_invariant (W H : Z) (inputs : list Input) (v0 v : TilemapScrollView) :
  newView W H = Some v0 -> run v0 inputs = Some v ->
  hover_ok (canvas v) /\
  ((hoveredX (canvas v) = -1 /\ hoveredY (canvas v) = -1) <-> drawHover (canvas v) = Some None) /\
  ((0 <= hoveredX (canvas v) < MAP_WIDTH /\ 0 <= hoveredY (canvas v) < MAP_HEIGHT) <->
   drawHover (canvas v) =
     Some (Some (hoveredX (canvas v) * TILE_SIZE, hoveredY (canvas v) * TILE_SIZE))).
Proof.
  intros N R.
  assert (I : hover_ok (canvas v)).
  { apply (run_invariant (fun v => hover_ok (canvas v)) step_hover inputs v0 v R).
    apply (newView_hover W H v0 N). }
  split; [exact I |].
  unfold hover_ok, MAP_WIDTH, MAP_HEIGHT in *. unfold drawHover, TILE_SIZE.
  destruct I as [[Ex Ey] | [Bx By]].
  - rewrite Ex, Ey. simpl. split; split; intros; try lia; try discriminate. auto.
  - destruct (Z.leb_spec 0 (hoveredX (canvas v))); [| lia].
    destruct (Z.leb_spec 0 (hoveredY (canvas v))); [| lia].
    simpl.
    unfold Int.mul, Int.add, Int.checked, Int.in_range, Int.INT_MIN, Int.INT_MAX.
    repeat match goal with
           | |- context [(?a <=? ?b) && (?c <=? ?d)] =>
               destruct (Z.leb_spec a b); [| lia]; destruct (Z.leb_spec c d); [| lia]; simpl
           end.
    split; split; intros; try lia; try discriminate; auto.
Qed.

Lemma hover_invariant_witness :
  exists v0 v, newView 800 600 = Some v0 /\
               run v0 [CanvasEvent (FL_MOVE 500 500)] = Some v /\
               hover_ok (canvas v) /\ hoveredX (canvas v) = 31 /\ hoveredY (canvas v) = 31.
Proof.
  eexists. eexists.
  split; [vm_compute; reflexivity |]. split; [vm_compute; reflexivity |].
  split; [| split; reflexivity].
  refine (proj1 (hover_invariant 800 600 [CanvasEvent (FL_MOVE 500 500)] _ _ _ _)).
  - vm_compute. reflexivity.
  - vm_compute. reflexivity.
Defined.

(** ** Loops *)

Lemma iterations_step (x x1 step : Z) :
  1 <= step -> x < x1 -> iterations x x1 step = 1 + iterations (x + step) x1 step.
Proof.
  intros S L. unfold iterations.
  replace (x1 - x + step - 1) with ((x1 - x - 1) + 1 * step) by lia.
  rewrite Z.div_add by lia.
  replace (x1 - (x + step) + step - 1) with (x1 - x - 1) by lia.
  assert (0 <= (x1 - x - 1) / step) by (apply Z.div_pos; lia). lia.
Qed.

Lemma iterations_done (x x1 step : Z) :
  1 <= step -> x1 <= x -> iterations x x1 step = 0.
Proof.
  intros S L. unfold iterations.
  assert ((x1 - x + step - 1) / step <= 0).
  { assert ((x1 - x + step - 1) / step < 1); [| lia].
    apply Z.div_lt_upper_bound; lia. }
  lia.
Qed.


Lemma forLoop_count {A : Type} (len : A -> Z) (k : Z) (body : Z -> A -> option A)
    (x1 step : Z) :
  1 <= step -> 0 <= k ->
  (forall x a a', body x a = Some a' -> len a' = len a + k) ->
  forall (fuel : nat) (x : Z) (a a' : A),
    forLoop fuel x x1 step body a = Some a' ->
    len a' = len a + k * iterations x x1 step.
Proof.
  intros S K B. induction fuel as [| fuel IH]; intros x a a' H; simpl in H; [discriminate |].
  destruct (Z.ltb_spec x x1) as [L | G].
  - apply bind_Some in H. destruct H as (a1 & H1 & H).
    apply bind_Some in H. destruct H as (x' & H2 & H).
    unfold Int.add in H2. apply checked_Some in H2. destruct H2 as [-> _].
    apply IH in H. apply B in H1.
    rewrite (iterations_step x x1 step S L). lia.
  - inversion H; subst a'. rewrite (iterations_done x x1 step S G). lia.
Qed.

Lemma forLoop_defined {A : Type} (body : Z -> A -> option A) (x0 x1 step : Z) :
  1 <= step -> Int.INT_MIN <= x0 -> x1 + step <= Int.INT_MAX + 1 ->
  (forall x a, x0 <= x < x1 -> exists a', body x a = Some a') ->
  forall (fuel : nat) (x : Z) (a : A),
    x0 <= x -> (Z.to_nat (x1 - x) < fuel)%nat ->
    exists a', forLoop fuel x x1 step body a = Some a'.
Proof.
  intros S Lo Hi B. induction fuel as [| fuel IH]; intros x a X F; [lia |].
  simpl. destruct (Z.ltb_spec x x1) as [L | G].
  - destruct (B x a (conj X L)) as (a1 & E1). rewrite E1. simpl.
    assert (E2 : Int.add x step = Some (x + step)).
    { unfold Int.add, Int.checked, Int.in_range.
      destruct (Z.leb_spec Int.INT_MIN (x + step)); [| lia].
      destruct (Z.leb_spec (x + step) Int.INT_MAX); [| lia]. reflexivity. }
    rewrite E2. simpl. apply IH; [lia |]. lia.
  - exists a. reflexivity.
Qed.

(** ** The tile range *)

Lemma tileRangeOf_Some (mapW mapH : Z) (t : TilemapWindow) (x0 y0 x1 y1 : Z) :
  tileRangeOf mapW mapH t = Some (x0, y0, x1, y1) ->
  (is_finite (tileLeft t) = true /\ is_finite (tileTop t) = true /\
   is_finite (tileRight t) = true /\ is_finite (tileBottom t) = true) /\
  x0 = Z.max 0 (Qfloor (F2Q (tileLeft t))) /\
  y0 = Z.max 0 (Qfloor (F2Q (tileTop t))) /\
  x1 = Z.min mapW (Qceiling (F2Q (tileRight t))) /\
  y1 = Z.min mapH (Qceiling (F2Q (tileBottom t))).
Proof.
  unfold tileRangeOf. intros H.
  apply bind_Some in H. destruct H as (fx0 & H1 & H).
  apply bind_Some in H. destruct H as (fy0 & H2 & H).
  apply bind_Some in H. destruct H as (cx1 & H3 & H).
  apply bind_Some in H. destruct H as (cy1 & H4 & H).
  pose proof (of_float_floorf_inv _ _ H1) as F1.
  pose proof (of_float_floorf_inv _ _ H2) as F2.
  pose proof (of_float_ceilf_inv _ _ H3) as F3.
  pose proof (of_float_ceilf_inv _ _ H4) as F4.
  rewrite of_float_floorf in H1, H2 by (try apply valid_fdiv; assumption).
  rewrite of_float_ceilf in H3, H4 by (try apply valid_fdiv; assumption).
  apply checked_Some in H1, H2, H3, H4.
  destruct H1 as [-> _], H2 as [-> _], H3 as [-> _], H4 as [-> _].
  inversion H. auto.
Qed.

Lemma checked_in_range (z : Z) :
  Int.INT_MIN <= z <= Int.INT_MAX -> Int.checked z = Some z.
Proof.
  intros [A B]. unfold Int.checked, Int.in_range.
  destruct (Z.leb_spec Int.INT_MIN z); [| lia].
  destruct (Z.leb_spec z Int.INT_MAX); [| lia]. reflexivity.
Qed.

Lemma tileRangeOf_defined (mapW mapH : Z) (t : TilemapWindow) :
  is_finite (tileLeft t) = true -> is_finite (tileTop t) = true ->
  is_finite (tileRight t) = true -> is_finite (tileBottom t) = true ->
  Int.INT_MIN <= Qfloor (F2Q (tileLeft t)) <= Int.INT_MAX ->
  Int.INT_MIN <= Qfloor (F2Q (tileTop t)) <= Int.INT_MAX ->
  Int.INT_MIN <= Qceiling (F2Q (tileRight t)) <= Int.INT_MAX ->
  Int.INT_MIN <= Qceiling (F2Q (tileBottom t)) <= Int.INT_MAX ->
  tileRangeOf mapW mapH t =
    Some (Z.max 0 (Qfloor (F2Q (tileLeft t))), Z.max 0 (Qfloor (F2Q (tileTop t))),
          Z.min mapW (Qceiling (F2Q (tileRight t))),
          Z.min mapH (Qceiling (F2Q (tileBottom t)))).
Proof.
  intros F1 F2 F3 F4 R1 R2 R3 R4. unfold tileRangeOf.
  rewrite !of_float_floorf by (try apply valid_fdiv; assumption).
  rewrite !of_float_ceilf by (try apply valid_fdiv; assumption).
  rewrite !checked_in_range by assumption. reflexivity.
Qed.

Lemma floor_le_int (x : Q) (i : Z) : (x < inject_Z (i + 1))%Q -> Qfloor x <= i.
Proof.
  intros H. pose proof (Qfloor_le x) as F.
  assert (L : (inject_Z (Qfloor x) < inject_Z (i + 1))%Q) by lra.
  rewrite <- Zlt_Qlt in L. lia.
Qed.

Lemma ceiling_gt_int (x : Q) (i : Z) : (inject_Z i < x)%Q -> i < Qceiling x.
Proof.
  intros H. pose proof (Qle_ceiling x) as F.
  assert (L : (inject_Z i < inject_Z (Qceiling x))%Q) by lra.
  rewrite <- Zlt_Qlt in L. lia.
Qed.

Lemma ceiling_le_floor_succ (x : Q) : Qceiling x <= Qfloor x + 1.
Proof.
  pose proof (Qlt_floor x) as F. pose proof (Qceiling_lt x) as C.
  assert (L : (inject_Z (Qceiling x - 1) < inject_Z (Qfloor x + 1))%Q) by lra.
  rewrite <- Zlt_Qlt in L. lia.
Qed.

Open Scope Q_scope.

Lemma rnd_pow2 (k : Z) : (-149 <= k <= 127)%Z -> rnd (2 ^ k) == 2 ^ k.
Proof.
  intros K. apply rnd_representable. exists 1%Z, k.
  pose proof (pow2_pos k). assert (2 ^ k < 2 ^ 128) by (apply pow2_lt; lia).
  pose proof (pow2_pos 128).
  repeat split; try lia; try lra. change (inject_Z 1) with 1. ring.
Qed.

Lemma rnd_opp (x : Q) : rnd (- x) == - rnd x.
Proof.
  unfold rnd.
  destruct (Qcompare_spec x 0) as [C | C | C];
    destruct (Qcompare_spec (- x) 0) as [D | D | D]; try lra.
  apply Qopp_comp. apply rndp_comp; lra.
Qed.

Lemma rnd_bound (x : Q) (k : Z) :
  (-149 <= k <= 127)%Z -> - 2 ^ k <= x -> x <= 2 ^ k ->
  - 2 ^ k <= rnd x /\ rnd x <= 2 ^ k.
Proof.
  intros K Lo Hi. split.
  - rewrite <- (rnd_pow2 k K). rewrite <- rnd_opp. apply rnd_mono. exact Lo.
  - rewrite <- (rnd_pow2 k K). apply rnd_mono. exact Hi.
Qed.

Lemma round32_bound (s : bool) (x : Q) (k : Z) :
  (-149 <= k <= 127)%Z -> - 2 ^ k <= x -> x <= 2 ^ k ->
  is_finite (round32 s x) = true /\
  - 2 ^ k <= F2Q (round32 s x) /\ F2Q (round32 s x) <= 2 ^ k.
Proof.
  intros K Lo Hi. destruct (rnd_bound x k K Lo Hi) as [A B].
  assert (P : 2 ^ k < 2 ^ 128) by (apply pow2_lt; lia).
  assert (F : is_finite (round32 s x) = true).
  { apply finite_of_F2X; [apply is_nan_round32 | |]; rewrite F2X_round32; lra. }
  split; [exact F |]. rewrite <- F2X_F2Q by exact F. rewrite F2X_round32. split; assumption.
Qed.

Lemma fmul_bound (x y : float) (k : Z) :
  is_finite x = true -> is_finite y = true -> (-149 <= k <= 127)%Z ->
  - 2 ^ k <= F2Q x * F2Q y -> F2Q x * F2Q y <= 2 ^ k ->
  is_finite (fmul x y) = true /\
  - 2 ^ k <= F2Q (fmul x y) /\ F2Q (fmul x y) <= 2 ^ k.
Proof.
  intros Fx Fy K Lo Hi. rewrite (fmul_finite x y Fx Fy). apply round32_bound; assumption.
Qed.

Lemma fdiv_bound (x y : float) (s : bool) (m : positive) (e k : Z) :
  is_finite x = true -> y = S754_finite s m e -> (-149 <= k <= 127)%Z ->
  - 2 ^ k <= F2Q x / F2Q y -> F2Q x / F2Q y <= 2 ^ k ->
  is_finite (fdiv x y) = true /\
  - 2 ^ k <= F2Q (fdiv x y) /\ F2Q (fdiv x y) <= 2 ^ k.
Proof.
  intros Fx Ey K Lo Hi. rewrite (fdiv_finite x y s m e Fx Ey). apply round32_bound; assumption.
Qed.

Lemma is_nan_fadd (x y : float) :
  is_finite x = true -> is_finite y = true -> is_nan (fadd x y) = false.
Proof.
  destruct x, y; intros; try discriminate; unfold fadd; try apply is_nan_round32; reflexivity.
Qed.

Lemma fsub_bound (x y : float) (k : Z) :
  is_finite x = true -> is_finite y = true -> (-149 <= k <= 127)%Z ->
  - 2 ^ k <= F2Q x - F2Q y -> F2Q x - F2Q y <= 2 ^ k ->
  is_finite (fsub x y) = true /\
  - 2 ^ k <= F2Q (fsub x y) /\ F2Q (fsub x y) <= 2 ^ k.
Proof.
  intros Fx Fy K Lo Hi. destruct (rnd_bound _ k K Lo Hi) as [A B].
  assert (P : 2 ^ k < 2 ^ 128) by (apply pow2_lt; lia).
  assert (F : is_finite (fsub x y) = true).
  { apply finite_of_F2X.
    - unfold fsub. apply is_nan_fadd; [exact Fx | rewrite is_finite_fneg; exact Fy].
    - rewrite F2X_fsub by assumption. lra.
    - rewrite F2X_fsub by assumption. lra. }
  split; [exact F |]. rewrite <- F2X_F2Q by exact F. rewrite F2X_fsub by assumption.
  split; assumption.
Qed.

Lemma of_int_exact (n : Z) :
  (Z.abs n < 2 ^ 24)%Z -> is_finite (of_int n) = true /\ F2Q (of_int n) == inject_Z n.
Proof.
  intros H. apply round32_representable. exists n, 0%Z.
  assert (A : - 2 ^ 24 < inject_Z n).
  { rewrite <- pow2_Z, <- inject_Z_opp by lia. rewrite <- Zlt_Qlt. lia. }
  assert (B : inject_Z n < 2 ^ 24).
  { rewrite <- pow2_Z by lia. rewrite <- Zlt_Qlt. lia. }
  assert (2 ^ 24 < 2 ^ 128) by (apply pow2_lt; lia).
  repeat split; try lia; try lra.
Qed.

Lemma of_int_TILE_SIZE : of_int TILE_SIZE = S754_finite false 8388608 (-19).
Proof. vm_compute. reflexivity. Qed.

Lemma F2Q_TILE_SIZE : F2Q (of_int TILE_SIZE) == 16.
Proof. vm_compute. reflexivity. Qed.

Lemma of_int_1 : of_int 1 = S754_finite false 8388608 (-23).
Proof. vm_compute. reflexivity. Qed.

Lemma F2Q_1 : F2Q (of_int 1) == 1.
Proof. vm_compute. reflexivity. Qed.

Lemma positive_finite (z : float) :
  is_finite z = true -> 0 < F2Q z -> exists m e, z = S754_finite false m e.
Proof.
  intros F P. destruct z as [s | s | | s m e]; try discriminate.
  destruct s; [| exists m, e; reflexivity].
  exfalso. unfold F2Q in P.
    assert (inject_Z (Zneg m) * 2 ^ e < 0); [| lra].
    pose proof (pow2_pos e). assert (inject_Z (Zneg m) < 0) by reflexivity. nra.
Qed.

Lemma floor_in_range (x : Q) (k : Z) :
  (0 <= k <= 30)%Z -> - 2 ^ k <= x -> x <= 2 ^ k ->
  (Int.INT_MIN <= Qfloor x <= Int.INT_MAX)%Z /\ (Int.INT_MIN <= Qceiling x <= Int.INT_MAX)%Z.
Proof.
  intros K Lo Hi.
  assert (P : 2 ^ k <= 2 ^ 30) by (apply pow2_le; lia).
  change (2 ^ 30) with (inject_Z (2 ^ 30)) in P.
  pose proof (Qfloor_le x) as F1. pose proof (Qlt_floor x) as F2.
  pose proof (Qle_ceiling x) as C1. pose proof (Qceiling_lt x) as C2.
  assert (A : inject_Z (- 2 ^ 30) < inject_Z (Qfloor x + 1)).
  { rewrite inject_Z_opp. lra. }
  assert (B : inject_Z (Qfloor x) <= inject_Z (2 ^ 30)) by lra.
  assert (C : inject_Z (Qceiling x - 1) < inject_Z (2 ^ 30)) by lra.
  assert (D : inject_Z (- 2 ^ 30) <= inject_Z (Qceiling x)).
  { rewrite inject_Z_opp. lra. }
  rewrite <- Zlt_Qlt in A, C. rewrite <- Zle_Qle in B, D.
  unfold Int.INT_MIN, Int.INT_MAX. lia.
Qed.

Lemma mul_bound (x y a b : Q) :
  - a <= x -> x <= a -> - b <= y -> y <= b ->
  - (a * b) <= x * y /\ x * y <= a * b.
Proof.
  intros X1 X2 Y1 Y2.
  assert (P1 : 0 <= (a - x) * (b - y)) by (apply Qmult_le_0_compat; lra).
  assert (P2 : 0 <= (a + x) * (b + y)) by (apply Qmult_le_0_compat; lra).
  assert (P3 : 0 <= (a - x) * (b + y)) by (apply Qmult_le_0_compat; lra).
  assert (P4 : 0 <= (a + x) * (b - y)) by (apply Qmult_le_0_compat; lra).
  split; lra.
Qed.

Lemma div_bound (x c a : Q) :
  0 < c -> - (a * c) <= x -> x <= a * c -> - a <= x / c /\ x / c <= a.
Proof.
  intros C Lo Hi. split.
  - apply Qle_shift_div_l; [exact C | lra].
  - apply Qle_shift_div_r; [exact C | lra].
Qed.

Lemma axis_defined (o z : float) (W : Z) :
  is_finite o = true -> is_finite z = true ->
  - 2 ^ 20 <= F2Q o -> F2Q o <= 2 ^ 20 -> 2 ^ (-6) <= F2Q z ->
  (0 <= W <= 2 ^ 15)%Z ->
  let iz := fdiv (of_int 1) z in
  let lo := fdiv (fmul (fneg o) iz) (of_int TILE_SIZE) in
  let hi := fdiv (fmul (fsub (of_int W) o) iz) (of_int TILE_SIZE) in
  is_finite lo = true /\ is_finite hi = true /\
  (Int.INT_MIN <= Qfloor (F2Q lo) <= Int.INT_MAX)%Z /\
  (Int.INT_MIN <= Qceiling (F2Q hi) <= Int.INT_MAX)%Z /\
  (- 2 ^ 23 <= F2Q lo /\ F2Q lo <= 2 ^ 23) /\ (- 2 ^ 23 <= F2Q hi /\ F2Q hi <= 2 ^ 23).
Proof.
  intros Fo Fz O1 O2 Z1 HW iz lo hi.
  assert (Eiz : iz = fdiv (of_int 1) z) by reflexivity.
  assert (Elo : lo = fdiv (fmul (fneg o) iz) (of_int TILE_SIZE)) by reflexivity.
  assert (Ehi : hi = fdiv (fmul (fsub (of_int W) o) iz) (of_int TILE_SIZE)) by reflexivity.
  clearbody lo hi. clearbody iz.
  change (2 ^ (-6)) with (1 # 64) in Z1.
  assert (Zp : 0 < F2Q z) by lra.
  destruct (positive_finite z Fz Zp) as (m & e & Ez).
  (* invZoom *)
  destruct (of_int_exact 1 ltac:(lia)) as [F1 E1]. change (inject_Z 1) with 1 in E1.
  assert (I : is_finite iz = true /\ - 2 ^ 6 <= F2Q iz /\ F2Q iz <= 2 ^ 6).
  { rewrite Eiz. apply (fdiv_bound (of_int 1) z false m e 6 F1 Ez); [lia | |]; rewrite E1.
    - apply Qle_trans with 0; [change (2 ^ 6) with (64 # 1); lra |].
      apply Qlt_le_weak. apply Qlt_shift_div_l; lra.
    - apply Qle_shift_div_r; [exact Zp |].
      change (2 ^ 6) with (64 # 1). lra. }
  destruct I as (Fi & I1 & I2).
  change (2 ^ 6) with (64 # 1) in I1, I2. change (2 ^ 20) with (1048576 # 1) in O1, O2.
  (* left *)
  assert (L : is_finite (fmul (fneg o) iz) = true /\
              - 2 ^ 26 <= F2Q (fmul (fneg o) iz) /\ F2Q (fmul (fneg o) iz) <= 2 ^ 26).
  { destruct (mul_bound (- F2Q o) (F2Q iz) (1048576 # 1) (64 # 1)) as [M1 M2]; try lra.
    apply fmul_bound; [rewrite is_finite_fneg; exact Fo | exact Fi | lia | |];
      rewrite F2Q_fneg; change (2 ^ 26) with (67108864 # 1); lra. }
  destruct L as (Fl & L1 & L2).
  assert (L' : is_finite lo = true /\ - 2 ^ 22 <= F2Q lo /\ F2Q lo <= 2 ^ 22).
  { change (2 ^ 26) with (67108864 # 1) in L1, L2.
    destruct (div_bound (F2Q (fmul (fneg o) iz)) (16 # 1) (4194304 # 1)) as [D1 D2]; try lra.
    rewrite Elo. apply (fdiv_bound _ _ false 8388608 (-19) 22 Fl of_int_TILE_SIZE); [lia | |];
      rewrite F2Q_TILE_SIZE; assumption. }
  destruct L' as (Flo & Lo1 & Lo2).
  (* right *)
  destruct (of_int_exact W) as [FW EW].
  { change (2 ^ 15)%Z with 32768%Z in HW. change (2 ^ 24)%Z with 16777216%Z. lia. }
  assert (W1 : 0 <= inject_Z W) by (change 0 with (inject_Z 0); rewrite <- Zle_Qle; lia).
  assert (W2 : inject_Z W <= 32768 # 1).
  { change (32768 # 1) with (inject_Z (2 ^ 15)). rewrite <- Zle_Qle. lia. }
  assert (S : is_finite (fsub (of_int W) o) = true /\
              - 2 ^ 21 <= F2Q (fsub (of_int W) o) /\ F2Q (fsub (of_int W) o) <= 2 ^ 21).
  { apply fsub_bound; [exact FW | exact Fo | lia | |]; rewrite EW;
      change (2 ^ 21) with (2097152 # 1); lra. }
  destruct S as (Fs & S1 & S2).
  change (2 ^ 21) with (2097152 # 1) in S1, S2.
  assert (R : is_finite (fmul (fsub (of_int W) o) iz) = true /\
              - 2 ^ 27 <= F2Q (fmul (fsub (of_int W) o) iz) /\
              F2Q (fmul (fsub (of_int W) o) iz) <= 2 ^ 27).
  { destruct (mul_bound (F2Q (fsub (of_int W) o)) (F2Q iz) (2097152 # 1) (64 # 1))
      as [M1 M2]; try lra.
    apply fmul_bound; [exact Fs | exact Fi | lia | |];
      change (2 ^ 27) with (134217728 # 1); lra. }
  destruct R as (Fr & R1 & R2).
  assert (R' : is_finite hi = true /\ - 2 ^ 23 <= F2Q hi /\ F2Q hi <= 2 ^ 23).
  { change (2 ^ 27) with (134217728 # 1) in R1, R2.
    destruct (div_bound (F2Q (fmul (fsub (of_int W) o) iz)) (16 # 1) (8388608 # 1))
      as [D1 D2]; try lra.
    rewrite Ehi. apply (fdiv_bound _ _ false 8388608 (-19) 23 Fr of_int_TILE_SIZE); [lia | |];
      rewrite F2Q_TILE_SIZE; assumption. }
  destruct R' as (Fhi & Hi1 & Hi2).
  split; [exact Flo |]. split; [exact Fhi |].
  split; [exact (proj1 (floor_in_range (F2Q lo) 22 ltac:(lia) Lo1 Lo2)) |].
  split; [exact (proj2 (floor_in_range (F2Q hi) 23 ltac:(lia) Hi1 Hi2)) |].
  split; [| split; assumption].
  change (2 ^ 22) with (4194304 # 1) in Lo1, Lo2. change (2 ^ 23) with (8388608 # 1).
  split; lra.
Qed.

Open Scope Z_scope.

Lemma tileRange_ok (t : TilemapWindow) (r : Z * Z * Z * Z) :
  tileRange t = Some r -> culler_ok t r.
Proof.
  destruct r as [[[x0 y0] x1] y1]. intros H.
  apply tileRangeOf_Some in H. destruct H as (_ & -> & -> & -> & ->).
  unfold culler_ok, in_map, overlaps. split.
  - intros x y X Y. lia.
  - intros i j [I J] (O1 & O2 & O3 & O4).
    apply floor_le_int in O1, O3. apply ceiling_gt_int in O2, O4. lia.
Qed.

Lemma tileRange_moderate (t : TilemapWindow) :
  moderate t -> exists r, tileRange t = Some r.
Proof.
  intros (Fx & Fy & Fz & [X1 X2] & [Y1 Y2] & Z1 & HW & HH).
  destruct (axis_defined (offsetX t) (zoom t) (w t) Fx Fz X1 X2 Z1 HW)
    as (A1 & A2 & A3 & A4 & _).
  destruct (axis_defined (offsetY t) (zoom t) (h t) Fy Fz Y1 Y2 Z1 HH)
    as (B1 & B2 & B3 & B4 & _).
  eexists. apply tileRangeOf_defined;
    [exact A1 | exact B1 | exact A2 | exact B2 | exact A3 | exact B3 | exact A4 | exact B4].
Qed.

(** ** Counting the draw calls *)

Lemma lodStep_pos (z : float) (s : Z) : lodStep z = Some s -> 1 <= s.
Proof.
  unfold lodStep. intros H. apply bind_Some in H. destruct H as (c & _ & H).
  inversion H. lia.
Qed.

Lemma drawCell_length (mapW mapH : Z) (tileMap : Z -> Z -> Z) (s y x : Z)
    (calls calls' : list DrawCall) :
  drawCell mapW mapH tileMap s y x calls = Some calls' ->
  Z.of_nat (length calls') = Z.of_nat (length calls) + 1.
Proof.
  unfold drawCell. intros H.
  repeat (apply bind_Some in H; destruct H as (? & _ & H)).
  inversion H. simpl length. lia.
Qed.

Lemma drawRow_length (mapW mapH : Z) (tileMap : Z -> Z -> Z) (x0 x1 s y : Z)
    (calls calls' : list DrawCall) :
  1 <= s ->
  drawRow mapW mapH tileMap x0 x1 s y calls = Some calls' ->
  Z.of_nat (length calls') = Z.of_nat (length calls) + iterations x0 x1 s.
Proof.
  intros S H. unfold drawRow in H.
  apply (forLoop_count (fun l => Z.of_nat (length l)) 1) in H; try lia.
  intros x a a'. apply drawCell_length.
Qed.

Lemma iterations_nonneg (x0 x1 s : Z) : 0 <= iterations x0 x1 s.
Proof. unfold iterations. lia. Qed.

Lemma drawTilesOf_count (mapW mapH : Z) (tileMap : Z -> Z -> Z) (t : TilemapWindow)
    (calls : list DrawCall) :
  drawTilesOf mapW mapH tileMap t = Some calls ->
  exists x0 y0 x1 y1 s,
    tileRangeOf mapW mapH t = Some (x0, y0, x1, y1) /\ lodStep (zoom t) = Some s /\
    Z.of_nat (length calls) = iterations y0 y1 s * iterations x0 x1 s.
Proof.
  unfold drawTilesOf. intros H.
  apply bind_Some in H. destruct H as ([[[x0 y0] x1] y1] & R & H).
  apply bind_Some in H. destruct H as (s & S & H).
  apply bind_Some in H. destruct H as (l & L & H).
  inversion H. exists x0, y0, x1, y1, s. split; [exact R |]. split; [exact S |].
  pose proof (lodStep_pos _ _ S) as S1.
  rewrite rev_append_rev, length_app, length_rev. simpl length.
  apply (forLoop_count (fun l => Z.of_nat (length l)) (iterations x0 x1 s)) in L.
  - simpl in L. lia.
  - exact S1.
  - apply iterations_nonneg.
  - intros y a a'. apply drawRow_length. exact S1.
Qed.

(** ** A viewport of no extent *)

Lemma fdiv_finite_inv (x : float) (s : bool) (m : positive) (e : Z) :
  is_finite (fdiv x (S754_finite s m e)) = true -> is_finite x = true.
Proof. destruct x; simpl; intros H; try discriminate; reflexivity. Qed.

Lemma fmul_finite_inv (x y : float) :
  is_finite (fmul x y) = true -> is_finite x = true /\ is_finite y = true.
Proof. destruct x, y; simpl; intros H; try discriminate; split; reflexivity. Qed.

Lemma F2Q_fmul (x y : float) :
  is_finite (fmul x y) = true -> (F2Q (fmul x y) == rnd (F2Q x * F2Q y))%Q.
Proof.
  intros F. destruct (fmul_finite_inv x y F) as [Fx Fy].
  rewrite <- F2X_F2Q by exact F. rewrite (fmul_finite x y Fx Fy). apply F2X_round32.
Qed.

Lemma F2Q_fdiv (x : float) (s : bool) (m : positive) (e : Z) :
  is_finite (fdiv x (S754_finite s m e)) = true ->
  (F2Q (fdiv x (S754_finite s m e)) == rnd (F2Q x / F2Q (S754_finite s m e)))%Q.
Proof.
  intros F. pose proof (fdiv_finite_inv x s m e F) as Fx.
  rewrite <- F2X_F2Q by exact F.
  rewrite (fdiv_finite x _ s m e Fx eq_refl). apply F2X_round32.
Qed.



(** ** The level-of-detail step *)
Open Scope Q_scope.

Lemma MIN_VISIBLE_PIXELS_eq : MIN_VISIBLE_PIXELS = S754_finite false 8388608 (-21).
Proof. vm_compute. reflexivity. Qed.

Lemma F2Q_MIN : F2Q MIN_VISIBLE_PIXELS == 4.
Proof. vm_compute. reflexivity. Qed.

Lemma rnd_0 : rnd 0 == 0.
Proof. reflexivity. Qed.

Lemma rnd_nonneg (x : Q) : 0 <= x -> 0 <= rnd x.
Proof. intros H. rewrite <- rnd_0. apply rnd_mono. exact H. Qed.

Lemma rnd_le_max (x : Q) : rnd x <= 2 ^ 128.
Proof.
  unfold rnd. pose proof (pow2_pos 128).
  destruct (Qcompare_spec x 0) as [C | C | C].
  - lra.
  - pose proof (rndp_nonneg (- x)). lra.
  - unfold rndp. apply Q.le_min_r.
Qed.

Lemma valid_pos_ge (s : bool) (m : positive) (e : Z) :
  valid (S754_finite s m e) = true -> 2 ^ (-149) <= inject_Z (Zpos m) * 2 ^ e.
Proof.
  intros V. destruct (valid_finite_inv s m e V) as (He & _ & _).
  assert (P : 2 ^ (-149) <= 2 ^ e) by (apply pow2_le; lia).
  assert (M : 1 <= inject_Z (Zpos m)).
  { change 1 with (inject_Z 1). rewrite <- Zle_Qle. lia. }
  pose proof (pow2_pos e) as Pe. pose proof (pow2_pos (-149)) as P149.
  apply Qle_trans with (1 * 2 ^ e); [lra |].
  apply Qmult_le_compat_r; lra.
Qed.

(** A positive number, possibly infinite. *)
Lemma pos_cases (z : float) :
  valid z = true -> flt (of_int 0) z ->
  z = S754_infinity false \/
  (exists m e, z = S754_finite false m e /\ 2 ^ (-149) <= F2Q z).
Proof.
  intros V (_ & N & P). change (F2X (of_int 0)) with 0 in P.
  destruct z as [s | s | | s m e]; try discriminate.
  - destruct s; [| left; reflexivity].
    exfalso. change (F2X (S754_infinity true)) with (- 2 ^ 128) in P.
    pose proof (pow2_pos 128). lra.
  - right. destruct s.
    + exfalso. change (0 < inject_Z (Z.neg m) * 2 ^ e) in P.
      pose proof (pow2_pos e). assert (inject_Z (Zneg m) < 0) by reflexivity.
      assert (inject_Z (Z.neg m) * 2 ^ e < 0); [| lra]. nra.
    + exists m, e. split; [reflexivity |]. apply (valid_pos_ge false m e V).
Qed.

Lemma rnd_pos_ge (x : Q) (k : Z) :
  (-149 <= k <= 127)%Z -> 2 ^ k <= x -> 2 ^ k <= rnd x.
Proof. intros K H. rewrite <- (rnd_pow2 k K). apply rnd_mono. exact H. Qed.

Lemma pixelsPerTile_finite (z : float) :
  is_finite z = true -> F2X (pixelsPerTile z) == rnd (16 * F2Q z).
Proof.
  intros F. unfold pixelsPerTile. rewrite fmul_finite by (try reflexivity; exact F).
  rewrite F2X_round32. apply rnd_comp. rewrite F2Q_TILE_SIZE. reflexivity.
Qed.

Lemma is_nan_fmul_finite (x y : float) :
  is_finite x = true -> is_finite y = true -> is_nan (fmul x y) = false.
Proof. intros Fx Fy. rewrite fmul_finite by assumption. apply is_nan_round32. Qed.

Lemma pixelsPerTile_pos (z : float) :
  valid z = true -> flt (of_int 0) z -> flt (of_int 0) (pixelsPerTile z).
Proof.
  intros V P. unfold flt. split; [reflexivity |]. change (F2X (of_int 0)) with 0.
  destruct (pos_cases z V P) as [-> | (m & e & -> & G)].
  - split; [reflexivity |]. apply (pow2_pos 128).
  - split; [apply is_nan_fmul_finite; reflexivity |].
    rewrite pixelsPerTile_finite by reflexivity.
    assert (2 ^ (-145) <= rnd (16 * F2Q (S754_finite false m e))).
    { apply rnd_pos_ge; [lia |].
      assert (E : 2 ^ (-145) == 16 * 2 ^ (-149)).
      { change 16 with (2 ^ 4). rewrite <- pow2_add. reflexivity. }
      rewrite E. lra. }
    pose proof (pow2_pos (-145)). lra.
Qed.

Lemma pixelsPerTile_mono (zA zB : float) :
  valid zA = true -> valid zB = true -> flt (of_int 0) zA -> fle zA zB ->
  F2X (pixelsPerTile zA) <= F2X (pixelsPerTile zB).
Proof.
  intros VA VB PA (_ & NB & L).
  assert (PB : flt (of_int 0) zB).
  { destruct PA as (N0 & _ & PA). repeat split; try assumption. lra. }
  destruct (pos_cases zB VB PB) as [-> | (mB & eB & -> & GB)].
  - change (F2X (pixelsPerTile (S754_infinity false))) with (2 ^ 128).
    destruct (pos_cases zA VA PA) as [-> | (mA & eA & -> & GA)].
    + apply Qle_refl.
    + rewrite pixelsPerTile_finite by reflexivity. apply rnd_le_max.
  - destruct (pos_cases zA VA PA) as [-> | (mA & eA & -> & GA)].
    + exfalso. destruct (F2Q_bound false mB eB VB) as [_ B].
      change (F2X (S754_infinity false)) with (2 ^ 128) in L.
      change (F2X (S754_finite false mB eB)) with (F2Q (S754_finite false mB eB)) in L. lra.
    + rewrite !pixelsPerTile_finite by reflexivity. apply rnd_mono.
      change (F2X (S754_finite false mA eA)) with (F2Q (S754_finite false mA eA)) in L.
      change (F2X (S754_finite false mB eB)) with (F2Q (S754_finite false mB eB)) in L.
      lra.
Qed.

(** The quotient [MIN_VISIBLE_PIXELS / pixelsPerTile]. *)
Lemma quotient_cases (p : float) :
  valid p = true -> flt (of_int 0) p ->
  is_nan (fdiv MIN_VISIBLE_PIXELS p) = false /\
  0 <= F2X (fdiv MIN_VISIBLE_PIXELS p) /\
  (is_finite p = true -> F2X (fdiv MIN_VISIBLE_PIXELS p) == rnd (4 / F2Q p)) /\
  (is_finite p = false -> F2X (fdiv MIN_VISIBLE_PIXELS p) == 0).
Proof.
  intros V P. rewrite MIN_VISIBLE_PIXELS_eq.
  destruct (pos_cases p V P) as [-> | (m & e & -> & G)].
  - repeat split; try reflexivity; try discriminate.
  - assert (E : F2X (fdiv (S754_finite false 8388608 (-21)) (S754_finite false m e))
                == rnd (4 / F2Q (S754_finite false m e))).
    { rewrite (fdiv_finite (S754_finite false 8388608 (-21)) (S754_finite false m e)
               false m e eq_refl eq_refl). rewrite F2X_round32.
      apply rnd_comp. apply Qmult_comp; [| reflexivity]. vm_compute. reflexivity. }
    split; [rewrite (fdiv_finite (S754_finite false 8388608 (-21)) (S754_finite false m e)
               false m e eq_refl eq_refl); apply is_nan_round32 |].
    split; [| split; [intros _; exact E | discriminate]].
    rewrite E. apply rnd_nonneg. pose proof (pow2_pos (-149)).
    apply Qlt_le_weak. apply Qlt_shift_div_l; lra.
Qed.

Lemma quotient_anti (pA pB : float) :
  valid pA = true -> valid pB = true ->
  flt (of_int 0) pA -> flt (of_int 0) pB -> F2X pA <= F2X pB ->
  F2X (fdiv MIN_VISIBLE_PIXELS pB) <= F2X (fdiv MIN_VISIBLE_PIXELS pA).
Proof.
  intros VA VB PA PB L.
  destruct (quotient_cases pA VA PA) as (_ & A0 & A1 & A2).
  destruct (quotient_cases pB VB PB) as (_ & B0 & B1 & B2).
  destruct (is_finite pB) eqn:FB.
  - assert (FA : is_finite pA = true).
    { destruct PA as (_ & NA & PA).
      destruct pB as [s | s | | s m e]; try discriminate.
      - exfalso. destruct PB as (_ & _ & PB). apply (Qlt_irrefl 0). exact PB.
      - destruct (F2Q_bound s m e VB) as [_ B].
        change (F2X (S754_finite s m e)) with (F2Q (S754_finite s m e)) in L.
        change (F2X (of_int 0)) with 0 in PA. pose proof (pow2_pos 128).
        apply finite_of_F2X; [exact NA | lra | lra]. }
    rewrite (A1 FA), (B1 eq_refl). apply rnd_mono.
    rewrite <- !F2X_F2Q by assumption.
    destruct PA as (_ & _ & PA). change (F2X (of_int 0)) with 0 in PA.
    apply Qle_shift_div_l; [lra |].
    assert (E : 4 / F2X pB * F2X pA == 4 * (F2X pA / F2X pB)) by (field; lra).
    rewrite E.
    assert (F2X pA / F2X pB <= 1) by (apply Qle_shift_div_r; lra). lra.
  - rewrite (B2 eq_refl). exact A0.
Qed.

Lemma lodStep_Some (z : float) (s : Z) :
  lodStep z = Some s ->
  let q := fdiv MIN_VISIBLE_PIXELS (pixelsPerTile z) in
  is_finite q = true /\ s = Z.max 1 (Qceiling (F2Q q)) /\
  (Int.INT_MIN <= Qceiling (F2Q q) <= Int.INT_MAX)%Z.
Proof.
  intros H q. unfold lodStep in H. apply bind_Some in H. destruct H as (c & C & H).
  fold q in C. pose proof (of_float_ceilf_inv _ _ C) as F.
  rewrite of_float_ceilf in C by (try apply valid_fdiv; exact F).
  apply checked_Some in C. destruct C as [-> R]. inversion H. auto.
Qed.

Lemma lodStep_defined (z : float) :
  let q := fdiv MIN_VISIBLE_PIXELS (pixelsPerTile z) in
  is_finite q = true -> (Int.INT_MIN <= Qceiling (F2Q q) <= Int.INT_MAX)%Z ->
  lodStep z = Some (Z.max 1 (Qceiling (F2Q q))).
Proof.
  intros q F R. unfold lodStep. fold q.
  rewrite of_float_ceilf by (try apply valid_fdiv; exact F).
  rewrite checked_in_range by exact R. reflexivity.
Qed.

(** Claim C7, amended. For two positive zoom values [zA <= zB], when the
    step at [zA] is defined (the quotient fits an [int]), the step at [zB]
    is defined and is at most the step at [zA]. *)
Theorem lodStep_monotone (zA zB : float) (a : Z) :
  valid zA = true -> valid zB = true -> flt (of_int 0) zA -> fle zA zB ->
  lodStep zA = Some a ->
  exists b, lodStep zB = Some b /\ (b <= a)%Z.
Proof.
  intros VA VB PA L SA.
  assert (PB : flt (of_int 0) zB).
  { destruct PA as (N0 & _ & PA). destruct L as (_ & NB & L). repeat split; try assumption. lra. }
  pose proof (pixelsPerTile_pos zA VA PA) as PpA.
  pose proof (pixelsPerTile_pos zB VB PB) as PpB.
  pose proof (pixelsPerTile_mono zA zB VA VB PA L) as M.
  assert (VpA : valid (pixelsPerTile zA) = true) by apply valid_fmul.
  assert (VpB : valid (pixelsPerTile zB) = true) by apply valid_fmul.
  pose proof (quotient_anti _ _ VpA VpB PpA PpB M) as Q.
  destruct (quotient_cases _ VpB PpB) as (NqB & B0 & _).
  apply lodStep_Some in SA. destruct SA as (FA & -> & RA).
  rewrite (F2X_F2Q _ FA) in Q.
  assert (FB : is_finite (fdiv MIN_VISIBLE_PIXELS (pixelsPerTile zB)) = true).
  { destruct (F2Q_representable _ (valid_fdiv _ _) FA) as (_ & _ & _ & _ & _ & _ & Hi).
    pose proof (pow2_pos 128).
    apply finite_of_F2X; [exact NqB | lra | lra]. }
  rewrite (F2X_F2Q _ FB) in Q, B0.
  pose proof (Qceiling_resp_le _ _ Q) as C.
  pose proof (Qceiling_resp_le _ _ B0) as C0. change (Qceiling 0) with 0%Z in C0.
  exists (Z.max 1 (Qceiling (F2Q (fdiv MIN_VISIBLE_PIXELS (pixelsPerTile zB))))).
  split; [| lia].
  apply lodStep_defined; [exact FB |]. unfold Int.INT_MIN in *. lia.
Qed.

Lemma lodStep_monotone_witness :
  fle zoom005 (of_int 1) /\ lodStep zoom005 = Some 5%Z /\
  exists b, lodStep (of_int 1) = Some b /\ (b <= 5)%Z.
Proof.
  refine ((fun L S => conj L (conj S
             (lodStep_monotone zoom005 (of_int 1) 5 _ _ _ L S))) _ _).
  - reflexivity.
  - reflexivity.
  - repeat split.
  - repeat split. vm_compute. discriminate.
  - vm_compute. reflexivity.
Defined.

(** C7 as stated fails between the zooms [2^-34] and [2^-30]: the step at
    the larger one is [2^28]; at the smaller one the quotient is [2^32] and
    its conversion to [int] has no defined result. *)
Lemma lodStep_tiny_undefined :
  valid zoomTiny = true /\ valid zoomSmall = true /\
  flt (of_int 0) zoomTiny /\ fle zoomTiny zoomSmall /\
  lodStep zoomSmall = Some (2 ^ 28)%Z /\ lodStep zoomTiny = None /\
  ~ (exists a b, lodStep zoomTiny = Some a /\ lodStep zoomSmall = Some b /\ (b <= a)%Z).
Proof.
  split; [reflexivity |]. split; [reflexivity |].
  split; [repeat split |]. split; [repeat split; vm_compute; discriminate |].
  split; [vm_compute; reflexivity |].
  assert (E : lodStep zoomTiny = None) by (vm_compute; reflexivity).
  split; [exact E |]. intros (a & b & A & _). rewrite E in A. discriminate.
Qed.

Lemma rnd_Z (n : Z) : (Z.abs n < 2 ^ 24)%Z -> rnd (inject_Z n) == inject_Z n.
Proof.
  intros H. rewrite <- F2X_round32 with (s := false).
  destruct (of_int_exact n H) as [F E]. unfold of_int in *.
  rewrite F2X_F2Q by exact F. exact E.
Qed.

Lemma lodStep_coarse (z : float) :
  fle MIN_VISIBLE_PIXELS (pixelsPerTile z) -> lodStep z = Some 1%Z.
Proof.
  intros (_ & N & L). rewrite MIN_VISIBLE_PIXELS_eq in L.
  change (F2X (S754_finite false 8388608 (-21))) with (F2Q MIN_VISIBLE_PIXELS) in L.
  rewrite F2Q_MIN in L.
  assert (V : valid (pixelsPerTile z) = true) by apply valid_fmul.
  assert (P : flt (of_int 0) (pixelsPerTile z)).
  { repeat split; try assumption. change (F2X (of_int 0)) with 0. lra. }
  destruct (quotient_cases _ V P) as (Nq & Q0 & Q1 & Q2).
  assert (Q3 : F2X (fdiv MIN_VISIBLE_PIXELS (pixelsPerTile z)) <= 1).
  { destruct (is_finite (pixelsPerTile z)) eqn:F.
    - rewrite (Q1 eq_refl). rewrite <- (rnd_Z 1) by lia. apply rnd_mono.
      rewrite <- F2X_F2Q by exact F. change (inject_Z 1) with 1.
      apply Qle_shift_div_r; lra.
    - rewrite (Q2 eq_refl). lra. }
  assert (Fq : is_finite (fdiv MIN_VISIBLE_PIXELS (pixelsPerTile z)) = true).
  { pose proof (pow2_pos 128). assert (1 < 2 ^ 128) by (apply (pow2_lt 0 128); lia).
    apply finite_of_F2X; [exact Nq | lra | lra]. }
  rewrite (F2X_F2Q _ Fq) in Q0, Q3.
  pose proof (Qceiling_resp_le _ _ Q0) as C0. change (Qceiling 0) with 0%Z in C0.
  pose proof (Qceiling_resp_le _ _ Q3) as C1. change (Qceiling 1) with 1%Z in C1.
  rewrite lodStep_defined; [f_equal; lia | exact Fq |].
  unfold Int.INT_MIN, Int.INT_MAX. lia.
Qed.

Lemma pixelsPerTile_exact (z : float) :
  valid z = true -> is_finite z = true -> 16 * F2Q z < 2 ^ 128 -> - 2 ^ 128 < 16 * F2Q z ->
  is_finite (pixelsPerTile z) = true /\ F2Q (pixelsPerTile z) == 16 * F2Q z.
Proof.
  intros V F Hi Lo.
  assert (R : representable (16 * F2Q z)).
  { destruct z as [s | s | | s m e]; try discriminate.
    - exists 0%Z, 0%Z. change (F2Q (S754_zero s)) with 0. pose proof (pow2_pos 128).
      repeat split; try lia; try lra.
    - destruct (valid_finite_inv s m e V) as (He & Hm & _).
      exists (if s then Zneg m else Zpos m), (e + 4)%Z.
      repeat split; try assumption; try lia.
      + destruct s; simpl; lia.
      + unfold F2Q. rewrite pow2_add. change (2 ^ 4) with 16. ring. }
  assert (F' : is_finite (pixelsPerTile z) = true).
  { apply finite_of_F2X.
    - apply is_nan_fmul_finite; [reflexivity | exact F].
    - rewrite pixelsPerTile_finite, (rnd_representable _ R) by exact F. exact Lo.
    - rewrite pixelsPerTile_finite, (rnd_representable _ R) by exact F. exact Hi. }
  split; [exact F' |]. rewrite <- F2X_F2Q by exact F'.
  rewrite pixelsPerTile_finite by exact F. apply rnd_representable. exact R.
Qed.

Lemma Qceiling_le_Z (x : Q) (n : Z) : x <= inject_Z n -> (Qceiling x <= n)%Z.
Proof. intros H. rewrite <- (Qceiling_Z n). apply Qceiling_resp_le. exact H. Qed.

Lemma Qfloor_ge_Z (x : Q) (n : Z) : inject_Z n <= x -> (n <= Qfloor x)%Z.
Proof. intros H. rewrite <- (Qfloor_Z n). apply Qfloor_resp_le. exact H. Qed.

Lemma ceiling_rnd (x : Q) :
  0 <= x -> x <= 2 ^ 23 ->
  (Qceiling x - 1 <= Qceiling (rnd x) <= Qceiling x)%Z.
Proof.
  intros X0 X1.
  pose proof (Qle_ceiling x) as C1. pose proof (Qfloor_le x) as F1.
  pose proof (ceiling_le_floor_succ x) as CF.
  assert (B : (0 <= Qfloor x /\ Qceiling x <= 2 ^ 23)%Z).
  { split.
    - apply Qfloor_ge_Z. exact X0.
    - apply Qceiling_le_Z. rewrite pow2_Z by lia. exact X1. }
  assert (Fl : (Qfloor x <= Qceiling x)%Z).
  { rewrite Zle_Qle. lra. }
  split.
  - assert (L : inject_Z (Qfloor x) <= rnd x).
    { rewrite <- (rnd_Z (Qfloor x)) by lia. apply rnd_mono. exact F1. }
    apply Qfloor_ge_Z in L.
    pose proof (Qle_ceiling (rnd x)) as C2. pose proof (Qfloor_le (rnd x)) as F2.
    assert ((Qfloor (rnd x) <= Qceiling (rnd x))%Z) by (rewrite Zle_Qle; lra).
    lia.
  - apply Qceiling_le_Z. rewrite <- (rnd_Z (Qceiling x)) by lia. apply rnd_mono. exact C1.
Qed.

Lemma lodStep_fine (z : float) :
  valid z = true -> is_finite z = true -> 2 ^ (-25) <= F2Q z -> 16 * F2Q z < 4 ->
  exists s, lodStep z = Some s /\
            s = Z.max 1 (Qceiling (F2Q (fdiv MIN_VISIBLE_PIXELS (pixelsPerTile z)))) /\
            (lodStepSpec (F2Q z) - 1 <= s <= lodStepSpec (F2Q z))%Z.
Proof.
  intros V F Lo Hi.
  change (2 ^ (-25)) with (1 # 33554432) in Lo.
  assert (Zp : 0 < F2Q z) by lra.
  assert (H128 : 4 < 2 ^ 128) by (apply (pow2_lt 2 128); lia).
  destruct (pixelsPerTile_exact z V F) as [Fp Ep]; [lra | lra |].
  assert (Pp : flt (of_int 0) (pixelsPerTile z)).
  { repeat split.
    - destruct (pixelsPerTile z); try discriminate; reflexivity.
    - change (F2X (of_int 0)) with 0. rewrite (F2X_F2Q _ Fp), Ep. lra. }
  assert (Vp : valid (pixelsPerTile z) = true) by apply valid_fmul.
  destruct (quotient_cases (pixelsPerTile z) Vp Pp) as (Nq & Q0 & Q1 & _).
  specialize (Q1 Fp).
  remember (4 / F2Q (pixelsPerTile z)) as x eqn:Dx.
  assert (X0 : 0 <= x).
  { rewrite Dx. apply Qlt_le_weak. apply Qlt_shift_div_l; lra. }
  assert (X1 : x <= 2 ^ 23).
  { rewrite Dx. apply Qle_shift_div_r; [lra |]. rewrite Ep.
    change (2 ^ 23) with (8388608 # 1). lra. }
  assert (Ex : F2Q MIN_VISIBLE_PIXELS / (inject_Z TILE_SIZE * F2Q z) == x).
  { rewrite Dx. rewrite F2Q_MIN, Ep. change (inject_Z TILE_SIZE) with 16. reflexivity. }
  clear Dx.
  assert (R1 : rnd x <= 2 ^ 23).
  { rewrite <- (rnd_pow2 23) by lia. apply rnd_mono. exact X1. }
  assert (Fq : is_finite (fdiv MIN_VISIBLE_PIXELS (pixelsPerTile z)) = true).
  { clear Ex. pose proof (pow2_pos 128). assert (2 ^ 23 < 2 ^ 128) by (apply pow2_lt; lia).
    apply finite_of_F2X; [exact Nq | lra | lra]. }
  rewrite (F2X_F2Q _ Fq) in Q0, Q1.
  pose proof (ceiling_rnd x X0 X1) as CR.
  rewrite <- (Qceiling_comp _ _ Q1) in CR.
  assert (C0 : (0 <= Qceiling (F2Q (fdiv MIN_VISIBLE_PIXELS (pixelsPerTile z))))%Z).
  { apply Qceiling_resp_le in Q0. exact Q0. }
  assert (C1 : (Qceiling x <= 2 ^ 23)%Z).
  { apply Qceiling_le_Z. rewrite pow2_Z by lia. exact X1. }
  eexists. split; [apply lodStep_defined; [exact Fq |] | split; [reflexivity |]].
  - unfold Int.INT_MIN, Int.INT_MAX. lia.
  - unfold lodStepSpec. rewrite (Qceiling_comp _ _ Ex). lia.
Qed.

(** From [2^-25] up the step is defined and is the exact formula or one
    less. *)
Lemma lodStep_exact (z : float) :
  valid z = true -> is_finite z = true -> 2 ^ (-25) <= F2Q z ->
  exists s, lodStep z = Some s /\
            s = Z.max 1 (Qceiling (F2Q (fdiv MIN_VISIBLE_PIXELS (pixelsPerTile z)))) /\
            (lodStepSpec (F2Q z) - 1 <= s <= lodStepSpec (F2Q z))%Z.
Proof.
  intros V F Lo.
  destruct (Qlt_le_dec (16 * F2Q z) 4) as [Fine | Coarse].
  - apply lodStep_fine; assumption.
  - assert (Zp : 0 < F2Q z) by lra.
    assert (L : fle MIN_VISIBLE_PIXELS (pixelsPerTile z)).
    { repeat split.
      - apply is_nan_fmul_finite; [reflexivity | exact F].
      - rewrite pixelsPerTile_finite by exact F.
        change (F2X MIN_VISIBLE_PIXELS) with (F2Q MIN_VISIBLE_PIXELS). rewrite F2Q_MIN.
        change 4 with (2 ^ 2). apply rnd_pos_ge; [lia |]. change (2 ^ 2) with 4. exact Coarse. }
    pose proof (lodStep_coarse z L) as E.
    exists 1%Z. split; [exact E |].
    split; [apply (lodStep_Some z 1 E) |].
    assert (S : lodStepSpec (F2Q z) = 1%Z).
    { unfold lodStepSpec.
      assert (A : 0 < F2Q MIN_VISIBLE_PIXELS / (inject_Z TILE_SIZE * F2Q z)).
      { rewrite F2Q_MIN. change (inject_Z TILE_SIZE) with 16. apply Qlt_shift_div_l; lra. }
      assert (B : F2Q MIN_VISIBLE_PIXELS / (inject_Z TILE_SIZE * F2Q z) <= 1).
      { rewrite F2Q_MIN. change (inject_Z TILE_SIZE) with 16. apply Qle_shift_div_r; lra. }
      apply Qceiling_resp_le in B. change (Qceiling 1) with 1%Z in B. lia. }
    rewrite S. lia.
Qed.

(** Claim C6, amended. For a zoom of at least [2^-25] the step is
    [max(1, ceil(q))], with [q] the [float] quotient of [MIN_VISIBLE_PIXELS]
    by [pixelsPerTile]; it is the exact
    [max(1, ceil(MIN_VISIBLE_PIXELS / (TILE_SIZE * zoom)))] or one less. At
    the [float] nearest 0.05, [pixelsPerTile] is the [float] nearest 0.8 and
    the step is 5. When [pixelsPerTile >= MIN_VISIBLE_PIXELS] the step is
    1. *)
Theorem lodStep_formula :
  (forall z, valid z = true -> is_finite z = true -> 2 ^ (-25) <= F2Q z ->
     exists s, lodStep z = Some s /\
               s = Z.max 1 (Qceiling (F2Q (fdiv MIN_VISIBLE_PIXELS (pixelsPerTile z)))) /\
               (lodStepSpec (F2Q z) - 1 <= s <= lodStepSpec (F2Q z))%Z) /\
  (pixelsPerTile zoom005 = round32 false (8 # 10) /\ lodStep zoom005 = Some 5%Z /\
   lodStepSpec (5 # 100) = 5%Z) /\
  (forall z, fle MIN_VISIBLE_PIXELS (pixelsPerTile z) -> lodStep z = Some 1%Z).
Proof.
  split; [exact lodStep_exact |]. split; [| exact lodStep_coarse].
  split; [vm_compute; reflexivity |]. split; vm_compute; reflexivity.
Qed.

Lemma lodStep_formula_witness :
  valid zoom005 = true /\ is_finite zoom005 = true /\ 2 ^ (-25) <= F2Q zoom005 /\
  exists s, lodStep zoom005 = Some s /\
            s = Z.max 1 (Qceiling (F2Q (fdiv MIN_VISIBLE_PIXELS (pixelsPerTile zoom005)))) /\
            (lodStepSpec (F2Q zoom005) - 1 <= s <= lodStepSpec (F2Q zoom005))%Z.
Proof.
  assert (V : valid zoom005 = true) by (vm_compute; reflexivity).
  assert (F : is_finite zoom005 = true) by (vm_compute; reflexivity).
  assert (L : 2 ^ (-25) <= F2Q zoom005) by (vm_compute; discriminate).
  split; [exact V |]. split; [exact F |]. split; [exact L |].
  exact (proj1 lodStep_formula zoom005 V F L).
Defined.

(** C6 as stated fails at the zoom [10737418 * 2^-30], about 0.01: the
    exact quotient is just above 25 and the formula gives 26, the [float]
    quotient is 25 and so is the step. *)
Lemma lodStep_rounded :
  valid zoomRounded = true /\ flt (of_int 0) zoomRounded /\
  lodStep zoomRounded = Some 25%Z /\ lodStepSpec (F2Q zoomRounded) = 26%Z.
Proof. vm_compute. repeat split; reflexivity. Qed.

(** ** The zoom factor *)

Lemma zoomFactor_cases (dy : Z) :
  zoomFactor dy = S754_finite false 15099494 (-24) \/
  zoomFactor dy = S754_finite false 9227469 (-23).
Proof. unfold zoomFactor. destruct (0 <? dy)%Z; [left | right]; vm_compute; reflexivity. Qed.

Lemma rnd_tiny_09 : rnd (2 ^ (-149) * F2Q (S754_finite false 15099494 (-24))) == 2 ^ (-149).
Proof.
  rewrite <- (F2X_round32 false). vm_compute. reflexivity.
Qed.

Lemma fmul_factor_pos (z f : float) :
  valid z = true -> flt (of_int 0) z ->
  f = S754_finite false 15099494 (-24) \/ f = S754_finite false 9227469 (-23) ->
  valid (fmul z f) = true /\ flt (of_int 0) (fmul z f).
Proof.
  intros V P Ef. split; [apply valid_fmul |].
  assert (Ff : is_finite f = true) by (destruct Ef as [-> | ->]; reflexivity).
  assert (Sf : fsign f = false) by (destruct Ef as [-> | ->]; reflexivity).
  destruct (pos_cases z V P) as [-> | (m & e & -> & G)].
  - assert (E : fmul (S754_infinity false) f = S754_infinity false).
    { destruct Ef as [-> | ->]; reflexivity. }
    rewrite E. repeat split.
  - repeat split.
    + apply is_nan_fmul_finite; [reflexivity | exact Ff].
    + change (F2X (of_int 0)) with 0.
      rewrite fmul_finite by (try reflexivity; exact Ff). rewrite F2X_round32.
      apply Qlt_le_trans with (2 ^ (-149)); [apply pow2_pos |].
      rewrite <- rnd_tiny_09. apply rnd_mono.
      pose proof (pow2_pos (-149)) as P149.
      assert (F09 : F2Q (S754_finite false 15099494 (-24)) == 15099494 # 16777216).
      { vm_compute. reflexivity. }
      assert (F11 : F2Q (S754_finite false 9227469 (-23)) == 9227469 # 8388608).
      { vm_compute. reflexivity. }
      rewrite F09.
      destruct Ef as [-> | ->]; [rewrite F09 | rewrite F11];
        generalize dependent (F2Q (S754_finite false m e)); intros x G;
        generalize dependent (2 ^ (-149)); intros y G P149; nra.
Qed.

Lemma wheel_zoom (v v' : TilemapScrollView) (mx my dy : Z) :
  handle v (FL_MOUSEWHEEL mx my dy) = Some v' ->
  zoom (canvas v') = fmul (zoom (canvas v)) (zoomFactor dy).
Proof.
  simpl. intros H. apply notifyParent_canvas in H. rewrite H. reflexivity.
Qed.

Lemma handle_zoom (v v' : TilemapScrollView) (e : Event) :
  handle v e = Some v' -> zoom_ok (canvas v) -> zoom_ok (canvas v').
Proof.
  intros H I. destruct e as [b x y | x y | | x y dy | x y |].
  - simpl in H. destruct (b =? FL_LEFT_MOUSE)%Z; inversion H; subst v'; exact I.
  - simpl in H. destruct (dragging (canvas v)).
    + apply bind_Some in H. destruct H as (dx & _ & H).
      apply bind_Some in H. destruct H as (dy & _ & H).
      apply notifyParent_canvas in H. unfold zoom_ok. rewrite H. exact I.
    + inversion H; subst v'; exact I.
  - simpl in H. inversion H; subst v'; exact I.
  - unfold zoom_ok. rewrite (wheel_zoom v v' x y dy H).
    destruct I as [V P]. apply fmul_factor_pos; [exact V | exact P | apply zoomFactor_cases].
  - simpl in H. apply bind_Some in H. destruct H as (t' & U & H). inversion H; subst v'.
    unfold updateHoveredTile in U.
    apply bind_Some in U. destruct U as (tx & _ & U).
    apply bind_Some in U. destruct U as (ty & _ & U).
    destruct ((0 <=? tx) && (0 <=? ty) && (tx <? MAP_WIDTH) && (ty <? MAP_HEIGHT))%Z;
      inversion U; exact I.
  - simpl in H. inversion H; subst v'; exact I.
Qed.

Lemma step_zoom (v v' : TilemapScrollView) (i : Input) :
  step v i = Some v' -> zoom_ok (canvas v) -> zoom_ok (canvas v').
Proof.
  intros H I. destruct i as [e | pos | pos | X Y W H']; simpl in H.
  - apply (handle_zoom _ _ _ H I).
  - destruct (Int.in_range pos); [| discriminate].
    unfold hscrollCallback in H. apply bind_Some in H. destruct H as (n & _ & H).
    inversion H; subst v'. exact I.
  - destruct (Int.in_range pos); [| discriminate].
    unfold vscrollCallback in H. apply bind_Some in H. destruct H as (n & _ & H).
    inversion H; subst v'. exact I.
  - unfold resize in H. apply bind_Some in H. destruct H as (cw & _ & H).
    apply bind_Some in H. destruct H as (ch & _ & H).
    apply updateScrollbars_canvas in H. unfold zoom_ok. rewrite H. exact I.
Qed.

Lemma newView_zoom (W H : Z) (v : TilemapScrollView) :
  newView W H = Some v -> zoom_ok (canvas v).
Proof.
  unfold newView. intros E.
  apply bind_Some in E. destruct E as (cw & _ & E).
  apply bind_Some in E. destruct E as (ch & _ & E).
  apply updateScrollbars_canvas in E. unfold zoom_ok. rewrite E.
  split; [reflexivity |]. repeat split.
Qed.

(** Claim C4, amended. In every state that the view reaches from its
    construction, the zoom is a positive [float], never zero, negative or
    NaN; a wheel event multiplies it by the zoom factor and nothing clamps
    the product. *)
Theorem zoom_positive (W H : Z) (inputs : list Input) (v0 v : TilemapScrollView) :
  newView W H = Some v0 -> run v0 inputs = Some v ->
  zoom_ok (canvas v) /\
  (forall mx my dy v', handle v (FL_MOUSEWHEEL mx my dy) = Some v' ->
     zoom (canvas v') = fmul (zoom (canvas v)) (zoomFactor dy)).
Proof.
  intros N R. split.
  - apply (run_invariant (fun v => zoom_ok (canvas v)) step_zoom inputs v0 v R).
    apply (newView_zoom W H v0 N).
  - intros mx my dy v'. apply wheel_zoom.
Qed.

Lemma zoom_positive_witness :
  exists v0 v, newView 800 600 = Some v0 /\ run v0 [wheelDown] = Some v /\
               zoom_ok (canvas v) /\ zoom (canvas v) = round32 false (9 # 10).
Proof.
  eexists. eexists.
  split; [vm_compute; reflexivity |]. split; [vm_compute; reflexivity |].
  split; [| reflexivity].
  refine (proj1 (zoom_positive 800 600 [wheelDown] _ _ _ _)).
  - vm_compute. reflexivity.
  - vm_compute. reflexivity.
Defined.

(** C4 as stated fails: no bound keeps the transform well defined. 843
    wheel steps out leave a positive zoom whose inverse is infinite, and no
    tile range; 100 wheel steps in take the content width beyond [INT_MAX]
    and [updateScrollbars] has no defined result. *)
Lemma zoom_unguarded :
  (exists v, zoomedOut = Some v /\ ~ nondegenerate (canvas v) /\
             invZoom (canvas v) = S754_infinity false /\
             tileRange (canvas v) = None) /\
  zoomedIn = None.
Proof.
  split.
  - assert (E : exists v, zoomedOut = Some v /\
                          invZoom (canvas v) = S754_infinity false /\
                          tileRange (canvas v) = None).
    { eexists. split; [vm_compute; reflexivity |]. split; vm_compute; reflexivity. }
    destruct E as (v & E1 & E2 & E3). exists v.
    split; [exact E1 |]. split; [| split; [exact E2 | exact E3]].
    intros (_ & _ & F). rewrite E2 in F. discriminate.
  - vm_compute. reflexivity.
Qed.

(** ** Scrollbars *)

Open Scope Z_scope.

Lemma of_float_Some (x : float) (z : Z) :
  Int.of_float x = Some z -> z = Qtrunc (F2Q x).
Proof.
  unfold Int.of_float. destruct (is_finite x); [| discriminate].
  intros H. apply checked_Some in H. apply H.
Qed.

Lemma updateScrollbars_synced (v v' : TilemapScrollView) :
  updateScrollbars v = Some v' -> canvas v' = canvas v /\ synced v'.
Proof.
  intros H. split; [apply (updateScrollbars_canvas v v' H) |].
  unfold updateScrollbars in H.
  apply bind_Some in H. destruct H as (m1 & M1 & H).
  apply bind_Some in H. destruct H as (cw & CW & H).
  apply bind_Some in H. destruct H as (m2 & M2 & H).
  apply bind_Some in H. destruct H as (ch & CH & H).
  apply bind_Some in H. destruct H as (px & PX & H).
  apply bind_Some in H. destruct H as (py & PY & H).
  unfold Int.mul in M1, M2. apply checked_Some in M1, M2.
  destruct M1 as [-> _], M2 as [-> _].
  apply of_float_Some in CW, CH, PX, PY. subst cw ch px py.
  apply Some_inj in H. subst v'. unfold synced, contentExtent. cbn [canvas hscroll vscroll].
  split; reflexivity.
Qed.





(** ** The hover pick *)

(** Claim C2 against the code. After a drag of 8 pixels to the right the
    pointer at (0, 5) is over world x = -8, left of the map: the floor of
    -8 / TILE_SIZE is -1, no tile, but [updateHoveredTile] truncates -0.5
    to 0 and reports tile (0, 0). *)
Theorem hover_truncates :
  exists v, pannedRight = Some v /\
    (F2Q (screenToWorld 0 (offsetX (canvas v)) (zoom (canvas v))) == - (8 # 1))%Q /\
    Qfloor (F2Q (screenToWorld 0 (offsetX (canvas v)) (zoom (canvas v))) / inject_Z TILE_SIZE) = -1 /\
    hoveredX (canvas v) = 0 /\ hoveredY (canvas v) = 0.
Proof.
  eexists. split; [vm_compute; reflexivity |].
  repeat split; vm_compute; reflexivity.
Qed.

(** ** Rounding errors *)

Open Scope Q_scope.

Lemma rawp_error (x : Q) :
  0 < x -> rawp x - x <= u32 * x + eta32 /\ x - rawp x <= u32 * x + eta32.
Proof.
  intros Hx. destruct (ilog2_spec x Hx) as [L U].
  unfold rawp. pose proof (pow2_pos (qexp x)) as Pq.
  destruct (rne_bounds (x / 2 ^ qexp x)) as [R1 R2].
  assert (E : x / 2 ^ qexp x * 2 ^ qexp x == x) by (field; lra).
  remember (inject_Z (rne (x / 2 ^ qexp x))) as n eqn:Dn. clear Dn.
  remember (x / 2 ^ qexp x) as y eqn:Dy. clear Dy.
  assert (A : n * 2 ^ qexp x - x <= (1 # 2) * 2 ^ qexp x).
  { assert ((n - y) * 2 ^ qexp x <= (1 # 2) * 2 ^ qexp x) by (apply Qmult_le_compat_r; lra). lra. }
  assert (B : x - n * 2 ^ qexp x <= (1 # 2) * 2 ^ qexp x).
  { assert ((y - n) * 2 ^ qexp x <= (1 # 2) * 2 ^ qexp x) by (apply Qmult_le_compat_r; lra). lra. }
  assert (H : (1 # 2) * 2 ^ qexp x <= u32 * x + eta32).
  { unfold qexp. destruct (Z.max_spec (ilog2 x - 23) (-149)) as [[_ ->] | [_ ->]].
    - change ((1 # 2) * 2 ^ (-149)) with eta32.
      assert (0 <= u32 * x); [| lra]. apply Qmult_le_0_compat; [discriminate | lra].
    - assert (E2 : (1 # 2) * 2 ^ (ilog2 x - 23) == u32 * 2 ^ ilog2 x).
      { unfold u32. change (1 # 2) with (2 ^ (-1)). rewrite <- !pow2_add.
        replace (-1 + (ilog2 x - 23))%Z with (-24 + ilog2 x)%Z by lia. reflexivity. }
      rewrite E2.
      assert (u32 * 2 ^ ilog2 x <= u32 * x) by (apply Qmult_le_l; [reflexivity | exact L]).
      assert (0 <= eta32) by discriminate. lra. }
  split; lra.
Qed.

Lemma u32_eq : u32 == 1 # 16777216.
Proof. reflexivity. Qed.

Lemma eta32_small : 0 < eta32 /\ eta32 * 2 ^ 128 == 1 # 4194304 /\ eta32 <= 1 # 4194304.
Proof. split; [reflexivity |]. split; [reflexivity | discriminate]. Qed.

Lemma rnd_error (x : Q) :
  - 2 ^ 128 < rnd x -> rnd x < 2 ^ 128 -> near eta32 (rnd x) x.
Proof.
  intros Lo Hi. destruct eta32_small as [He _]. unfold near.
  unfold rnd in *. destruct (Qcompare_spec x 0) as [C | C | C].
  - assert (E : 0 - x == 0) by lra. rewrite (Qabs_wd _ _ E), (Qabs_wd _ _ C).
    change (Qabs 0) with 0. lra.
  - assert (Hx : 0 < - x) by lra.
    destruct (rawp_error (- x) Hx) as [A B].
    unfold rndp in *. fold (rawp (- x)) in *.
    assert (R : Qmin (rawp (- x)) (2 ^ 128) == rawp (- x)).
    { destruct (Q.min_spec (rawp (- x)) (2 ^ 128)) as [[_ E] | [_ E]]; [exact E |].
      rewrite E in Lo. lra. }
    rewrite R. rewrite (Qabs_neg x) by lra.
    apply Qabs_case; intros; lra.
  - destruct (rawp_error x C) as [A B].
    unfold rndp in *. fold (rawp x) in *.
    assert (R : Qmin (rawp x) (2 ^ 128) == rawp x).
    { destruct (Q.min_spec (rawp x) (2 ^ 128)) as [[_ E] | [_ E]]; [exact E |].
      rewrite E in Hi. lra. }
    rewrite R. rewrite (Qabs_pos x) by lra.
    apply Qabs_case; intros; lra.
Qed.

Lemma near_comp (e x x' y y' : Q) : x == x' -> y == y' -> near e x y -> near e x' y'.
Proof.
  unfold near. intros Ex Ey H.
  assert (E : x' - y' == x - y) by (rewrite Ex, Ey; reflexivity).
  rewrite (Qabs_wd _ _ E). rewrite <- (Qabs_wd _ _ Ey). exact H.
Qed.

Lemma round32_error (s : bool) (x : Q) :
  is_finite (round32 s x) = true -> near eta32 (F2Q (round32 s x)) x.
Proof.
  intros F.
  assert (V : valid (round32 s x) = true) by apply valid_round32.
  destruct (F2Q_representable _ V F) as (_ & _ & _ & _ & _ & Lo & Hi).
  rewrite <- F2X_F2Q in Lo, Hi by exact F. rewrite F2X_round32 in Lo, Hi.
  apply (near_comp eta32 (rnd x) _ x x); [| reflexivity | apply rnd_error; assumption].
  rewrite <- F2X_F2Q by exact F. symmetry. apply F2X_round32.
Qed.

Lemma fmul_error (x y : float) :
  is_finite (fmul x y) = true -> near eta32 (F2Q (fmul x y)) (F2Q x * F2Q y).
Proof.
  intros F. destruct (fmul_finite_inv x y F) as [Fx Fy].
  rewrite (fmul_finite x y Fx Fy) in *. apply round32_error. exact F.
Qed.

Lemma fdiv_error (x : float) (s : bool) (m : positive) (e : Z) :
  is_finite (fdiv x (S754_finite s m e)) = true ->
  near eta32 (F2Q (fdiv x (S754_finite s m e))) (F2Q x / F2Q (S754_finite s m e)).
Proof.
  intros F. pose proof (fdiv_finite_inv x s m e F) as Fx.
  rewrite (fdiv_finite x _ s m e Fx eq_refl) in *. apply round32_error. exact F.
Qed.

Lemma fadd_finite_inv (x y : float) :
  is_finite (fadd x y) = true -> is_finite x = true /\ is_finite y = true.
Proof.
  destruct x as [sx | sx | | sx mx ex], y as [sy | sy | | sy my ey]; simpl; intros H;
    try discriminate; try (split; reflexivity).
  destruct (Bool.eqb sx sy); discriminate.
Qed.

Lemma fsub_finite_inv (x y : float) :
  is_finite (fsub x y) = true -> is_finite x = true /\ is_finite y = true.
Proof.
  unfold fsub. intros H. apply fadd_finite_inv in H. destruct H as [Fx Fy].
  rewrite is_finite_fneg in Fy. split; assumption.
Qed.

Lemma fsub_error (x y : float) :
  is_finite (fsub x y) = true -> near eta32 (F2Q (fsub x y)) (F2Q x - F2Q y).
Proof.
  intros F. destruct (fsub_finite_inv x y F) as [Fx Fy].
  assert (V : valid (fsub x y) = true) by apply valid_fadd.
  destruct (F2Q_representable _ V F) as (_ & _ & _ & _ & _ & Lo & Hi).
  rewrite <- F2X_F2Q in Lo, Hi by exact F. rewrite F2X_fsub in Lo, Hi by assumption.
  apply (near_comp eta32 (rnd (F2Q x - F2Q y)) _ (F2Q x - F2Q y) (F2Q x - F2Q y));
    [| reflexivity | apply rnd_error; assumption].
  apply Qeq_sym. apply (Qeq_trans _ (F2X (fsub x y))); [apply Qeq_sym, (F2X_F2Q _ F) |].
  apply F2X_fsub; assumption.
Qed.

Lemma of_int_error (n : Z) :
  is_finite (of_int n) = true -> near eta32 (F2Q (of_int n)) (inject_Z n).
Proof. apply round32_error. Qed.

(** What one rounding can add to a number of magnitude at most [M]. *)
Lemma near_abs (e x y M : Q) :
  0 <= e -> near e x y -> - M <= x -> x <= M ->
  - ((1 + 2 * u32) * (u32 * M + e)) <= x - y /\
  x - y <= (1 + 2 * u32) * (u32 * M + e) /\
  - ((1 + 2 * u32) * (M + e)) <= y /\ y <= (1 + 2 * u32) * (M + e).
Proof.
  unfold near. intros He H Lo Hi. pose proof u32_eq as U.
  revert H. apply Qabs_case; intros S1; apply Qabs_case; intros S2 H;
    rewrite U in *; repeat split; lra.
Qed.

(** A rounding error scales with a positive factor. *)
Lemma near_scale (e x y r : Q) :
  0 <= r -> near e x y -> near (e * r) (x * r) (y * r).
Proof.
  unfold near. intros R H.
  assert (E : x * r - y * r == (x - y) * r) by ring.
  rewrite (Qabs_wd _ _ E), !Qabs_Qmult, (Qabs_pos r) by exact R.
  assert ((Qabs (x - y)) * r <= (u32 * Qabs y + e) * r) by (apply Qmult_le_compat_r; assumption).
  lra.
Qed.

Lemma near_weaken (e e' x y : Q) : e <= e' -> near e x y -> near e' x y.
Proof. unfold near. intros. lra. Qed.

(** ** The width of the tile range *)

Lemma F2Q_div16 (f : float) : F2Q f / F2Q (of_int TILE_SIZE) == F2Q f * (1 # 16).
Proof. rewrite F2Q_TILE_SIZE. unfold Qdiv. reflexivity. Qed.

Lemma floor_abs (x : Q) :
  (Int.INT_MIN <= Qfloor x <= Int.INT_MAX)%Z -> - (2147483649 # 1) <= x /\ x <= 2147483649 # 1.
Proof.
  intros [Lo Hi]. unfold Int.INT_MIN, Int.INT_MAX in *.
  pose proof (Qfloor_le x) as A. pose proof (Qlt_floor x) as B.
  rewrite Zle_Qle in Lo, Hi. rewrite inject_Z_plus in B.
  change (inject_Z (- 2 ^ 31)) with (- (2147483648 # 1)) in Lo.
  change (inject_Z (2 ^ 31 - 1)) with (2147483647 # 1) in Hi.
  change (inject_Z 1) with 1 in B. split; lra.
Qed.

Lemma ceiling_abs (x : Q) :
  (Int.INT_MIN <= Qceiling x <= Int.INT_MAX)%Z -> - (2147483649 # 1) <= x /\ x <= 2147483649 # 1.
Proof.
  intros [Lo Hi]. unfold Int.INT_MIN, Int.INT_MAX in *.
  pose proof (Qle_ceiling x) as A. pose proof (Qceiling_lt x) as B.
  rewrite Zle_Qle in Lo, Hi. unfold Z.sub in B. rewrite inject_Z_plus in B.
  change (inject_Z (- 2 ^ 31)) with (- (2147483648 # 1)) in Lo.
  change (inject_Z (2 ^ 31 - 1)) with (2147483647 # 1) in Hi.
  change (inject_Z (- (1))) with (- (1)) in B. split; lra.
Qed.

Lemma eta32_scale (r : Q) : 0 <= r -> r <= 2 ^ 128 -> eta32 * r <= 1 # 4194304.
Proof.
  intros R0 R1. destruct eta32_small as (E0 & E1 & _). rewrite <- E1.
  apply Qmult_le_l; [exact E0 | exact R1].
Qed.

(** [1 / zoom], for a positive zoom. *)
Lemma invZoom_cases (z : float) :
  valid z = true -> flt (of_int 0) z ->
  let iz := fdiv (of_int 1) z in
  is_finite iz = true -> 0 <= F2Q iz /\ F2Q iz <= 2 ^ 128.
Proof.
  intros V P iz F.
  assert (Vi : valid iz = true) by apply valid_fdiv.
  split.
  - destruct (pos_cases z V P) as [-> | (m & e & -> & _)].
    + vm_compute. discriminate.
    + unfold iz in *. rewrite F2Q_fdiv by exact F. apply rnd_nonneg.
      destruct P as (_ & _ & P). change (F2X (of_int 0)) with 0 in P.
      change (F2X (S754_finite false m e)) with (F2Q (S754_finite false m e)) in P.
      rewrite F2Q_1. apply Qlt_le_weak. apply Qlt_shift_div_l; [exact P | lra].
  - destruct (F2Q_representable iz Vi F) as (_ & _ & _ & _ & _ & _ & Hi). lra.
Qed.

Lemma near_upper (e x y : Q) : 0 <= y -> near e x y -> x <= y * (1 + u32) + e.
Proof.
  unfold near. intros Y. rewrite (Qabs_pos y) by exact Y.
  apply Qabs_case; intros; lra.
Qed.

Lemma near_lower (e x y : Q) : 0 <= y -> near e x y -> y * (1 - u32) - e <= x.
Proof.
  unfold near. intros Y. rewrite (Qabs_pos y) by exact Y.
  apply Qabs_case; intros; lra.
Qed.

(** The two ends of the tile range, before [floor] and [ceil], are apart by
    the width of the viewport in tiles, [W * (1 / zoom) / 16], up to the
    roundings of five operations on numbers of magnitude at most [T]: five
    times [u32 * T]. *)
Lemma axis_width (o z : float) (W : Z) (T : Q) :
  valid z = true -> flt (of_int 0) z -> (0 <= W)%Z ->
  let iz := fdiv (of_int 1) z in
  let lo := fdiv (fmul (fneg o) iz) (of_int TILE_SIZE) in
  let hi := fdiv (fmul (fsub (of_int W) o) iz) (of_int TILE_SIZE) in
  is_finite lo = true -> is_finite hi = true ->
  - T <= F2Q lo /\ F2Q lo <= T -> - T <= F2Q hi /\ F2Q hi <= T ->
  is_finite iz = true /\ 0 <= F2Q iz /\
  F2Q hi - F2Q lo
  <= inject_Z W * F2Q iz * ((1 + u32) * (1 # 16))
     + ((5 * u32 + (1 # 1099511627776)) * T + (1 # 1000)).
Proof.
  intros V P W0 iz lo hi Flo Fhi Rlo Rhi.
  unfold lo, hi in *. clear lo hi.
  pose proof (F2Q_div16 (fmul (fneg o) iz)) as D1.
  pose proof (F2Q_div16 (fmul (fsub (of_int W) o) iz)) as D2.
  rewrite of_int_TILE_SIZE in *.
  pose proof (fdiv_finite_inv _ _ _ _ Flo) as Fa.
  pose proof (fdiv_finite_inv _ _ _ _ Fhi) as Fb.
  destruct (fmul_finite_inv _ _ Fb) as [Fd Fi].
  destruct (fsub_finite_inv _ _ Fd) as [Fw Fo].
  destruct (invZoom_cases z V P Fi) as [R0 R1]. fold iz in R0, R1.
  pose proof (near_comp _ _ _ _ _ (Qeq_refl _) D1 (fdiv_error _ _ _ _ Flo)) as N1.
  assert (D3 : F2Q (fneg o) * F2Q iz == - F2Q o * F2Q iz) by (rewrite F2Q_fneg; reflexivity).
  pose proof (near_comp _ _ _ _ _ (Qeq_refl _) D3 (fmul_error _ _ Fa)) as N2.
  pose proof (near_comp _ _ _ _ _ (Qeq_refl _) D2 (fdiv_error _ _ _ _ Fhi)) as N3.
  pose proof (fmul_error _ _ Fb) as N4.
  pose proof (near_scale _ _ _ _ R0 (fsub_error _ _ Fd)) as N5.
  pose proof (near_scale _ _ _ _ R0 (of_int_error W Fw)) as N6.
  apply (near_weaken _ (1 # 4194304)) in N5, N6; try (apply eta32_scale; assumption).
  assert (WR : 0 <= inject_Z W * F2Q iz).
  { apply Qmult_le_0_compat; [| exact R0]. rewrite Zle_Qle in W0. exact W0. }
  apply (near_upper _ _ _ WR) in N6.
  split; [exact Fi |]. split; [exact R0 |].
  clear D1 D2 D3 Fa Fb Fd Fw Fo Fi Flo Fhi V P R1.
  destruct eta32_small as (E0 & _ & E1).
  remember (F2Q (fdiv (fmul (fneg o) iz) (S754_finite false 8388608 (-19)))) as tl eqn:X1.
  remember (F2Q (fdiv (fmul (fsub (of_int W) o) iz) (S754_finite false 8388608 (-19)))) as tr eqn:X2.
  remember (F2Q (fmul (fneg o) iz)) as a eqn:X3.
  remember (F2Q (fmul (fsub (of_int W) o) iz)) as b eqn:X4.
  remember (F2Q (fsub (of_int W) o)) as d eqn:X5.
  remember (F2Q (of_int W)) as wf eqn:X6.
  remember (F2Q iz) as r eqn:X7. remember (F2Q o) as oq eqn:X8.
  remember (inject_Z W) as wq eqn:X9.
  clear X1 X2 X3 X4 X5 X6 X7 X8 X9.
  destruct Rlo as [L1 L2], Rhi as [H1 H2].
  assert (Ee : 0 <= eta32) by lra.
  destruct (near_abs _ _ _ _ Ee N1 L1 L2) as (A1 & A2 & A3 & A4).
  destruct (near_abs _ _ _ _ Ee N3 H1 H2) as (B1 & B2 & B3 & B4).
  assert (A5 : - (16 * ((1 + 2 * u32) * (T + eta32))) <= a) by lra.
  assert (A6 : a <= 16 * ((1 + 2 * u32) * (T + eta32))) by lra.
  assert (B5 : - (16 * ((1 + 2 * u32) * (T + eta32))) <= b) by lra.
  assert (B6 : b <= 16 * ((1 + 2 * u32) * (T + eta32))) by lra.
  destruct (near_abs _ _ _ _ Ee N2 A5 A6) as (A7 & A8 & _ & _).
  destruct (near_abs _ _ _ _ Ee N4 B5 B6) as (B7 & B8 & B9 & B10).
  assert (Ee' : 0 <= 1 # 4194304) by discriminate.
  destruct (near_abs _ _ _ _ Ee' N5 B9 B10) as (C1 & C2 & _ & _).
  rewrite u32_eq in *. lra.
Qed.

(** [1 / zoom] against the step: the step is at least a quarter of
    [1 / zoom], up to two roundings. *)
Lemma invZoom_le_step (z : float) (s : Z) :
  valid z = true -> flt (of_int 0) z ->
  is_finite (fdiv (of_int 1) z) = true -> lodStep z = Some s ->
  F2Q (fdiv (of_int 1) z) <= 4 * inject_Z s * (1 + 8 * u32).
Proof.
  intros V P Fi S. pose proof (lodStep_pos z s S) as S1.
  rewrite Zle_Qle in S1. change (inject_Z 1) with 1 in S1.
  destruct (pos_cases z V P) as [-> | (m & e & -> & _)].
  { change (F2Q (fdiv (of_int 1) (S754_infinity false))) with 0. rewrite u32_eq. lra. }
  remember (S754_finite false m e) as z eqn:Ez.
  assert (Fz : is_finite z = true) by (rewrite Ez; reflexivity).
  assert (Pz : 0 < F2Q z).
  { destruct P as (_ & _ & P). rewrite (F2X_F2Q _ Fz) in P. exact P. }
  destruct (Qlt_le_dec (F2Q z) (1 # 4)) as [Fine | Coarse].
  - assert (B1 : 16 * F2Q z < 2 ^ 128) by (pose proof (pow2_le 2 128 ltac:(lia)); change (2 ^ 2) with 4 in *; lra).
    assert (B2 : - 2 ^ 128 < 16 * F2Q z) by (pose proof (pow2_pos 128); lra).
    destruct (pixelsPerTile_exact z V Fz B1 B2) as [Fp Ep].
    assert (Pp : 0 < F2Q (pixelsPerTile z)) by (rewrite Ep; lra).
    destruct (positive_finite _ Fp Pp) as (mp & ep & Dp).
    apply lodStep_Some in S. destruct S as (Fq & Es & _).
    rewrite Dp in Fq. pose proof (fdiv_error _ _ _ _ Fq) as N1. rewrite <- Dp in N1, Fq.
    assert (D1 : F2Q MIN_VISIBLE_PIXELS / F2Q (pixelsPerTile z) == / F2Q z * (1 # 4)).
    { rewrite Ep, F2Q_MIN. field. lra. }
    apply (near_comp _ _ _ _ _ (Qeq_refl _) D1) in N1.
    rewrite Ez in Fi. pose proof (fdiv_error _ _ _ _ Fi) as N2. rewrite <- Ez in N2.
    assert (D2 : F2Q (of_int 1) / F2Q z == / F2Q z).
    { rewrite F2Q_1. field. lra. }
    apply (near_comp _ _ _ _ _ (Qeq_refl _) D2) in N2.
    assert (Y : 4 < / F2Q z).
    { setoid_replace (/ F2Q z) with (1 / F2Q z) by (field; lra).
      apply Qlt_shift_div_l; lra. }
    assert (Y4 : 0 <= / F2Q z * (1 # 4)) by lra.
    assert (Y0 : 0 <= / F2Q z) by lra.
    apply (near_lower _ _ _ Y4) in N1. apply (near_upper _ _ _ Y0) in N2.
    pose proof (Qle_ceiling (F2Q (fdiv MIN_VISIBLE_PIXELS (pixelsPerTile z)))) as C.
    assert (C' : inject_Z (Qceiling (F2Q (fdiv MIN_VISIBLE_PIXELS (pixelsPerTile z)))) <= inject_Z s).
    { rewrite <- Zle_Qle. lia. }
    destruct eta32_small as (E0 & _ & E1).
    remember (F2Q (fdiv MIN_VISIBLE_PIXELS (pixelsPerTile z))) as q eqn:X1.
    remember (F2Q (fdiv (of_int 1) z)) as r eqn:X2.
    remember (/ F2Q z) as y eqn:X3. remember (inject_Z s) as sq eqn:X4.
    remember (inject_Z (Qceiling q)) as cq eqn:X5.
    clear - N1 N2 C C' E0 E1 Y S1. rewrite u32_eq in *. lra.
  - assert (Y : 1 / F2Q z <= 4) by (apply Qle_shift_div_r; lra).
    assert (E : F2Q (fdiv (of_int 1) z) == rnd (1 / F2Q z)).
    { rewrite Ez in Fi |- *. rewrite F2Q_fdiv by exact Fi. apply rnd_comp.
      rewrite F2Q_1. reflexivity. }
    rewrite E. apply (rnd_mono _ _) in Y. change (rnd 4) with (rnd (2 ^ 2)) in Y.
    rewrite rnd_pow2 in Y by lia. change (2 ^ 2) with 4 in Y. rewrite u32_eq. lra.
Qed.

(** ** The number of cells on one axis *)

(** The cells of one axis: at most a quarter of the side [W] and a constant
    [K] that covers the roundings, for tile bounds of magnitude at most [T]
    and sides up to [Wmax]. *)
Lemma axis_count_within (o z : float) (W mapW s : Z) (T : Q) (Wmax K : Z) :
  valid z = true -> flt (of_int 0) z -> (0 <= W <= Wmax)%Z ->
  lodStep z = Some s ->
  let iz := fdiv (of_int 1) z in
  let lo := fdiv (fmul (fneg o) iz) (of_int TILE_SIZE) in
  let hi := fdiv (fmul (fsub (of_int W) o) iz) (of_int TILE_SIZE) in
  is_finite lo = true -> is_finite hi = true ->
  - T <= F2Q lo /\ F2Q lo <= T -> - T <= F2Q hi /\ F2Q hi <= T ->
  inject_Z Wmax * (9 * u32 + 8 * u32 * u32)
  + 4 * ((5 * u32 + (1 # 1099511627776)) * T + (1 # 1000)) + 11 <= 4 * inject_Z K ->
  (iterations (Z.max 0 (Qfloor (F2Q lo))) (Z.min mapW (Qceiling (F2Q hi))) s
   <= W / 4 + K)%Z.
Proof.
  intros V P [W0 W1] S iz lo hi Flo Fhi Rlo Rhi HK.
  destruct (axis_width o z W T V P W0 Flo Fhi Rlo Rhi) as (Fi & R0 & Wd).
  pose proof (invZoom_le_step z s V P Fi S) as RS.
  pose proof (lodStep_pos z s S) as S1.
  fold iz in R0, Wd, RS. fold lo hi in Wd, Rlo |- *.
  pose proof (Qlt_floor (F2Q lo)) as A. pose proof (Qceiling_lt (F2Q hi)) as B.
  rewrite inject_Z_plus in A. unfold Z.sub in B. rewrite inject_Z_plus in B.
  change (inject_Z 1) with 1 in A. change (inject_Z (- (1))) with (- (1)) in B.
  assert (Q1 : inject_Z W * F2Q iz <= inject_Z W * (4 * inject_Z s * (1 + 8 * u32))).
  { destruct (Z.eq_dec W 0) as [-> | NZ]; [change (inject_Z 0) with 0; lra |].
    apply Qmult_le_l; [| exact RS]. change 0 with (inject_Z 0). rewrite <- Zlt_Qlt. lia. }
  assert (Q2 : inject_Z W * inject_Z s <= inject_Z Wmax * inject_Z s).
  { apply Qmult_le_compat_r.
    - rewrite <- Zle_Qle. exact W1.
    - change 0 with (inject_Z 0). rewrite <- Zle_Qle. lia. }
  assert (S1q : 1 <= inject_Z s).
  { change 1 with (inject_Z 1). rewrite <- Zle_Qle. exact S1. }
  assert (T0 : 0 <= T) by (destruct Rlo; lra).
  assert (M0 : 0 <= inject_Z Wmax).
  { change 0 with (inject_Z 0). rewrite <- Zle_Qle. lia. }
  assert (Q3 : 0 <= (4 * inject_Z K - 7 - inject_Z Wmax * (9 * u32 + 8 * u32 * u32))
                    * (inject_Z s - 1)).
  { apply Qmult_le_0_compat; [| lra]. rewrite u32_eq in *. lra. }
  assert (Q : inject_Z (4 * (Qceiling (F2Q hi) - Qfloor (F2Q lo)))
              <= inject_Z (s * W + (4 * K - 7) * s + 4)).
  { unfold Z.sub. rewrite !inject_Z_plus, !inject_Z_mult, !inject_Z_plus, !inject_Z_opp,
      !inject_Z_mult.
    change (inject_Z 4) with 4. change (inject_Z 7) with 7.
    remember (inject_Z (Qceiling (F2Q hi))) as c eqn:X1.
    remember (inject_Z (Qfloor (F2Q lo))) as f eqn:X2.
    remember (F2Q hi) as tr eqn:X3. remember (F2Q lo) as tl eqn:X4.
    remember (F2Q iz) as r eqn:X5. remember (inject_Z W) as wq eqn:X6.
    remember (inject_Z s) as sq eqn:X7. remember (inject_Z Wmax) as mq eqn:X8.
    remember (inject_Z K) as kq eqn:X9.
    clear - Wd A B Q1 Q2 Q3 S1q HK T0 M0. rewrite u32_eq in *. lra. }
  rewrite <- Zle_Qle in Q.
  assert (K0 : (2 <= K)%Z).
  { assert (X : inject_Z 7 < inject_Z (4 * K)).
    { rewrite inject_Z_mult. change (inject_Z 4) with 4. change (inject_Z 7) with 7.
      rewrite u32_eq in HK. rewrite u32_eq in Q3. clear - HK T0 M0. lra. }
    rewrite <- Zlt_Qlt in X. lia. }
  unfold iterations. apply Z.max_lub.
  - assert (0 <= W / 4)%Z by (apply Z.div_pos; lia). lia.
  - apply Z.div_le_upper_bound; [lia |].
    assert (D : (W - 3 <= 4 * (W / 4))%Z).
    { pose proof (Z.div_mod W 4 ltac:(lia)). pose proof (Z.mod_pos_bound W 4 ltac:(lia)). lia. }
    nia.
Qed.

(** Whenever the two bounds fit an [int]. *)
Lemma axis_count (o z : float) (W mapW s : Z) :
  valid z = true -> flt (of_int 0) z -> (0 <= W <= Int.INT_MAX)%Z ->
  lodStep z = Some s ->
  let iz := fdiv (of_int 1) z in
  let lo := fdiv (fmul (fneg o) iz) (of_int TILE_SIZE) in
  let hi := fdiv (fmul (fsub (of_int W) o) iz) (of_int TILE_SIZE) in
  is_finite lo = true -> is_finite hi = true ->
  (Int.INT_MIN <= Qfloor (F2Q lo) <= Int.INT_MAX)%Z ->
  (Int.INT_MIN <= Qceiling (F2Q hi) <= Int.INT_MAX)%Z ->
  (iterations (Z.max 0 (Qfloor (F2Q lo))) (Z.min mapW (Qceiling (F2Q hi))) s
   <= W / 4 + 1000)%Z.
Proof.
  intros V P W0 S iz lo hi Flo Fhi Rlo Rhi.
  apply floor_abs in Rlo. apply ceiling_abs in Rhi.
  apply (axis_count_within o z W mapW s (2147483649 # 1) Int.INT_MAX 1000); try assumption.
  vm_compute. discriminate.
Qed.

(** ** One frame *)

Open Scope Z_scope.

Lemma lodStepSpec_moderate (z : Q) : (2 ^ (-6) <= z)%Q -> lodStepSpec z <= 16.
Proof.
  intros Lo. change (2 ^ (-6))%Q with (1 # 64)%Q in Lo. unfold lodStepSpec.
  apply Z.max_lub; [lia |]. apply Qceiling_le_Z. rewrite F2Q_MIN.
  change (inject_Z TILE_SIZE) with 16%Q. change (inject_Z 16) with 16%Q.
  apply Qle_shift_div_r; lra.
Qed.

Lemma drawCell_defined (mapW mapH : Z) (tileMap : Z -> Z -> Z) (s y x : Z)
    (calls : list DrawCall) :
  0 <= x < mapW -> 0 <= y < mapH -> mapW <= 2 ^ 24 -> mapH <= 2 ^ 24 -> 1 <= s <= 2 ^ 24 ->
  exists calls', drawCell mapW mapH tileMap s y x calls = Some calls'.
Proof.
  intros X Y MW MH S. unfold drawCell, readTile.
  destruct (Z.leb_spec 0 y); [| lia]. destruct (Z.ltb_spec y mapH); [| lia].
  destruct (Z.leb_spec 0 x); [| lia]. destruct (Z.ltb_spec x mapW); [| lia].
  cbn [andb bind]. unfold Int.mul, drawTile, Int.add, TILE_SIZE.
  repeat (rewrite checked_in_range by (unfold Int.INT_MIN, Int.INT_MAX; lia); cbn [bind]).
  eexists. reflexivity.
Qed.

Lemma drawTilesOf_defined (mapW mapH : Z) (tileMap : Z -> Z -> Z) (t : TilemapWindow)
    (r : Z * Z * Z * Z) (s : Z) :
  0 <= mapW <= 2 ^ 24 -> 0 <= mapH <= 2 ^ 24 ->
  tileRangeOf mapW mapH t = Some r -> lodStep (zoom t) = Some s -> s <= 2 ^ 24 ->
  exists calls, drawTilesOf mapW mapH tileMap t = Some calls.
Proof.
  intros MW MH R S S2. pose proof (lodStep_pos _ _ S) as S1.
  destruct r as [[[x0 y0] x1] y1]. unfold drawTilesOf. rewrite R. cbn [bind]. rewrite S. cbn [bind].
  apply tileRangeOf_Some in R. destruct R as (_ & Ex0 & Ey0 & Ex1 & Ey1).
  assert (L : exists calls,
             forLoop (loopFuel y0 y1) y0 y1 s (drawRow mapW mapH tileMap x0 x1 s) [] = Some calls).
  { apply (forLoop_defined _ y0 y1 s); unfold Int.INT_MIN, Int.INT_MAX, loopFuel; try lia.
    intros y a Y. unfold drawRow.
    apply (forLoop_defined _ x0 x1 s); unfold Int.INT_MIN, Int.INT_MAX, loopFuel; try lia.
    intros x a' X. apply drawCell_defined; lia. }
  destruct L as (calls & ->). cbn [bind]. eexists. reflexivity.
Qed.

(** On a window far from the limits, [draw] runs its two loops to the end. *)
Lemma drawTiles_moderate (tileMap : Z -> Z -> Z) (t : TilemapWindow) :
  valid (zoom t) = true -> moderate t -> exists calls, drawTiles tileMap t = Some calls.
Proof.
  intros V M. destruct (tileRange_moderate t M) as (r & R).
  destruct M as (_ & _ & Fz & _ & _ & Z1 & _).
  assert (Z2 : (2 ^ (-25) <= F2Q (zoom t))%Q).
  { change (2 ^ (-6))%Q with (1 # 64)%Q in Z1. change (2 ^ (-25))%Q with (1 # 33554432)%Q. lra. }
  destruct (lodStep_exact (zoom t) V Fz Z2) as (s & S & _ & _ & S2).
  pose proof (lodStepSpec_moderate _ Z1).
  apply (drawTilesOf_defined MAP_WIDTH MAP_HEIGHT tileMap t r s);
    unfold MAP_WIDTH, MAP_HEIGHT; try lia; assumption.
Qed.

Lemma tileRangeOf_in_range (mapW mapH : Z) (t : TilemapWindow) (r : Z * Z * Z * Z) :
  tileRangeOf mapW mapH t = Some r ->
  Int.INT_MIN <= Qfloor (F2Q (tileLeft t)) <= Int.INT_MAX /\
  Int.INT_MIN <= Qfloor (F2Q (tileTop t)) <= Int.INT_MAX /\
  Int.INT_MIN <= Qceiling (F2Q (tileRight t)) <= Int.INT_MAX /\
  Int.INT_MIN <= Qceiling (F2Q (tileBottom t)) <= Int.INT_MAX.
Proof.
  unfold tileRangeOf. intros H.
  apply bind_Some in H. destruct H as (fx0 & H1 & H).
  apply bind_Some in H. destruct H as (fy0 & H2 & H).
  apply bind_Some in H. destruct H as (cx1 & H3 & H).
  apply bind_Some in H. destruct H as (cy1 & H4 & _).
  pose proof (of_float_floorf_inv _ _ H1) as F1.
  pose proof (of_float_floorf_inv _ _ H2) as F2.
  pose proof (of_float_ceilf_inv _ _ H3) as F3.
  pose proof (of_float_ceilf_inv _ _ H4) as F4.
  rewrite of_float_floorf in H1, H2 by (try apply valid_fdiv; assumption).
  rewrite of_float_ceilf in H3, H4 by (try apply valid_fdiv; assumption).
  apply checked_Some in H1, H2, H3, H4.
  split; [apply H1 |]. split; [apply H2 |]. split; [apply H3 | apply H4].
Qed.

(** The cells of one frame on a window far from the limits. *)
Lemma cells_moderate (tileMap : Z -> Z -> Z) (t : TilemapWindow) :
  valid (zoom t) = true -> moderate t ->
  exists calls, drawTiles tileMap t = Some calls /\
                Z.of_nat (length calls) <= cellBoundModerate (w t) (h t).
Proof.
  intros V M. destruct (drawTiles_moderate tileMap t V M) as (calls & D).
  exists calls. split; [exact D |].
  apply drawTilesOf_count in D. destruct D as (x0 & y0 & x1 & y1 & s & R & S & L).
  apply tileRangeOf_Some in R. destruct R as (_ & -> & -> & -> & ->).
  destruct M as (Fx & Fy & Fz & [X1 X2] & [Y1 Y2] & Z1 & HW & HH).
  assert (P : flt (of_int 0) (zoom t)).
  { split; [reflexivity |]. split; [destruct (zoom t); try discriminate; reflexivity |].
    rewrite (F2X_F2Q _ Fz). change (F2X (of_int 0)) with 0%Q.
    change (2 ^ (-6))%Q with (1 # 64)%Q in Z1. lra. }
  destruct (axis_defined (offsetX t) (zoom t) (w t) Fx Fz X1 X2 Z1 HW)
    as (A1 & A2 & _ & _ & A3 & A4).
  destruct (axis_defined (offsetY t) (zoom t) (h t) Fy Fz Y1 Y2 Z1 HH)
    as (B1 & B2 & _ & _ & B3 & B4).
  assert (HK : (inject_Z (2 ^ 15) * (9 * u32 + 8 * u32 * u32)
                + 4 * ((5 * u32 + (1 # 1099511627776)) * 2 ^ 23 + (1 # 1000)) + 11
                <= 4 * inject_Z 6)%Q) by (vm_compute; discriminate).
  pose proof (axis_count_within (offsetX t) (zoom t) (w t) MAP_WIDTH s (2 ^ 23) (2 ^ 15) 6
                V P HW S A1 A2 A3 A4 HK) as CX.
  pose proof (axis_count_within (offsetY t) (zoom t) (h t) MAP_HEIGHT s (2 ^ 23) (2 ^ 15) 6
                V P HH S B1 B2 B3 B4 HK) as CY.
  rewrite L. unfold cellBoundModerate, cellBoundWith.
  pose proof (iterations_nonneg (Z.max 0 (Qfloor (F2Q (tileLeft t))))
                (Z.min MAP_WIDTH (Qceiling (F2Q (tileRight t)))) s).
  pose proof (iterations_nonneg (Z.max 0 (Qfloor (F2Q (tileTop t))))
                (Z.min MAP_HEIGHT (Qceiling (F2Q (tileBottom t)))) s).
  rewrite Z.mul_comm. apply Z.mul_le_mono_nonneg; assumption.
Qed.

(** Claim C8, amended. Whenever [draw] runs its loops to the end, on a map
    of any size, at any positive zoom and any offset, it visits
    [ceil((tileX1 - tileX0) / step) * ceil((tileY1 - tileY0) / step)] cells,
    at most [W / 4 + 1000] across and [H / 4 + 1000] down: a bound from the
    viewport size and [MIN_VISIBLE_PIXELS = 4] alone. On a window far from
    the limits of [float] and [int] it does run them to the end, and visits
    at most [(W / 4 + 6) * (H / 4 + 6)] cells. *)
Theorem cells_bounded (t : TilemapWindow) :
  valid (zoom t) = true -> flt (of_int 0) (zoom t) ->
  0 <= w t <= Int.INT_MAX -> 0 <= h t <= Int.INT_MAX ->
  (forall mapW mapH tileMap calls,
     drawTilesOf mapW mapH tileMap t = Some calls ->
     exists x0 y0 x1 y1 s,
       tileRangeOf mapW mapH t = Some (x0, y0, x1, y1) /\ lodStep (zoom t) = Some s /\
       Z.of_nat (length calls) = iterations y0 y1 s * iterations x0 x1 s /\
       iterations x0 x1 s <= w t / 4 + 1000 /\ iterations y0 y1 s <= h t / 4 + 1000 /\
       Z.of_nat (length calls) <= cellBound (w t) (h t)) /\
  (moderate t ->
   forall tileMap, exists calls,
     drawTiles tileMap t = Some calls /\
     Z.of_nat (length calls) <= cellBoundModerate (w t) (h t)).
Proof.
  intros V P W H. split; [| intros M tileMap; apply cells_moderate; assumption].
  intros mapW mapH tileMap calls D.
  apply drawTilesOf_count in D. destruct D as (x0 & y0 & x1 & y1 & s & R & S & L).
  exists x0, y0, x1, y1, s. split; [exact R |]. split; [exact S |]. split; [exact L |].
  pose proof (tileRangeOf_in_range _ _ _ _ R) as (I1 & I2 & I3 & I4).
  apply tileRangeOf_Some in R. destruct R as ((F1 & F2 & F3 & F4) & -> & -> & -> & ->).
  pose proof (axis_count (offsetX t) (zoom t) (w t) mapW s V P W S F1 F3 I1 I3) as CX.
  pose proof (axis_count (offsetY t) (zoom t) (h t) mapH s V P H S F2 F4 I2 I4) as CY.
  split; [exact CX |]. split; [exact CY |].
  rewrite L. unfold cellBound, cellBoundWith.
  pose proof (iterations_nonneg (Z.max 0 (Qfloor (F2Q (tileLeft t))))
                (Z.min mapW (Qceiling (F2Q (tileRight t)))) s).
  pose proof (iterations_nonneg (Z.max 0 (Qfloor (F2Q (tileTop t))))
                (Z.min mapH (Qceiling (F2Q (tileBottom t)))) s).
  rewrite Z.mul_comm. apply Z.mul_le_mono_nonneg; assumption.
Qed.

Lemma cells_bounded_witness :
  valid (zoom scenarioA) = true /\ flt (of_int 0) (zoom scenarioA) /\
  forall tileMap calls,
    drawTiles tileMap scenarioA = Some calls ->
    Z.of_nat (length calls) <= cellBound 800 600.
Proof.
  assert (V : valid (zoom scenarioA) = true) by reflexivity.
  assert (P : flt (of_int 0) (zoom scenarioA)) by (repeat split).
  assert (W : 0 <= w scenarioA <= Int.INT_MAX) by (vm_compute; split; discriminate).
  assert (H : 0 <= h scenarioA <= Int.INT_MAX) by (vm_compute; split; discriminate).
  split; [exact V |]. split; [exact P |].
  intros tileMap calls D.
  destruct (proj1 (cells_bounded scenarioA V P W H) MAP_WIDTH MAP_HEIGHT tileMap calls D)
    as (x0 & y0 & x1 & y1 & s & _ & _ & _ & _ & _ & B).
  exact B.
Defined.

(** C8 as stated fails 224 wheel steps out, with the corner of the map
    dragged to the last pixel of the canvas: the zoom is positive, about
    [5.6e-11]; the step and the first tile of each axis are beyond the range
    of [int], their conversions have no defined result and [draw] has no
    defined count of cells. *)
Lemma draggedOut_undefined :
  exists v, draggedOut = Some v /\
            valid (zoom (canvas v)) = true /\ flt (of_int 0) (zoom (canvas v)) /\
            lodStep (zoom (canvas v)) = None /\ tileRange (canvas v) = None /\
            forall tileMap, drawTiles tileMap (canvas v) = None.
Proof.
  eexists. split; [vm_compute; reflexivity |].
  split; [vm_compute; reflexivity |]. split; [vm_compute; repeat split |].
  split; [vm_compute; reflexivity |]. split; [vm_compute; reflexivity |].
  intros tileMap. vm_compute. reflexivity.
Qed.

Open Scope Z_scope.

(** ** A viewport of no extent *)





(** ** The anchor of a zoom *)

Open Scope Q_scope.

Lemma near_bounds (e x y : Q) :
  near e x y -> x - y <= u32 * Qabs y + e /\ y - x <= u32 * Qabs y + e.
Proof.
  unfold near. intros H. apply Qabs_Qle_condition in H. split; lra.
Qed.

(** Four roundings in a row: [P] of [A], [O'] of [S - P], [D'] of [S - O']
    and [A'] of [D']. *)
Lemma anchor_error (S A A' P O' D' e : Q) :
  0 <= e ->
  near eta32 P A -> near eta32 O' (S - P) -> near eta32 D' (S - O') -> near e A' D' ->
  Qabs (A' - A) <= 4 * u32 * (Qabs A + Qabs O') + 8 * eta32 + e.
Proof.
  intros He N1 N2 N3 N4.
  apply near_bounds in N1, N2, N3, N4.
  destruct N1 as [N1a N1b], N2 as [N2a N2b], N3 as [N3a N3b], N4 as [N4a N4b].
  destruct eta32_small as (E0 & _ & E1).
  pose proof (Qle_Qabs A) as XA1. pose proof (Qle_Qabs (- A)) as XA2.
  rewrite Qabs_opp in XA2. pose proof (Qle_Qabs O') as XO1.
  pose proof (Qle_Qabs (- O')) as XO2. rewrite Qabs_opp in XO2.
  remember (Qabs A) as aA eqn:X1. remember (Qabs O') as aO eqn:X2.
  clear X1 X2. rewrite u32_eq in *.
  apply Qabs_Qle_condition.
  revert N2a N2b N3a N3b N4a N4b.
  apply (Qabs_case (S - P)); intros C1; apply (Qabs_case (S - O')); intros C2;
    apply (Qabs_case D'); intros C3 N2a N2b N3a N3b N4a N4b; split; lra.
Qed.

(** One zoom about the screen coordinate [m]: with the offset set to
    [m - world * zoom'], the world coordinate read back under [m] is
    [world] again, up to the tolerance. *)
Lemma anchor_step (m : Z) (world z' : float) :
  let o' := anchored m world z' in
  let world' := screenToWorld m o' z' in
  flt (of_int 0) z' -> is_finite z' = true -> is_finite world' = true ->
  is_finite world = true /\ is_finite o' = true /\
  Qabs (F2Q world' - F2Q world) <= anchorTolerance (F2Q world) (F2Q o') (F2Q z').
Proof.
  intros o' world' P Fz F.
  assert (Pz : 0 < F2Q z').
  { destruct P as (_ & _ & P). rewrite (F2X_F2Q _ Fz) in P. exact P. }
  destruct (positive_finite z' Fz Pz) as (mz & ez & Ez).
  unfold world', screenToWorld in F. rewrite Ez in F.
  pose proof (fdiv_error _ _ _ _ F) as N4.
  pose proof (fdiv_finite_inv _ _ _ _ F) as Fd. rewrite <- Ez in N4, F.
  destruct (fsub_finite_inv _ _ Fd) as [Fm Fo].
  pose proof (fsub_error _ _ Fd) as N3.
  unfold o', anchored in Fo. destruct (fsub_finite_inv _ _ Fo) as [_ Fp].
  pose proof (fsub_error _ _ Fo) as N2.
  destruct (fmul_finite_inv _ _ Fp) as [Fw _].
  pose proof (fmul_error _ _ Fp) as N1.
  split; [exact Fw |]. split; [exact Fo |].
  apply (near_scale _ _ _ (F2Q z') (Qlt_le_weak _ _ Pz)) in N4.
  assert (D : F2Q (fsub (of_int m) o') / F2Q z' * F2Q z' == F2Q (fsub (of_int m) o')).
  { field. lra. }
  apply (near_comp _ _ _ _ _ (Qeq_refl _) D) in N4.
  destruct eta32_small as (E0 & _ & _).
  assert (He : 0 <= eta32 * F2Q z').
  { apply Qmult_le_0_compat; lra. }
  fold (anchored m world z') in N2, N3. fold o' in N2, N3, N4 |- *.
  fold (screenToWorld m o' z') in N4. fold world' in N4.
  pose proof (anchor_error _ _ _ _ _ _ _ He N1 N2 N3 N4) as B.
  assert (X : F2Q world' * F2Q z' - F2Q world * F2Q z' == (F2Q world' - F2Q world) * F2Q z')
    by ring.
  rewrite (Qabs_wd _ _ X) in B.
  rewrite !Qabs_Qmult, (Qabs_pos (F2Q z')) in B by lra.
  unfold anchorTolerance. fold u32 eta32.
  remember (Qabs (F2Q world' - F2Q world)) as dw eqn:X1.
  remember (Qabs (F2Q world)) as aw eqn:X2. remember (Qabs (F2Q o')) as ao eqn:X3.
  remember (F2Q z') as zq eqn:X4.
  clear - B Pz.
  assert (G : dw - eta32 <= (4 * u32 * (aw * zq + ao) + 8 * eta32) / zq).
  { apply Qle_shift_div_l; [exact Pz |]. lra. }
  lra.
Qed.

Lemma wheel_anchor (v v' : TilemapScrollView) (mx my dy : Z) :
  handle v (FL_MOUSEWHEEL mx my dy) = Some v' ->
  let t := canvas v in
  let z' := fmul (zoom t) (zoomFactor dy) in
  zoom (canvas v') = z' /\
  offsetX (canvas v') = anchored mx (screenToWorld mx (offsetX t) (zoom t)) z' /\
  offsetY (canvas v') = anchored my (screenToWorld my (offsetY t) (zoom t)) z'.
Proof.
  intros H. simpl in H. apply notifyParent_canvas in H. rewrite H. simpl.
  repeat split.
Qed.

(** Scenario D: in the initial view, two wheel steps in about (400, 300). *)
Lemma zoomedTwice_exact :
  exists v, zoomedTwice = Some v /\
            screenToWorld 400 (offsetX (canvas v)) (zoom (canvas v)) = of_int 400 /\
            screenToWorld 300 (offsetY (canvas v)) (zoom (canvas v)) = of_int 300.
Proof.
  eexists. split; [vm_compute; reflexivity |]. split; vm_compute; reflexivity.
Qed.

(** Claim C3, amended. Take a transform, a screen coordinate [m] and zoom
    factors [f] and [g]. When the new zoom [zoom * f] is positive and finite
    and the world coordinate read back under [m] is finite, it differs from
    the one read before the update by at most the tolerance: [2^-22] of the
    magnitudes of the world coordinates of [m] and of the screen origin,
    and the underflow of four operations. After a second zoom about [m], by
    [g], the difference from the first reading is at most the sum of the
    tolerances of the two updates. The wheel case of [handle] is this
    update on each axis, with the factor of the wheel direction; in the
    initial view, two wheel steps in about (400, 300) leave the world point
    (400, 300) under that pixel exactly. *)
Theorem anchor_preserved (m : Z) (o z f g : float) :
  let world := screenToWorld m o z in
  let z1 := fmul z f in
  let o1 := anchored m world z1 in
  let world1 := screenToWorld m o1 z1 in
  let z2 := fmul z1 g in
  let o2 := anchored m world1 z2 in
  let world2 := screenToWorld m o2 z2 in
  flt (of_int 0) z1 -> is_finite z1 = true -> is_finite world1 = true ->
  Qabs (F2Q world1 - F2Q world) <= anchorTolerance (F2Q world) (F2Q o1) (F2Q z1) /\
  (flt (of_int 0) z2 -> is_finite z2 = true -> is_finite world2 = true ->
   Qabs (F2Q world2 - F2Q world)
   <= anchorTolerance (F2Q world) (F2Q o1) (F2Q z1)
      + anchorTolerance (F2Q world1) (F2Q o2) (F2Q z2)) /\
  (forall v mx my dy v',
     handle v (FL_MOUSEWHEEL mx my dy) = Some v' ->
     zoom (canvas v') = fmul (zoom (canvas v)) (zoomFactor dy) /\
     offsetX (canvas v')
     = anchored mx (screenToWorld mx (offsetX (canvas v)) (zoom (canvas v))) (zoom (canvas v')) /\
     offsetY (canvas v')
     = anchored my (screenToWorld my (offsetY (canvas v)) (zoom (canvas v))) (zoom (canvas v'))) /\
  (exists v, zoomedTwice = Some v /\
             screenToWorld 400 (offsetX (canvas v)) (zoom (canvas v)) = of_int 400 /\
             screenToWorld 300 (offsetY (canvas v)) (zoom (canvas v)) = of_int 300).
Proof.
  intros world z1 o1 world1 z2 o2 world2 P1 F1 W1.
  destruct (anchor_step m world z1 P1 F1 W1) as (_ & _ & B1).
  fold o1 world1 in B1.
  split; [exact B1 |]. split; [| split].
  - intros P2 F2 W2.
    destruct (anchor_step m world1 z2 P2 F2 W2) as (_ & _ & B2).
    fold o2 world2 in B2.
    assert (E : F2Q world2 - F2Q world
                == (F2Q world2 - F2Q world1) + (F2Q world1 - F2Q world)) by ring.
    rewrite (Qabs_wd _ _ E).
    pose proof (Qabs_triangle (F2Q world2 - F2Q world1) (F2Q world1 - F2Q world)) as T.
    lra.
  - intros v mx my dy v' H. destruct (wheel_anchor v v' mx my dy H) as (Ez & Ex & Ey).
    rewrite Ex, Ey, Ez. repeat split.
  - exact zoomedTwice_exact.
Qed.

Lemma anchor_preserved_witness :
  let world := screenToWorld 400 (of_int 0) (of_int 1) in
  let z1 := fmul (of_int 1) (zoomFactor (-1)) in
  let o1 := anchored 400 world z1 in
  let world1 := screenToWorld 400 o1 z1 in
  flt (of_int 0) z1 /\ is_finite z1 = true /\ is_finite world1 = true /\
  Qabs (F2Q world1 - F2Q world) <= anchorTolerance (F2Q world) (F2Q o1) (F2Q z1).
Proof.
  intros world z1 o1 world1.
  assert (P : flt (of_int 0) z1) by (vm_compute; repeat split).
  assert (F : is_finite z1 = true) by (vm_compute; reflexivity).
  assert (W : is_finite world1 = true) by (vm_compute; reflexivity).
  split; [exact P |]. split; [exact F |]. split; [exact W |].
  exact (proj1 (anchor_preserved 400 (of_int 0) (of_int 1) (zoomFactor (-1)) (zoomFactor (-1))
                  P F W)).
Defined.

(** C3 as stated fails at the largest finite zoom, one wheel step in about
    pixel 400: the new zoom is infinite, and the world coordinate under the
    pixel, finite before, is a NaN after. *)
Lemma anchor_overflows :
  let world := screenToWorld 400 (of_int 0) maxFloat in
  let z1 := fmul maxFloat (zoomFactor (-1)) in
  let world1 := screenToWorld 400 (anchored 400 world z1) z1 in
  flt (of_int 0) maxFloat /\ flt (of_int 0) (zoomFactor (-1)) /\
  is_finite world = true /\ z1 = S754_infinity false /\ world1 = S754_nan.
Proof.
  intros world z1 world1.
  split; [vm_compute; repeat split |]. split; [vm_compute; repeat split |].
  split; [vm_compute; reflexivity |]. split; [vm_compute; reflexivity |].
  vm_compute. reflexivity.
Qed.

(** ** The tile range against the viewport *)

Open Scope Q_scope.

Lemma eta32_le : eta32 <= 1 # 1000000000000.
Proof. vm_compute. discriminate. Qed.

(** [1 / zoom] as [draw] rounds it, against the exact inverse. *)
Lemma invZoom_error (z : float) :
  valid z = true -> flt (of_int 0) z -> is_finite (fdiv (of_int 1) z) = true ->
  near eta32 (F2Q (fdiv (of_int 1) z)) (/ F2Q z) /\ 0 <= / F2Q z.
Proof.
  intros V P F. destruct (pos_cases z V P) as [-> | (m & e & -> & Pz)].
  - split; [unfold near |]; vm_compute; discriminate.
  - split.
    + apply (near_comp eta32 _ _ (F2Q (of_int 1) / F2Q (S754_finite false m e)) _
               (Qeq_refl _)); [| apply fdiv_error; exact F].
      rewrite F2Q_1. unfold Qdiv. ring.
    + apply Qinv_le_0_compat. pose proof (pow2_pos (-149)). lra.
Qed.

Lemma finite_range (o : float) :
  valid o = true -> is_finite o = true -> - 2 ^ 128 <= F2Q o /\ F2Q o <= 2 ^ 128.
Proof.
  intros V F. destruct (F2Q_representable o V F) as (_ & _ & _ & _ & _ & Lo & Hi).
  split; lra.
Qed.

(** The left end of the range: a tile whose right side is more than
    [slack * (i + 1)] world pixels right of the left side of the viewport
    is not cut off by [floor]. *)
Lemma cover_left (o z : float) (i : Z) :
  valid o = true -> valid z = true -> flt (of_int 0) z -> (0 <= i)%Z ->
  let lo := fdiv (fmul (fneg o) (fdiv (of_int 1) z)) (of_int TILE_SIZE) in
  is_finite lo = true ->
  worldOf 0 o z + slack * inject_Z (i + 1) < inject_Z (TILE_SIZE * (i + 1)) ->
  F2Q lo < inject_Z (i + 1).
Proof.
  intros Vo V P I lo Flo H. unfold lo in *. clear lo.
  pose proof (F2Q_div16 (fmul (fneg o) (fdiv (of_int 1) z))) as D1.
  rewrite of_int_TILE_SIZE in *.
  pose proof (fdiv_finite_inv _ _ _ _ Flo) as Fa.
  destruct (fmul_finite_inv _ _ Fa) as [Fn Fi].
  rewrite is_finite_fneg in Fn.
  destruct (invZoom_cases z V P Fi) as [R0 R1].
  destruct (invZoom_error z V P Fi) as [Nz Rz].
  destruct (finite_range o Vo Fn) as [O1 O2].
  pose proof (near_comp _ _ _ _ _ (Qeq_refl _) D1 (fdiv_error _ _ _ _ Flo)) as N1.
  assert (D3 : F2Q (fneg o) * F2Q (fdiv (of_int 1) z) == F2Q (fdiv (of_int 1) z) * - F2Q o)
    by (rewrite F2Q_fneg; ring).
  pose proof (near_comp _ _ _ _ _ (Qeq_refl _) D3 (fmul_error _ _ Fa)) as N2.
  assert (I1 : 1 <= inject_Z (i + 1)).
  { change 1 with (inject_Z 1). rewrite <- Zle_Qle. lia. }
  unfold worldOf, slack, TILE_SIZE, Qdiv in H.
  rewrite inject_Z_mult in H. change (inject_Z 16) with 16 in H. change (inject_Z 0) with 0 in H.
  pose proof (F2Q_fmul _ _ Fa) as Ea. pose proof (F2Q_fdiv _ _ _ _ Flo) as Elo.
  assert (S16 : F2Q (S754_finite false 8388608 (-19)) == 16) by reflexivity.
  destruct (Qlt_le_dec 0 (- F2Q o)) as [Pos | Neg].
  - pose proof (near_scale _ _ _ _ (Qlt_le_weak _ _ Pos) Nz) as N3.
    apply (near_weaken _ (1 # 4194304)) in N3; [| apply eta32_scale; lra].
    assert (Y3 : 0 <= / F2Q z * - F2Q o) by (apply Qmult_le_0_compat; lra).
    apply (near_upper _ _ _ Y3) in N3.
    assert (Y2 : 0 <= F2Q (fdiv (of_int 1) z) * - F2Q o) by (apply Qmult_le_0_compat; lra).
    apply (near_upper _ _ _ Y2) in N2.
    assert (Y1 : 0 <= F2Q (fmul (fneg o) (fdiv (of_int 1) z)) * (1 # 16)).
    { rewrite Ea. assert (0 <= rnd (F2Q (fneg o) * F2Q (fdiv (of_int 1) z))); [| lra].
      apply rnd_nonneg. rewrite D3. exact Y2. }
    apply (near_upper _ _ _ Y1) in N1.
    pose proof eta32_le as E1. destruct eta32_small as (E0 & _).
    remember (F2Q (fdiv (fmul (fneg o) (fdiv (of_int 1) z)) (S754_finite false 8388608 (-19))))
      as tl eqn:X1.
    remember (F2Q (fmul (fneg o) (fdiv (of_int 1) z))) as a eqn:X2.
    remember (F2Q (fdiv (of_int 1) z)) as r eqn:X3.
    remember (/ F2Q z) as rz eqn:X4. remember (F2Q o) as oq eqn:X5.
    remember (inject_Z (i + 1)) as n eqn:X6.
    clear X1 X2 X3 X4 X5 X6 Ea Elo D1 D3.
    rewrite u32_eq in *.
    assert (H' : rz * - oq < (16 - (1 # 131072)) * n) by lra.
    lra.
  - assert (A0 : F2Q (fmul (fneg o) (fdiv (of_int 1) z)) <= 0).
    { rewrite Ea. rewrite <- rnd_0. apply rnd_mono. rewrite F2Q_fneg.
      assert (0 <= F2Q o * F2Q (fdiv (of_int 1) z)) by (apply Qmult_le_0_compat; lra). lra. }
    assert (T0 : F2Q (fdiv (fmul (fneg o) (fdiv (of_int 1) z)) (S754_finite false 8388608 (-19)))
                 <= 0).
    { rewrite Elo. rewrite <- rnd_0. apply rnd_mono. rewrite S16.
      unfold Qdiv. assert (0 <= - F2Q (fmul (fneg o) (fdiv (of_int 1) z)) * / 16);
        [apply Qmult_le_0_compat; [lra | discriminate] | lra]. }
    lra.
Qed.

(** The right end of the range: a tile whose left side is more than
    [slack * (i + 1)] world pixels left of the right side of the viewport
    is not cut off by [ceil]. The width of the viewport is below [2^24], so
    that its conversion to [float] is exact. *)
Lemma cover_right (o z : float) (W i : Z) :
  valid o = true -> valid z = true -> flt (of_int 0) z -> (0 <= i)%Z ->
  (Z.abs W < 2 ^ 24)%Z ->
  let hi := fdiv (fmul (fsub (of_int W) o) (fdiv (of_int 1) z)) (of_int TILE_SIZE) in
  is_finite hi = true ->
  inject_Z (TILE_SIZE * i) + slack * inject_Z (i + 1) < worldOf W o z ->
  inject_Z i < F2Q hi.
Proof.
  intros Vo V P I HW hi Fhi H. unfold hi in *. clear hi.
  pose proof (F2Q_div16 (fmul (fsub (of_int W) o) (fdiv (of_int 1) z))) as D1.
  rewrite of_int_TILE_SIZE in *.
  pose proof (fdiv_finite_inv _ _ _ _ Fhi) as Fb.
  destruct (fmul_finite_inv _ _ Fb) as [Fd Fi].
  destruct (fsub_finite_inv _ _ Fd) as [Fw Fo].
  destruct (invZoom_cases z V P Fi) as [R0 R1].
  destruct (invZoom_error z V P Fi) as [Nz Rz].
  destruct (finite_range o Vo Fo) as [O1 O2].
  destruct (of_int_exact W HW) as [_ EW].
  assert (I0 : 0 <= inject_Z i).
  { change 0 with (inject_Z 0). rewrite <- Zle_Qle. exact I. }
  assert (I1 : inject_Z (i + 1) == inject_Z i + 1) by (rewrite inject_Z_plus; reflexivity).
  assert (W1 : inject_Z W <= 2 ^ 24).
  { rewrite <- pow2_Z by lia. rewrite <- Zle_Qle. lia. }
  assert (P24 : 2 ^ 24 <= 2 ^ 128) by (apply pow2_le; lia).
  unfold worldOf, slack, TILE_SIZE, Qdiv in H.
  rewrite inject_Z_mult in H. change (inject_Z 16) with 16 in H.
  (* the exact width is positive *)
  assert (D0 : 0 < inject_Z W - F2Q o).
  { destruct (Qlt_le_dec 0 (inject_Z W - F2Q o)) as [G | G]; [exact G | exfalso].
    assert ((inject_Z W - F2Q o) * / F2Q z <= 0); [| lra].
    assert (0 <= - (inject_Z W - F2Q o) * / F2Q z) by (apply Qmult_le_0_compat; lra). lra. }
  pose proof (near_comp _ _ _ _ _ (Qeq_refl _) D1 (fdiv_error _ _ _ _ Fhi)) as N1.
  pose proof (fmul_error _ _ Fb) as N2.
  assert (D5 : F2Q (of_int W) - F2Q o == inject_Z W - F2Q o) by (rewrite EW; reflexivity).
  pose proof (near_comp _ _ _ _ _ (Qeq_refl _) D5 (fsub_error _ _ Fd)) as N5.
  assert (Sd : 0 <= F2Q (fsub (of_int W) o)).
  { rewrite <- (F2X_F2Q _ Fd), (F2X_fsub _ _ Fw Fo). apply rnd_nonneg. lra. }
  pose proof (near_scale _ _ _ _ R0 N5) as N3.
  apply (near_weaken _ (1 # 4194304)) in N3; [| apply eta32_scale; assumption].
  pose proof (near_scale _ _ _ _ (Qlt_le_weak _ _ D0) Nz) as N4.
  assert (E129 : eta32 * (inject_Z W - F2Q o) <= 1 # 2097152).
  { destruct eta32_small as (E0 & E1 & _).
    assert (eta32 * (inject_Z W - F2Q o) <= eta32 * (2 * 2 ^ 128));
      [apply Qmult_le_l; [exact E0 | lra] | lra]. }
  apply (near_weaken _ _ _ _ E129) in N4.
  assert (Y4 : 0 <= / F2Q z * (inject_Z W - F2Q o)) by (apply Qmult_le_0_compat; lra).
  apply (near_lower _ _ _ Y4) in N4.
  assert (Y3 : 0 <= (inject_Z W - F2Q o) * F2Q (fdiv (of_int 1) z))
    by (apply Qmult_le_0_compat; lra).
  apply (near_lower _ _ _ Y3) in N3.
  assert (Y2 : 0 <= F2Q (fsub (of_int W) o) * F2Q (fdiv (of_int 1) z))
    by (apply Qmult_le_0_compat; lra).
  apply (near_lower _ _ _ Y2) in N2.
  assert (Y1 : 0 <= F2Q (fmul (fsub (of_int W) o) (fdiv (of_int 1) z)) * (1 # 16)).
  { rewrite (F2Q_fmul _ _ Fb).
    assert (0 <= rnd (F2Q (fsub (of_int W) o) * F2Q (fdiv (of_int 1) z))); [| lra].
    apply rnd_nonneg. exact Y2. }
  apply (near_lower _ _ _ Y1) in N1.
  pose proof eta32_le as E1. destruct eta32_small as (E0 & _).
  remember (F2Q (fdiv (fmul (fsub (of_int W) o) (fdiv (of_int 1) z))
                   (S754_finite false 8388608 (-19)))) as tr eqn:X1.
  remember (F2Q (fmul (fsub (of_int W) o) (fdiv (of_int 1) z))) as b eqn:X2.
  remember (F2Q (fsub (of_int W) o)) as d eqn:X3.
  remember (F2Q (fdiv (of_int 1) z)) as r eqn:X4.
  remember (/ F2Q z) as rz eqn:X5. remember (F2Q o) as oq eqn:X6.
  remember (inject_Z W) as wq eqn:X7. remember (inject_Z i) as n eqn:X8.
  clear X1 X2 X3 X4 X5 X6 X7 X8 D1 D5.
  rewrite u32_eq in *. rewrite I1 in H.
  lra.
Qed.

Open Scope Z_scope.

(** Claim C1, amended. On a window far from the limits of [float] and
    [int] (offsets up to 2^20 pixels, zoom at least 1/64, sides up to 2^15
    pixels), [draw] computes a tile range. Whenever it computes one, at any
    zoom and offset, the range lies in [0, MAP_WIDTH) x [0, MAP_HEIGHT);
    and for a positive zoom and a viewport with sides below 2^24 pixels it
    holds every tile [(i, j)] of the map whose world-space quad reaches
    into the viewport rectangle, taken in exact arithmetic, by more than
    [(i + 1) / 2^17] world pixels across and [(j + 1) / 2^17] down: what
    the four roundings of each bound can lose. *)
Theorem tileRange_covers (t : TilemapWindow) :
  (moderate t -> exists r, tileRange t = Some r) /\
  (forall x0 y0 x1 y1, tileRange t = Some (x0, y0, x1, y1) ->
     (forall x y, x0 <= x < x1 -> y0 <= y < y1 -> in_map x y) /\
     (valid_window t -> flt (of_int 0) (zoom t) ->
      Z.abs (w t) < 2 ^ 24 -> Z.abs (h t) < 2 ^ 24 ->
      forall i j, in_map i j -> intersects_by slack t i j ->
                  x0 <= i < x1 /\ y0 <= j < y1)).
Proof.
  split; [apply tileRange_moderate |].
  intros x0 y0 x1 y1 R. apply tileRangeOf_Some in R.
  destruct R as ((F1 & F2 & F3 & F4) & -> & -> & -> & ->).
  split; [unfold in_map; intros x y X Y; lia |].
  intros (Vx & Vy & Vz) P HW HH i j [[I0 I1] [J0 J1]] (A & B & C & D).
  unfold tileLeft, tileTop, tileRight, tileBottom, viewLeft, viewTop, viewRight, viewBottom,
    invZoom in *.
  pose proof (cover_left _ _ i Vx Vz P I0 F1 A) as L1.
  pose proof (cover_right _ _ _ i Vx Vz P I0 HW F3 B) as L2.
  pose proof (cover_left _ _ j Vy Vz P J0 F2 C) as L3.
  pose proof (cover_right _ _ _ j Vy Vz P J0 HH F4 D) as L4.
  apply floor_le_int in L1, L3. apply ceiling_gt_int in L2, L4. lia.
Qed.

Lemma tileRange_covers_witness :
  exists v, nearMiss = Some v /\ tileRange (canvas v) = Some (5, 0, 50, 34) /\
            intersects_by slack (canvas v) 49 33 /\ (5 <= 49 < 50 /\ 0 <= 33 < 34).
Proof.
  eexists. split; [vm_compute; reflexivity |].
  match goal with |- tileRange (canvas ?a) = _ /\ _ => pose (v := a) end.
  assert (R : tileRange (canvas v) = Some (5, 0, 50, 34)) by (vm_compute; reflexivity).
  assert (IB : intersects_by slack (canvas v) 49 33) by (vm_compute; repeat split).
  split; [exact R |]. split; [exact IB |].
  refine (proj2 (proj2 (tileRange_covers (canvas v)) 5 0 50 34 R) _ _ _ _ 49 33 _ IB).
  - vm_compute. repeat split.
  - vm_compute. repeat split.
  - vm_compute. reflexivity.
  - vm_compute. reflexivity.
  - unfold in_map, MAP_WIDTH, MAP_HEIGHT. lia.
Defined.

(** C1 as stated fails in four ways, each at a positive zoom.
    One wheel step in and the scrollbar at 88, on a window far from every
    limit: the left side of the viewport is at world [88 / 1.1f], just
    below 80, inside tile 4, and the range starts at tile 5, since
    [88 * (1 / 1.1f)] rounds to 80.
    99 wheel steps in and the scrollbar at 1656682940: tile 8264 ends 81
    pixels right of the left side of the viewport, and the range is the one
    tile 8265.
    A view 16777217 pixels wide, whose width is not a [float], dragged
    16777200 pixels right: the last pixel column shows tile 1, and the
    range ends after tile 0.
    170 wheel steps out of the initial view: the zoom is about [1.7e-8] and
    the right side of the viewport, in tiles, is beyond [INT_MAX]; its
    conversion to [int] has no defined result. *)
Lemma visible_tile_culled :
  (exists v, nearMiss = Some v /\ moderate (canvas v) /\
             tileRange (canvas v) = Some (5, 0, 50, 34) /\
             in_map 4 0 /\ intersects (canvas v) 4 0) /\
  (exists v, deepZoom = Some v /\ valid_window (canvas v) /\
             (0 < F2Q (zoom (canvas v)))%Q /\
             tileRange (canvas v) = Some (8265, 0, 8266, 1) /\
             in_map 8264 0 /\ intersects (canvas v) 8264 0 /\
             (81 <= F2Q (offsetX (canvas v))
                    + inject_Z (TILE_SIZE * 8265) * F2Q (zoom (canvas v)))%Q) /\
  (exists v, wideView = Some v /\ valid_window (canvas v) /\
             w (canvas v) = 16777217 /\ (F2Q (zoom (canvas v)) == 1)%Q /\
             tileRange (canvas v) = Some (0, 0, 1, 37) /\
             in_map 1 0 /\ intersects_by slack (canvas v) 1 0) /\
  (exists v, farOut = Some v /\ valid_window (canvas v) /\
             (0 < F2Q (zoom (canvas v)))%Q /\ tileRange (canvas v) = None).
Proof.
  split; [| split; [| split]].
  - eexists. split; [vm_compute; reflexivity |].
    split; [unfold moderate; repeat split; vm_compute; discriminate |].
    split; [vm_compute; reflexivity |].
    split; [unfold in_map, MAP_WIDTH, MAP_HEIGHT; lia |].
    vm_compute. repeat split.
  - eexists. split; [vm_compute; reflexivity |].
    split; [vm_compute; repeat split |]. split; [vm_compute; reflexivity |].
    split; [vm_compute; reflexivity |].
    split; [unfold in_map, MAP_WIDTH, MAP_HEIGHT; lia |].
    split; [vm_compute; repeat split |]. vm_compute. discriminate.
  - eexists. split; [vm_compute; reflexivity |].
    split; [vm_compute; repeat split |]. split; [reflexivity |].
    split; [vm_compute; reflexivity |]. split; [vm_compute; reflexivity |].
    split; [unfold in_map, MAP_WIDTH, MAP_HEIGHT; lia |].
    vm_compute. repeat split.
  - eexists. split; [vm_compute; reflexivity |].
    split; [vm_compute; repeat split |]. split; [vm_compute; reflexivity |].
    vm_compute. reflexivity.
Qed.

(** * Further properties of the program *)

Open Scope Z_scope.

(** ** The tile range is tight *)

(** [TilemapWindow::draw], tile range. The range that [draw] computes is
    exactly the set of the tiles of the map that overlap the viewport
    rectangle: every tile it holds is on the map and overlaps, and every
    tile of the map that overlaps is in it. *)
Theorem tileRange_exact (t : TilemapWindow) (x0 y0 x1 y1 : Z) :
  tileRange t = Some (x0, y0, x1, y1) ->
  forall i j, (x0 <= i < x1 /\ y0 <= j < y1) <-> (in_map i j /\ overlaps t i j).
Proof.
  intros R i j. pose proof (tileRange_ok t _ R) as [In Sup]. split.
  - intros [I J]. split; [apply In; assumption |].
    apply tileRangeOf_Some in R. destruct R as (_ & -> & -> & -> & ->).
    unfold overlaps.
    pose proof (Qlt_floor (F2Q (tileLeft t))) as A1.
    pose proof (Qlt_floor (F2Q (tileTop t))) as A2.
    pose proof (Qceiling_lt (F2Q (tileRight t))) as B1.
    pose proof (Qceiling_lt (F2Q (tileBottom t))) as B2.
    assert (C1 : (inject_Z (Qfloor (F2Q (tileLeft t)) + 1) <= inject_Z (i + 1))%Q)
      by (rewrite <- Zle_Qle; lia).
    assert (C2 : (inject_Z (Qfloor (F2Q (tileTop t)) + 1) <= inject_Z (j + 1))%Q)
      by (rewrite <- Zle_Qle; lia).
    assert (D1 : (inject_Z i <= inject_Z (Qceiling (F2Q (tileRight t)) - 1))%Q)
      by (rewrite <- Zle_Qle; lia).
    assert (D2 : (inject_Z j <= inject_Z (Qceiling (F2Q (tileBottom t)) - 1))%Q)
      by (rewrite <- Zle_Qle; lia).
    repeat split; lra.
  - intros [M O]. apply Sup; assumption.
Qed.

Lemma tileRange_exact_witness :
  tileRange scenarioA = Some (0, 0, 50, 38) /\
  forall i j, (0 <= i < 50 /\ 0 <= j < 38) <-> (in_map i j /\ overlaps scenarioA i j).
Proof.
  assert (R : tileRange scenarioA = Some (0, 0, 50, 38)) by (vm_compute; reflexivity).
  split; [exact R | exact (tileRange_exact scenarioA 0 0 50 38 R)].
Defined.

(** ** What an input leaves alone *)

Lemma updateHoveredTile_frame (t t' : TilemapWindow) (mx my : Z) :
  updateHoveredTile t mx my = Some t' ->
  exists hx hy, t' = set_hovered t hx hy.
Proof.
  unfold updateHoveredTile. intros H.
  apply bind_Some in H. destruct H as (tx & _ & H).
  apply bind_Some in H. destruct H as (ty & _ & H).
  destruct ((0 <=? tx) && (0 <=? ty) && (tx <? MAP_WIDTH) && (ty <? MAP_HEIGHT));
    apply Some_inj in H; subst t'; eexists; eexists; reflexivity.
Qed.

(** [TilemapWindow::handle], the scrollbar callbacks and
    [TilemapScrollView::resize]. Each input touches its own part of the
    view state. The hovered tile changes on [FL_MOVE] only: it is not
    recomputed when the content moves under a resting pointer. The zoom
    changes on [FL_MOUSEWHEEL] only. The offset stays as it is on a push, a
    release, a move and a resize. The size of the canvas changes on a
    resize only. *)
Theorem input_frame (v v' : TilemapScrollView) (i : Input) :
  step v i = Some v' ->
  ((forall x y, i <> CanvasEvent (FL_MOVE x y)) ->
   hoveredX (canvas v') = hoveredX (canvas v) /\
   hoveredY (canvas v') = hoveredY (canvas v)) /\
  ((forall x y dy, i <> CanvasEvent (FL_MOUSEWHEEL x y dy)) ->
   zoom (canvas v') = zoom (canvas v)) /\
  ((forall x y, i <> CanvasEvent (FL_DRAG x y)) ->
   (forall x y dy, i <> CanvasEvent (FL_MOUSEWHEEL x y dy)) ->
   (forall pos, i <> HScroll pos) -> (forall pos, i <> VScroll pos) ->
   offsetX (canvas v') = offsetX (canvas v) /\
   offsetY (canvas v') = offsetY (canvas v)) /\
  ((forall X Y W H, i <> Resize X Y W H) ->
   w (canvas v') = w (canvas v) /\ h (canvas v') = h (canvas v)).
Proof.
  intros H. destruct i as [e | pos | pos | X Y W H']; simpl in H.
  - destruct e as [b x y | x y | | x y dy | x y |]; simpl in H.
    + assert (E : canvas v' = canvas v \/
                  canvas v' = set_lastMouse (set_dragging (canvas v) true) x y).
      { destruct (b =? FL_LEFT_MOUSE); apply Some_inj in H; subst v'; auto. }
      destruct E as [-> | ->]; repeat split; reflexivity.
    + assert (E : canvas v' = canvas v \/
                  exists ox oy, canvas v' = set_lastMouse (set_offset (canvas v) ox oy) x y).
      { destruct (dragging (canvas v)).
        - apply bind_Some in H. destruct H as (dx & _ & H).
          apply bind_Some in H. destruct H as (dy & _ & H).
          apply notifyParent_canvas in H. right. eexists. eexists. exact H.
        - apply Some_inj in H. subst v'. auto. }
      destruct E as [-> | (ox & oy & ->)].
      * repeat split; reflexivity.
      * split; [intros _; split; reflexivity |]. split; [intros _; reflexivity |].
        split; [| intros _; split; reflexivity].
        intros N. exfalso. apply (N x y). reflexivity.
    + apply Some_inj in H. subst v'. repeat split; reflexivity.
    + apply notifyParent_canvas in H. rewrite H.
      split; [intros _; split; reflexivity |].
      split; [intros N; exfalso; apply (N x y dy); reflexivity |].
      split; [| intros _; split; reflexivity].
      intros _ N. exfalso. apply (N x y dy). reflexivity.
    + apply bind_Some in H. destruct H as (t' & U & H). apply Some_inj in H. subst v'.
      destruct (updateHoveredTile_frame _ _ _ _ U) as (hx & hy & ->).
      split; [intros N; exfalso; apply (N x y); reflexivity |].
      repeat split; reflexivity.
    + apply Some_inj in H. subst v'. repeat split; reflexivity.
  - destruct (Int.in_range pos); [| discriminate].
    unfold hscrollCallback in H. apply bind_Some in H. destruct H as (n & _ & H).
    apply Some_inj in H. subst v'.
    split; [intros _; split; reflexivity |]. split; [intros _; reflexivity |].
    split; [| intros _; split; reflexivity].
    intros _ _ N. exfalso. apply (N pos). reflexivity.
  - destruct (Int.in_range pos); [| discriminate].
    unfold vscrollCallback in H. apply bind_Some in H. destruct H as (n & _ & H).
    apply Some_inj in H. subst v'.
    split; [intros _; split; reflexivity |]. split; [intros _; reflexivity |].
    split; [| intros _; split; reflexivity].
    intros _ _ _ N. exfalso. apply (N pos). reflexivity.
  - unfold resize in H. apply bind_Some in H. destruct H as (cw & _ & H).
    apply bind_Some in H. destruct H as (ch & _ & H).
    apply updateScrollbars_canvas in H. rewrite H.
    split; [intros _; split; reflexivity |]. split; [intros _; reflexivity |].
    split; [intros _ _ _ _; split; reflexivity |].
    intros N. exfalso. apply (N X Y W H'). reflexivity.
Qed.

(** ** Scrollbars *)

Lemma updateScrollbars_canvas_only (v1 v2 : TilemapScrollView) :
  canvas v1 = canvas v2 -> updateScrollbars v1 = updateScrollbars v2.
Proof. unfold updateScrollbars. intros ->. reflexivity. Qed.

Lemma updateScrollbars_again (v v' : TilemapScrollView) :
  updateScrollbars v = Some v' -> updateScrollbars v' = Some v'.
Proof.
  intros H. pose proof (updateScrollbars_canvas v v' H) as C.
  rewrite (updateScrollbars_canvas_only v' v C). exact H.
Qed.

Lemma trunc_neg_of_int (n : Z) :
  Z.abs n < 2 ^ 24 -> Qtrunc (F2Q (fneg (of_int (- n)))) = n.
Proof.
  intros B. destruct (of_int_exact (- n)) as [_ E]; [lia |].
  rewrite <- (Qtrunc_Z n) at 2. apply Qtrunc_comp.
  rewrite F2Q_fneg, E, inject_Z_opp. ring.
Qed.

(** The scrollbar callbacks and [TilemapScrollView::updateScrollbars]. A
    scrollbar moved to a position below [2^24] in magnitude sets the offset
    to its negation, and the next [updateScrollbars] finds the scrollbar
    where the user left it; [updateScrollbars] changes nothing when it runs
    a second time. *)
Theorem scroll_round_trip (v v1 v2 : TilemapScrollView) (pos : Z) :
  Z.abs pos < 2 ^ 24 -> updateScrollbars v1 = Some v2 ->
  (step v (HScroll pos) = Some v1 ->
   offsetX (canvas v1) = of_int (- pos) /\ sb_pos (hscroll v2) = pos) /\
  (step v (VScroll pos) = Some v1 ->
   offsetY (canvas v1) = of_int (- pos) /\ sb_pos (vscroll v2) = pos) /\
  updateScrollbars v2 = Some v2.
Proof.
  intros B U. destruct (updateScrollbars_synced v1 v2 U) as [C [SH SV]].
  rewrite C in SH, SV. split; [| split; [| exact (updateScrollbars_again v1 v2 U)]].
  - intros S. simpl in S. destruct (Int.in_range pos); [| discriminate].
    unfold hscrollCallback in S. apply bind_Some in S. destruct S as (n & N & S).
    unfold Int.neg in N. apply checked_Some in N. destruct N as [-> _].
    apply Some_inj in S. subst v1. split; [reflexivity |].
    rewrite SH. cbn [sb_pos canvas with_canvas offsetX set_offset].
    apply trunc_neg_of_int. exact B.
  - intros S. simpl in S. destruct (Int.in_range pos); [| discriminate].
    unfold vscrollCallback in S. apply bind_Some in S. destruct S as (n & N & S).
    unfold Int.neg in N. apply checked_Some in N. destruct N as [-> _].
    apply Some_inj in S. subst v1. split; [reflexivity |].
    rewrite SV. cbn [sb_pos canvas with_canvas offsetY set_offset].
    apply trunc_neg_of_int. exact B.
Qed.

Lemma scroll_round_trip_witness :
  exists v v1 v2, start = Some v /\ step v (HScroll 56) = Some v1 /\
                  updateScrollbars v1 = Some v2 /\
                  offsetX (canvas v1) = of_int (- (56)) /\ sb_pos (hscroll v2) = 56.
Proof.
  eexists. eexists. eexists.
  split; [vm_compute; reflexivity |].
  match goal with |- step ?a _ = _ /\ _ => pose (v := a) end.
  split; [vm_compute; reflexivity |]. split; [vm_compute; reflexivity |].
  refine (proj1 (scroll_round_trip v _ _ 56 _ _) _).
  - vm_compute. reflexivity.
  - vm_compute. reflexivity.
  - vm_compute. reflexivity.
Defined.

(** Beyond [2^24] the offset, a [float], cannot hold every position. *)
Lemma scroll_round_trip_limit :
  forall v v1 v2,
    step v (HScroll 16777217) = Some v1 -> updateScrollbars v1 = Some v2 ->
    sb_pos (hscroll v2) = 16777216.
Proof.
  intros v v1 v2 S U. destruct (updateScrollbars_synced v1 v2 U) as [C [SH _]].
  rewrite C in SH. cbn [step] in S.
  change (Int.in_range 16777217) with true in S. cbv iota in S.
  unfold hscrollCallback in S. cbn [sb_pos hscroll set_pos] in S.
  change (Int.neg 16777217) with (Some (-16777217)) in S. cbn [bind] in S.
  apply Some_inj in S. subst v1. rewrite SH.
  cbn [sb_pos canvas with_canvas offsetX set_offset]. vm_compute. reflexivity.
Qed.

Lemma geometry_of_synced (v : TilemapScrollView) : synced v -> geometry_ok v.
Proof.
  unfold synced, geometry_ok. intros [E1 E2]. rewrite E1, E2.
  cbn [sb_size sb_first sb_total]. repeat split.
Qed.

Lemma geometry_frame (v v' : TilemapScrollView) :
  sb_size (hscroll v') = sb_size (hscroll v) -> sb_first (hscroll v') = sb_first (hscroll v) ->
  sb_total (hscroll v') = sb_total (hscroll v) ->
  sb_size (vscroll v') = sb_size (vscroll v) -> sb_first (vscroll v') = sb_first (vscroll v) ->
  sb_total (vscroll v') = sb_total (vscroll v) ->
  zoom (canvas v') = zoom (canvas v) -> w (canvas v') = w (canvas v) ->
  h (canvas v') = h (canvas v) ->
  geometry_ok v -> geometry_ok v'.
Proof.
  unfold geometry_ok, contentExtent. intros -> -> -> -> -> -> -> -> -> G. exact G.
Qed.

Lemma step_geometry (v v' : TilemapScrollView) (i : Input) :
  step v i = Some v' ->
  parentView (canvas v) = true /\ geometry_ok v ->
  parentView (canvas v') = true /\ geometry_ok v'.
Proof.
  intros H [P G]. destruct i as [e | pos | pos | X Y W H']; simpl in H.
  - destruct e as [b x y | x y | | x y dy | x y |]; simpl in H.
    + destruct (b =? FL_LEFT_MOUSE); apply Some_inj in H; subst v'; [| split; assumption].
      split; [exact P |]. apply (geometry_frame v); try reflexivity. exact G.
    + destruct (dragging (canvas v)); [| apply Some_inj in H; subst v'; split; assumption].
      apply bind_Some in H. destruct H as (dx & _ & H).
      apply bind_Some in H. destruct H as (dy & _ & H).
      unfold notifyParent in H. simpl in H. rewrite P in H.
      destruct (updateScrollbars_synced _ _ H) as [C S].
      split; [rewrite C; exact P | apply geometry_of_synced; exact S].
    + apply Some_inj in H. subst v'. split; [exact P |].
      apply (geometry_frame v); try reflexivity. exact G.
    + unfold notifyParent in H. simpl in H. rewrite P in H.
      destruct (updateScrollbars_synced _ _ H) as [C S].
      split; [rewrite C; exact P | apply geometry_of_synced; exact S].
    + apply bind_Some in H. destruct H as (t' & U & H). apply Some_inj in H. subst v'.
      destruct (updateHoveredTile_frame _ _ _ _ U) as (hx & hy & ->).
      split; [exact P |]. apply (geometry_frame v); try reflexivity. exact G.
    + apply Some_inj in H. subst v'. split; assumption.
  - destruct (Int.in_range pos); [| discriminate].
    unfold hscrollCallback in H. apply bind_Some in H. destruct H as (n & _ & H).
    apply Some_inj in H. subst v'. split; [exact P |].
    apply (geometry_frame v); try reflexivity. exact G.
  - destruct (Int.in_range pos); [| discriminate].
    unfold vscrollCallback in H. apply bind_Some in H. destruct H as (n & _ & H).
    apply Some_inj in H. subst v'. split; [exact P |].
    apply (geometry_frame v); try reflexivity. exact G.
  - unfold resize in H. apply bind_Some in H. destruct H as (cw & _ & H).
    apply bind_Some in H. destruct H as (ch & _ & H).
    destruct (updateScrollbars_synced _ _ H) as [C S].
    split; [rewrite C; exact P | apply geometry_of_synced; exact S].
Qed.

(** The constructor of [TilemapScrollView], [handle], the scrollbar
    callbacks, [resize] and [updateScrollbars]. In every state that the view
    reaches, each scrollbar has the side of the canvas as its page size,
    0 as its minimum and the larger of that side and [(int)] of the content
    extent at the current zoom as its range, so the range is never smaller
    than the page: the events that change the zoom or the size are the ones
    that recompute the scrollbars. *)
Theorem scrollbar_geometry (W H : Z) (inputs : list Input) (v0 v : TilemapScrollView) :
  newView W H = Some v0 -> run v0 inputs = Some v ->
  geometry_ok v /\
  sb_size (hscroll v) <= sb_total (hscroll v) /\
  sb_size (vscroll v) <= sb_total (vscroll v).
Proof.
  intros N R.
  assert (I : parentView (canvas v) = true /\ geometry_ok v).
  { apply (run_invariant _ step_geometry inputs v0 v R).
    unfold newView in N. apply bind_Some in N. destruct N as (cw & _ & N).
    apply bind_Some in N. destruct N as (ch & _ & N).
    destruct (updateScrollbars_synced _ _ N) as [C S].
    split; [rewrite C; reflexivity | apply geometry_of_synced; exact S]. }
  destruct I as [_ G]. split; [exact G |].
  destruct G as (A1 & _ & A3 & B1 & _ & B3). rewrite A1, A3, B1, B3. lia.
Qed.

Lemma scrollbar_geometry_witness :
  exists v0 v, newView 800 600 = Some v0 /\
               run v0 [wheelUp; Resize 0 0 1024 768; HScroll 100] = Some v /\
               geometry_ok v.
Proof.
  eexists. eexists.
  split; [vm_compute; reflexivity |]. split; [vm_compute; reflexivity |].
  refine (proj1 (scrollbar_geometry 800 600 [wheelUp; Resize 0 0 1024 768; HScroll 100]
                   _ _ _ _)).
  - vm_compute. reflexivity.
  - vm_compute. reflexivity.
Defined.

(** ** The direction of a wheel step *)

Open Scope Q_scope.

Lemma zoomFactor_out (dy : Z) :
  (0 < dy)%Z -> zoomFactor dy = S754_finite false 15099494 (-24).
Proof.
  intros H. unfold zoomFactor. destruct (Z.ltb_spec 0 dy); [| lia]. vm_compute. reflexivity.
Qed.

Lemma zoomFactor_in (dy : Z) :
  (dy <= 0)%Z -> zoomFactor dy = S754_finite false 9227469 (-23).
Proof.
  intros H. unfold zoomFactor. destruct (Z.ltb_spec 0 dy); [lia |]. vm_compute. reflexivity.
Qed.

Lemma F2Q_out : F2Q (S754_finite false 15099494 (-24)) == 15099494 # 16777216.
Proof. reflexivity. Qed.

Lemma F2Q_in : F2Q (S754_finite false 9227469 (-23)) == 9227469 # 8388608.
Proof. reflexivity. Qed.

Lemma eta32_tiny : 1000000 * eta32 <= 2 ^ (-130).
Proof. vm_compute. discriminate. Qed.

(** The product of a positive number and a positive finite factor. *)
Lemma fmul_positive (z f : float) (c : Q) :
  valid z = true -> is_finite z = true -> 0 < F2Q z ->
  is_finite f = true -> F2Q f == c -> 0 < c ->
  is_nan (fmul z f) = false /\ F2X (fmul z f) == rnd (F2Q z * c) /\
  rnd (F2Q z) == F2Q z /\
  (is_finite (fmul z f) = true ->
   F2Q z * c * (1 - u32) - eta32 <= F2Q (fmul z f) /\
   F2Q (fmul z f) <= F2Q z * c * (1 + u32) + eta32).
Proof.
  intros V Fz Pz Ff Ef Pc.
  split; [apply is_nan_fmul_finite; assumption |].
  split; [rewrite (fmul_finite z f Fz Ff), F2X_round32; apply rnd_comp; rewrite Ef; reflexivity |].
  split; [apply rnd_representable, F2Q_representable; assumption |].
  intros F. pose proof (fmul_error z f F) as N.
  assert (E : F2Q z * F2Q f == F2Q z * c) by (rewrite Ef; reflexivity).
  apply (near_comp _ _ _ _ _ (Qeq_refl _) E) in N.
  assert (Y : 0 <= F2Q z * c) by (apply Qmult_le_0_compat; lra).
  split; [apply (near_lower _ _ _ Y N) | apply (near_upper _ _ _ Y N)].
Qed.

Lemma zoom_out_le (z : float) :
  valid z = true -> flt (of_int 0) z ->
  fle (fmul z (S754_finite false 15099494 (-24))) z /\
  (is_finite z = true -> 2 ^ (-130) <= F2Q z ->
   flt (fmul z (S754_finite false 15099494 (-24))) z).
Proof.
  intros V P. destruct (pos_cases z V P) as [-> | (m & e & Ez & Lo)].
  { split; [| discriminate]. split; [reflexivity |]. split; [reflexivity |].
    apply Qle_refl. }
  assert (Fz : is_finite z = true) by (rewrite Ez; reflexivity).
  assert (Pz : 0 < F2Q z) by (pose proof (pow2_pos (-149)); lra).
  assert (Nz : is_nan z = false) by (rewrite Ez; reflexivity).
  destruct (fmul_positive z (S754_finite false 15099494 (-24)) _ V Fz Pz eq_refl F2Q_out
              ltac:(reflexivity))
    as (N & X & R & B).
  assert (L : F2X (fmul z (S754_finite false 15099494 (-24))) <= F2Q z).
  { assert (M : rnd (F2Q z * (15099494 # 16777216)) <= rnd (F2Q z)) by (apply rnd_mono; lra).
    rewrite X. lra. }
  split.
  - split; [exact N |]. split; [exact Nz |]. rewrite (F2X_F2Q z Fz). exact L.
  - intros _ Lo'. split; [exact N |]. split; [exact Nz |].
    rewrite (F2X_F2Q z Fz).
    assert (F : is_finite (fmul z (S754_finite false 15099494 (-24))) = true).
    { destruct (F2Q_representable z V Fz) as (_ & _ & _ & _ & _ & _ & Hi).
      apply finite_of_F2X; [exact N | | lra].
      rewrite X. pose proof (rnd_nonneg (F2Q z * (15099494 # 16777216))
                               ltac:(apply Qmult_le_0_compat; lra)).
      pose proof (pow2_pos 128). lra. }
    rewrite (F2X_F2Q _ F). destruct (B F) as [_ B2].
    pose proof eta32_tiny as T. destruct eta32_small as (E0 & _ & _).
    assert (H : 1000000 * eta32 <= F2Q z) by lra.
    clear - B2 H E0. rewrite u32_eq in B2. lra.
Qed.

Lemma zoom_in_ge (z : float) :
  valid z = true -> flt (of_int 0) z ->
  fle z (fmul z (S754_finite false 9227469 (-23))) /\
  (is_finite z = true -> 2 ^ (-130) <= F2Q z ->
   flt z (fmul z (S754_finite false 9227469 (-23)))).
Proof.
  intros V P. destruct (pos_cases z V P) as [-> | (m & e & Ez & Lo)].
  { split; [| discriminate]. split; [reflexivity |]. split; [reflexivity |].
    apply Qle_refl. }
  assert (Fz : is_finite z = true) by (rewrite Ez; reflexivity).
  assert (Pz : 0 < F2Q z) by (pose proof (pow2_pos (-149)); lra).
  assert (Nz : is_nan z = false) by (rewrite Ez; reflexivity).
  destruct (fmul_positive z (S754_finite false 9227469 (-23)) _ V Fz Pz eq_refl F2Q_in
              ltac:(reflexivity))
    as (N & X & R & B).
  split.
  - split; [exact Nz |]. split; [exact N |].
    assert (M : rnd (F2Q z) <= rnd (F2Q z * (9227469 # 8388608))) by (apply rnd_mono; lra).
    rewrite (F2X_F2Q z Fz), X. lra.
  - intros _ Lo'. split; [exact Nz |]. split; [exact N |].
    rewrite (F2X_F2Q z Fz).
    destruct (F2Q_representable z V Fz) as (_ & _ & _ & _ & _ & _ & Hi).
    destruct (is_finite (fmul z (S754_finite false 9227469 (-23)))) eqn:F.
    + rewrite (F2X_F2Q _ F). destruct (B eq_refl) as [B1 _].
      pose proof eta32_tiny as T. destruct eta32_small as (E0 & _ & _).
      assert (H : 1000000 * eta32 <= F2Q z) by lra.
      clear - B1 H E0. rewrite u32_eq in B1. lra.
    + destruct (fmul z (S754_finite false 9227469 (-23))) as [s | s | | s m' e'] eqn:D;
        try discriminate.
      destruct s.
      * exfalso. change (F2X (S754_infinity true)) with (- 2 ^ 128) in X.
        pose proof (rnd_nonneg (F2Q z * (9227469 # 8388608))
                      ltac:(apply Qmult_le_0_compat; lra)).
        pose proof (pow2_pos 128). lra.
      * change (F2X (S754_infinity false)) with (2 ^ 128). exact Hi.
Qed.

(** [TilemapWindow::handle], [FL_MOUSEWHEEL]. A wheel step with
    [event_dy() > 0] never raises a positive zoom, and any other wheel step
    never lowers it; from [2^-130] up, a finite zoom changes strictly. *)
Theorem wheel_direction (v v' : TilemapScrollView) (mx my dy : Z) :
  handle v (FL_MOUSEWHEEL mx my dy) = Some v' ->
  valid (zoom (canvas v)) = true -> flt (of_int 0) (zoom (canvas v)) ->
  ((0 < dy)%Z ->
   fle (zoom (canvas v')) (zoom (canvas v)) /\
   (is_finite (zoom (canvas v)) = true -> 2 ^ (-130) <= F2Q (zoom (canvas v)) ->
    flt (zoom (canvas v')) (zoom (canvas v)))) /\
  ((dy <= 0)%Z ->
   fle (zoom (canvas v)) (zoom (canvas v')) /\
   (is_finite (zoom (canvas v)) = true -> 2 ^ (-130) <= F2Q (zoom (canvas v)) ->
    flt (zoom (canvas v)) (zoom (canvas v')))).
Proof.
  intros H V P. rewrite (wheel_zoom v v' mx my dy H). split; intros D.
  - rewrite (zoomFactor_out dy D). apply zoom_out_le; assumption.
  - rewrite (zoomFactor_in dy D). apply zoom_in_ge; assumption.
Qed.

Lemma positive_flt (z : float) : is_finite z = true -> 0 < F2Q z -> flt (of_int 0) z.
Proof.
  intros F P. split; [reflexivity |]. split; [destruct z; try discriminate; reflexivity |].
  rewrite (F2X_F2Q z F). exact P.
Qed.

Lemma zoom_out_in (z : float) :
  valid z = true -> is_finite z = true -> 2 ^ (-130) <= F2Q z ->
  let z2 := fmul (fmul z (S754_finite false 15099494 (-24))) (S754_finite false 9227469 (-23)) in
  is_finite z2 = true /\ (989 # 1000) * F2Q z <= F2Q z2 /\ F2Q z2 < F2Q z.
Proof.
  intros V Fz Lo z2. unfold z2. clear z2.
  pose proof eta32_tiny as T. destruct eta32_small as (E0 & _ & _).
  assert (H : 1000000 * eta32 <= F2Q z) by lra.
  assert (Pz : 0 < F2Q z) by lra.
  destruct (zoom_out_le z V (positive_flt z Fz Pz)) as [(N1 & _ & L1) _].
  rewrite (F2X_F2Q z Fz) in L1.
  destruct (F2Q_representable z V Fz) as (_ & _ & _ & _ & _ & _ & Hi).
  remember (fmul z (S754_finite false 15099494 (-24))) as z1 eqn:D1.
  destruct (fmul_positive z (S754_finite false 15099494 (-24)) _ V Fz Pz eq_refl F2Q_out
              ltac:(reflexivity)) as (_ & X1 & _ & B1).
  rewrite <- D1 in X1, B1.
  assert (F1 : is_finite z1 = true).
  { apply finite_of_F2X; [exact N1 | | lra].
    rewrite X1. pose proof (rnd_nonneg (F2Q z * (15099494 # 16777216))
                              ltac:(apply Qmult_le_0_compat; lra)).
    pose proof (pow2_pos 128). lra. }
  destruct (B1 F1) as [B1a B1b]. rewrite u32_eq in B1a, B1b.
  assert (P1 : 0 < F2Q z1) by lra.
  assert (V1 : valid z1 = true) by (rewrite D1; apply valid_fmul).
  destruct (fmul_positive z1 (S754_finite false 9227469 (-23)) _ V1 F1 P1 eq_refl F2Q_in
              ltac:(reflexivity)) as (N2 & X2 & _ & B2).
  assert (F2 : is_finite (fmul z1 (S754_finite false 9227469 (-23))) = true).
  { apply finite_of_F2X; [exact N2 | |].
    - rewrite X2. pose proof (rnd_nonneg (F2Q z1 * (9227469 # 8388608))
                                ltac:(apply Qmult_le_0_compat; lra)).
      pose proof (pow2_pos 128). lra.
    - rewrite X2.
      assert (M : rnd (F2Q z1 * (9227469 # 8388608)) <= rnd (F2Q z)) by (apply rnd_mono; lra).
      pose proof (rnd_representable _ (F2Q_representable z V Fz)). lra. }
  split; [exact F2 |]. destruct (B2 F2) as [B2a B2b]. rewrite u32_eq in B2a, B2b.
  clear - B1a B1b B2a B2b H E0. split; lra.
Qed.

Lemma zoom_in_out (z : float) :
  valid z = true -> is_finite z = true -> 2 ^ (-130) <= F2Q z ->
  is_finite (fmul z (S754_finite false 9227469 (-23))) = true ->
  let z2 := fmul (fmul z (S754_finite false 9227469 (-23))) (S754_finite false 15099494 (-24)) in
  is_finite z2 = true /\ (989 # 1000) * F2Q z <= F2Q z2 /\ F2Q z2 < F2Q z.
Proof.
  intros V Fz Lo F1 z2. unfold z2. clear z2.
  pose proof eta32_tiny as T. destruct eta32_small as (E0 & _ & _).
  assert (H : 1000000 * eta32 <= F2Q z) by lra.
  assert (Pz : 0 < F2Q z) by lra.
  remember (fmul z (S754_finite false 9227469 (-23))) as z1 eqn:D1.
  destruct (fmul_positive z (S754_finite false 9227469 (-23)) _ V Fz Pz eq_refl F2Q_in
              ltac:(reflexivity)) as (_ & _ & _ & B1).
  rewrite <- D1 in B1. destruct (B1 F1) as [B1a B1b]. rewrite u32_eq in B1a, B1b.
  assert (P1 : 0 < F2Q z1) by lra.
  assert (V1 : valid z1 = true) by (rewrite D1; apply valid_fmul).
  destruct (zoom_out_le z1 V1 (positive_flt z1 F1 P1)) as [(N2 & _ & L2) _].
  rewrite (F2X_F2Q z1 F1) in L2.
  destruct (F2Q_representable z1 V1 F1) as (_ & _ & _ & _ & _ & _ & Hi).
  destruct (fmul_positive z1 (S754_finite false 15099494 (-24)) _ V1 F1 P1 eq_refl F2Q_out
              ltac:(reflexivity)) as (_ & X2 & _ & B2).
  assert (F2 : is_finite (fmul z1 (S754_finite false 15099494 (-24))) = true).
  { apply finite_of_F2X; [exact N2 | | lra].
    rewrite X2. pose proof (rnd_nonneg (F2Q z1 * (15099494 # 16777216))
                              ltac:(apply Qmult_le_0_compat; lra)).
    pose proof (pow2_pos 128). lra. }
  split; [exact F2 |]. destruct (B2 F2) as [B2a B2b]. rewrite u32_eq in B2a, B2b.
  clear - B1a B1b B2a B2b H E0. split; lra.
Qed.

(** [TilemapWindow::handle], [FL_MOUSEWHEEL]. Two wheel steps in opposite
    directions do not give the zoom back: the factors are 0.9 and 1.1, and a
    finite zoom of at least [2^-130] ends strictly smaller, between 98.9%
    and 100% of what it was, whichever step came first. *)
Theorem wheel_no_round_trip (v v1 v2 : TilemapScrollView) (x y dy x' y' dy' : Z) :
  handle v (FL_MOUSEWHEEL x y dy) = Some v1 ->
  handle v1 (FL_MOUSEWHEEL x' y' dy') = Some v2 ->
  valid (zoom (canvas v)) = true -> is_finite (zoom (canvas v)) = true ->
  2 ^ (-130) <= F2Q (zoom (canvas v)) -> is_finite (zoom (canvas v1)) = true ->
  ((0 < dy)%Z /\ (dy' <= 0)%Z) \/ ((dy <= 0)%Z /\ (0 < dy')%Z) ->
  is_finite (zoom (canvas v2)) = true /\
  (989 # 1000) * F2Q (zoom (canvas v)) <= F2Q (zoom (canvas v2)) /\
  F2Q (zoom (canvas v2)) < F2Q (zoom (canvas v)).
Proof.
  intros H1 H2 V F Lo F1 D.
  rewrite (wheel_zoom v1 v2 x' y' dy' H2).
  rewrite (wheel_zoom v v1 x y dy H1) in F1 |- *.
  destruct D as [[D D'] | [D D']].
  - rewrite (zoomFactor_out dy D), (zoomFactor_in dy' D'). apply zoom_out_in; assumption.
  - rewrite (zoomFactor_in dy D) in F1 |- *. rewrite (zoomFactor_out dy' D').
    apply zoom_in_out; assumption.
Qed.

(** ** The texture coordinates of a tile *)

Lemma rnd_eighths (k : Z) : (0 <= k <= 8)%Z -> rnd (inject_Z k * (1 # 8)) == inject_Z k * (1 # 8).
Proof.
  intros K. apply rnd_representable. exists k, (-3)%Z.
  assert (A : 0 <= inject_Z k) by (change 0 with (inject_Z 0); rewrite <- Zle_Qle; lia).
  assert (B : inject_Z k <= 8) by (change 8 with (inject_Z 8); rewrite <- Zle_Qle; lia).
  assert (P : 2 ^ 4 < 2 ^ 128) by (apply pow2_lt; lia). change (2 ^ 4) with 16 in P.
  pose proof (pow2_pos 128).
  split; [lia |]. split; [lia |]. split; [change (2 ^ (-3)) with (1 # 8); reflexivity |].
  split; lra.
Qed.

Lemma finite_not_nan (x : float) : is_finite x = true -> is_nan x = false.
Proof. destruct x; try discriminate; reflexivity. Qed.

Lemma tex_axis (k tw : Z) :
  (0 <= k < 8)%Z -> (128 <= tw < 2 ^ 24)%Z ->
  let u := fdiv (fmul (of_int k) (of_int TILE_SIZE)) (of_int tw) in
  let du := fdiv (of_int TILE_SIZE) (of_int tw) in
  fle (of_int 0) u /\ fle (fadd u du) (of_int 1) /\
  (tw = 128%Z ->
   F2Q u == inject_Z k * (1 # 8) /\ F2Q (fadd u du) == inject_Z (k + 1) * (1 # 8)).
Proof.
  intros K W u du.
  destruct (of_int_exact k ltac:(lia)) as [Fk Ek].
  destruct (of_int_exact tw ltac:(lia)) as [Fw Ew].
  assert (Kq : 0 <= inject_Z k /\ inject_Z k <= 7).
  { split; [change 0 with (inject_Z 0) | change 7 with (inject_Z 7)]; rewrite <- Zle_Qle; lia. }
  assert (Wq : 128 <= inject_Z tw).
  { change 128 with (inject_Z 128). rewrite <- Zle_Qle. lia. }
  assert (Pw : 0 < F2Q (of_int tw)) by (rewrite Ew; lra).
  destruct (positive_finite _ Fw Pw) as (mw & ew & Dw).
  (* the column in pixels *)
  assert (A : is_finite (fmul (of_int k) (of_int TILE_SIZE)) = true /\
              F2Q (fmul (of_int k) (of_int TILE_SIZE)) == 16 * inject_Z k).
  { assert (F : is_finite (fmul (of_int k) (of_int TILE_SIZE)) = true).
    { apply (fmul_bound _ _ 7 Fk); [rewrite of_int_TILE_SIZE; reflexivity | lia | |];
        rewrite Ek, F2Q_TILE_SIZE; change (2 ^ 7) with 128; lra. }
    split; [exact F |]. rewrite (F2Q_fmul _ _ F).
    rewrite (rnd_comp _ (inject_Z (16 * k))).
    - rewrite rnd_Z by lia. rewrite inject_Z_mult. reflexivity.
    - rewrite Ek, F2Q_TILE_SIZE, inject_Z_mult. change (inject_Z 16) with 16. ring. }
  destruct A as [Fa Ea].
  assert (Q1 : 0 <= 16 * inject_Z k / inject_Z tw /\ 16 * inject_Z k / inject_Z tw <= 7 * (1 # 8)).
  { split; [apply Qle_shift_div_l; lra | apply Qle_shift_div_r; lra]. }
  assert (Q2 : 0 <= 16 / inject_Z tw /\ 16 / inject_Z tw <= 1 * (1 # 8)).
  { split; [apply Qle_shift_div_l; lra | apply Qle_shift_div_r; lra]. }
  assert (Fu : is_finite u = true /\ F2Q u == rnd (16 * inject_Z k / inject_Z tw)).
  { assert (F : is_finite u = true).
    { unfold u. apply (fdiv_bound _ _ false mw ew 0 Fa Dw); [lia | |];
        rewrite Ea, Ew; change (2 ^ 0) with 1; lra. }
    split; [exact F |]. unfold u in *. rewrite Dw in F |- *. rewrite (F2Q_fdiv _ _ _ _ F).
    apply rnd_comp. rewrite <- Dw, Ea, Ew. reflexivity. }
  assert (Fd : is_finite du = true /\ F2Q du == rnd (16 / inject_Z tw)).
  { assert (F0 : is_finite (of_int TILE_SIZE) = true) by (rewrite of_int_TILE_SIZE; reflexivity).
    assert (F : is_finite du = true).
    { unfold du. apply (fdiv_bound _ _ false mw ew 0 F0 Dw); [lia | |];
        rewrite F2Q_TILE_SIZE, Ew; change (2 ^ 0) with 1; lra. }
    split; [exact F |]. unfold du in *. rewrite Dw in F |- *. rewrite (F2Q_fdiv _ _ _ _ F).
    apply rnd_comp. rewrite <- Dw, F2Q_TILE_SIZE, Ew. reflexivity. }
  destruct Fu as [Fu Eu], Fd as [Fd Ed].
  pose proof (rnd_eighths 7 ltac:(lia)) as R7. change (inject_Z 7) with 7 in R7.
  pose proof (rnd_eighths 1 ltac:(lia)) as R1. change (inject_Z 1) with 1 in R1.
  pose proof (rnd_eighths 8 ltac:(lia)) as R8. change (inject_Z 8) with 8 in R8.
  pose proof (rnd_mono _ _ (proj1 Q1)) as U0. rewrite rnd_0 in U0.
  pose proof (rnd_mono _ _ (proj2 Q1)) as U1.
  pose proof (rnd_mono _ _ (proj1 Q2)) as D0. rewrite rnd_0 in D0.
  pose proof (rnd_mono _ _ (proj2 Q2)) as D1.
  assert (Nu : is_nan u = false) by (apply finite_not_nan; exact Fu).
  assert (Ns : is_nan (fadd u du) = false) by (apply is_nan_fadd; assumption).
  split; [| split].
  - split; [reflexivity |]. split; [exact Nu |].
    change (F2X (of_int 0)) with 0. rewrite (F2X_F2Q u Fu), Eu. exact U0.
  - split; [exact Ns |]. split; [reflexivity |].
    change (F2X (of_int 1)) with (F2Q (of_int 1)). rewrite F2Q_1, (F2X_fadd u du Fu Fd).
    assert (S : F2Q u + F2Q du <= 8 * (1 # 8)) by lra.
    apply rnd_mono in S. lra.
  - intros ->. change (inject_Z 128) with 128 in *.
    assert (E1 : F2Q u == inject_Z k * (1 # 8)).
    { rewrite Eu. rewrite (rnd_comp _ (inject_Z k * (1 # 8))) by (field).
      apply rnd_eighths. lia. }
    assert (E2 : F2Q du == 1 # 8).
    { rewrite Ed. rewrite (rnd_comp _ (1 * (1 # 8))) by reflexivity. rewrite R1. reflexivity. }
    split; [exact E1 |].
    assert (B : - 2 ^ 128 < rnd (F2Q u + F2Q du) /\ rnd (F2Q u + F2Q du) < 2 ^ 128).
    { assert (S0 : 0 <= F2Q u + F2Q du) by lra. apply rnd_nonneg in S0.
      assert (S : F2Q u + F2Q du <= 8 * (1 # 8)) by lra. apply rnd_mono in S.
      assert (P : 2 ^ 0 < 2 ^ 128) by (apply pow2_lt; lia). change (2 ^ 0) with 1 in P.
      pose proof (pow2_pos 128). split; lra. }
    assert (Fs : is_finite (fadd u du) = true).
    { apply finite_of_F2X; [exact Ns | |]; rewrite (F2X_fadd u du Fu Fd); apply B. }
    rewrite <- (F2X_F2Q _ Fs), (F2X_fadd u du Fu Fd).
    rewrite (rnd_comp _ (inject_Z (k + 1) * (1 # 8))).
    + apply rnd_eighths. lia.
    + rewrite E1, E2, inject_Z_plus. change (inject_Z 1) with 1. ring.
Qed.

Lemma tileOfRand_range (r idx : Z) :
  (0 <= r)%Z -> tileOfRand r = Some idx ->
  (0 <= idx < 64)%Z /\ (0 <= Z.rem idx TILES_PER_ROW < 8)%Z /\
  (0 <= Z.quot idx TILES_PER_ROW < 8)%Z.
Proof.
  intros R H. unfold tileOfRand in H. simpl in H. apply Some_inj in H. subst idx.
  assert (A : (0 <= Z.rem r 64 < 64)%Z) by (apply Z.rem_bound_pos; lia).
  split; [exact A |]. unfold TILES_PER_ROW. split.
  - apply Z.rem_bound_pos; lia.
  - split; [apply Z.quot_pos; lia | apply Z.quot_lt_upper_bound; lia].
Qed.

(** The constructor of [TilemapWindow] and [TilemapWindow::drawTile]. Every
    tile index that the constructor stores, [rand() % 64], selects a cell of
    the 8 x 8 atlas: for a tileset at least 128 pixels wide and high, the
    textured quad [(u, v) .. (u + du, v + dv)] lies in the unit square of
    the texture, and for a 128 x 128 tileset it is exactly the cell of
    column [index % 8] and row [index / 8]. *)
Theorem texture_in_atlas (r idx tw th : Z) :
  (0 <= r)%Z -> tileOfRand r = Some idx ->
  (128 <= tw < 2 ^ 24)%Z -> (128 <= th < 2 ^ 24)%Z ->
  let c := texCoords tw th idx in
  (0 <= idx < 64)%Z /\
  fle (of_int 0) (tex_u c) /\ fle (texRight c) (of_int 1) /\
  fle (of_int 0) (tex_v c) /\ fle (texBottom c) (of_int 1) /\
  (tw = 128%Z -> th = 128%Z ->
   F2Q (tex_u c) == inject_Z (Z.rem idx 8) * (1 # 8) /\
   F2Q (texRight c) == inject_Z (Z.rem idx 8 + 1) * (1 # 8) /\
   F2Q (tex_v c) == inject_Z (Z.quot idx 8) * (1 # 8) /\
   F2Q (texBottom c) == inject_Z (Z.quot idx 8 + 1) * (1 # 8)).
Proof.
  intros R H W Ht c. destruct (tileOfRand_range r idx R H) as (I & C1 & C2).
  destruct (tex_axis (Z.rem idx TILES_PER_ROW) tw C1 W) as (U0 & U1 & UE).
  destruct (tex_axis (Z.quot idx TILES_PER_ROW) th C2 Ht) as (V0 & V1 & VE).
  split; [exact I |]. split; [exact U0 |]. split; [exact U1 |].
  split; [exact V0 |]. split; [exact V1 |].
  intros Ew Eh. destruct (UE Ew) as [A1 A2]. destruct (VE Eh) as [B1 B2].
  split; [exact A1 |]. split; [exact A2 |]. split; [exact B1 | exact B2].
Qed.

(** ** The hover pick over the map *)

Lemma of_float_finite (x : float) (z : Z) : Int.of_float x = Some z -> is_finite x = true.
Proof. unfold Int.of_float. destruct (is_finite x); [reflexivity | discriminate]. Qed.

(** The division by [TILE_SIZE] loses nothing: the tile index is the floor
    of the world coordinate over 16. *)
Lemma trunc_div16 (f : float) :
  valid f = true -> is_finite (fdiv f (of_int TILE_SIZE)) = true -> 0 <= F2Q f ->
  Qtrunc (F2Q (fdiv f (of_int TILE_SIZE))) = Qfloor (F2Q f / 16).
Proof.
  intros V Fd P. rewrite of_int_TILE_SIZE in *.
  pose proof (fdiv_finite_inv _ _ _ _ Fd) as F.
  assert (E : F2Q (fdiv f (S754_finite false 8388608 (-19))) == rnd (F2Q f / 16)).
  { rewrite (F2Q_fdiv _ _ _ _ Fd). apply rnd_comp.
    assert (S16 : F2Q (S754_finite false 8388608 (-19)) == 16) by reflexivity.
    rewrite S16. reflexivity. }
  assert (Q0 : 0 <= F2Q f / 16) by (apply Qle_shift_div_l; lra).
  pose proof (rnd_nonneg _ Q0) as R0.
  assert (T : Qtrunc (F2Q (fdiv f (S754_finite false 8388608 (-19))))
              = Qfloor (rnd (F2Q f / 16))).
  { rewrite (Qtrunc_comp _ _ E). unfold Qtrunc.
    destruct (Qle_bool 0 (rnd (F2Q f / 16))) eqn:B; [reflexivity |].
    apply Qle_bool_iff in R0. congruence. }
  rewrite T. clear T E.
  destruct (F2Q_representable f V F) as (n & e & Hn & He & En & Lo & Hi).
  destruct (Z_le_gt_dec (-145) e) as [Big | Small].
  - apply Qfloor_comp. apply rnd_representable. exists n, (e - 4)%Z.
    pose proof (pow2_pos 128).
    split; [exact Hn |]. split; [lia |]. split; [| split].
    + rewrite En, pow2_sub. change (2 ^ 4) with 16. field.
    + apply Qlt_le_trans with 0; [lra | exact Q0].
    + apply Qlt_shift_div_r; lra.
  - assert (X : F2Q f / 16 <= 2 ^ (-125)).
    { assert (N0 : inject_Z n <= 2 ^ 24).
      { rewrite <- pow2_Z by lia. rewrite <- Zle_Qle. lia. }
      assert (P1 : 2 ^ e <= 2 ^ (-146)) by (apply pow2_le; lia).
      pose proof (pow2_pos e) as Pe.
      assert (M : inject_Z n * 2 ^ e <= 2 ^ 24 * 2 ^ (-146)).
      { apply Qle_trans with (2 ^ 24 * 2 ^ e).
        - apply Qmult_le_compat_r; lra.
        - apply Qmult_le_l; [apply pow2_pos | exact P1]. }
      rewrite <- pow2_add in M. change (24 + -146)%Z with (-122)%Z in M.
      apply Qle_shift_div_r; [lra |]. rewrite En.
      apply Qle_trans with (2 ^ (-122)); [exact M |].
      change 16 with (2 ^ 4). rewrite <- pow2_add. apply pow2_le. lia. }
    pose proof (rnd_mono _ _ X) as RX. rewrite rnd_pow2 in RX by lia.
    assert (L1 : 2 ^ (-125) < 1) by (change 1 with (2 ^ 0); apply pow2_lt; lia).
    assert (A : Qfloor (rnd (F2Q f / 16)) = 0%Z).
    { assert (A1 : (0 <= Qfloor (rnd (F2Q f / 16)))%Z).
      { apply (Qfloor_resp_le 0) in R0. exact R0. }
      assert (A2 : (Qfloor (rnd (F2Q f / 16)) <= 0)%Z).
      { apply floor_le_int. change (inject_Z (0 + 1)) with 1. lra. }
      lia. }
    assert (B : Qfloor (F2Q f / 16) = 0%Z).
    { assert (A1 : (0 <= Qfloor (F2Q f / 16))%Z).
      { apply (Qfloor_resp_le 0) in Q0. exact Q0. }
      assert (A2 : (Qfloor (F2Q f / 16) <= 0)%Z).
      { apply floor_le_int. change (inject_Z (0 + 1)) with 1. lra. }
      lia. }
    rewrite A, B. reflexivity.
Qed.

(** [TilemapWindow::updateHoveredTile]. For a pointer over world
    coordinates that are not negative, the hover pick is the tile that
    holds the point: column [floor(fx / 16)] and row [floor(fy / 16)] of
    the world coordinates [fx], [fy] it computes, when that tile is on the
    map, and "none" when it is beyond the last column or row. *)
Theorem hover_on_map (t t' : TilemapWindow) (mx my : Z) :
  updateHoveredTile t mx my = Some t' ->
  let fx := screenToWorld mx (offsetX t) (zoom t) in
  let fy := screenToWorld my (offsetY t) (zoom t) in
  0 <= F2Q fx -> 0 <= F2Q fy ->
  let i := Qfloor (F2Q fx / 16) in
  let j := Qfloor (F2Q fy / 16) in
  ((i < MAP_WIDTH)%Z /\ (j < MAP_HEIGHT)%Z -> hoveredX t' = i /\ hoveredY t' = j) /\
  ((MAP_WIDTH <= i)%Z \/ (MAP_HEIGHT <= j)%Z -> hoveredX t' = (-1)%Z /\ hoveredY t' = (-1)%Z).
Proof.
  intros H fx fy Px Py i j. unfold updateHoveredTile in H. fold fx fy in H.
  apply bind_Some in H. destruct H as (tx & TX & H).
  apply bind_Some in H. destruct H as (ty & TY & H).
  pose proof (of_float_finite _ _ TX) as FX. pose proof (of_float_finite _ _ TY) as FY.
  apply of_float_Some in TX, TY.
  rewrite (trunc_div16 fx (valid_fdiv _ _) FX Px) in TX.
  rewrite (trunc_div16 fy (valid_fdiv _ _) FY Py) in TY.
  fold i in TX. fold j in TY. subst tx ty.
  assert (I0 : (0 <= i)%Z).
  { unfold i. apply (Qfloor_resp_le 0). apply Qle_shift_div_l; lra. }
  assert (J0 : (0 <= j)%Z).
  { unfold j. apply (Qfloor_resp_le 0). apply Qle_shift_div_l; lra. }
  destruct (Z.leb_spec 0 i); [| lia]. destruct (Z.leb_spec 0 j); [| lia].
  destruct (Z.ltb_spec i MAP_WIDTH); destruct (Z.ltb_spec j MAP_HEIGHT);
    cbn [andb] in H; apply Some_inj in H; subst t'; cbn [hoveredX hoveredY set_hovered];
    split; intros C; try lia; split; reflexivity.
Qed.

(** ** Drags *)

Open Scope Z_scope.

Lemma whole_fadd (o : float) (n d : Z) :
  whole o n -> Z.abs d < 2 ^ 24 -> Z.abs (n + d) < 2 ^ 24 ->
  whole (fadd o (of_int d)) (n + d).
Proof.
  intros [Fo Eo] D S. destruct (of_int_exact d D) as [Fd Ed].
  assert (X : (F2X (fadd o (of_int d)) == inject_Z (n + d))%Q).
  { rewrite (F2X_fadd _ _ Fo Fd). rewrite (rnd_comp _ (inject_Z (n + d))).
    - apply rnd_Z. exact S.
    - rewrite Eo, Ed, inject_Z_plus. reflexivity. }
  assert (B : (- 2 ^ 24 < inject_Z (n + d) /\ inject_Z (n + d) < 2 ^ 24)%Q).
  { rewrite <- (pow2_Z 24) by lia. rewrite <- inject_Z_opp, <- !Zlt_Qlt. lia. }
  assert (P : (2 ^ 24 < 2 ^ 128)%Q) by (apply pow2_lt; lia).
  assert (F : is_finite (fadd o (of_int d)) = true).
  { apply finite_of_F2X; [apply is_nan_fadd; assumption | |]; rewrite X; lra. }
  split; [exact F |]. rewrite <- (F2X_F2Q _ F). exact X.
Qed.

Lemma of_float_whole (o : float) (n : Z) :
  whole o n -> Z.abs n < 2 ^ 24 -> Int.of_float (fneg o) = Some (- n).
Proof.
  intros [Fo Eo] B. unfold Int.of_float. rewrite is_finite_fneg, Fo.
  assert (E : (F2Q (fneg o) == inject_Z (- n))%Q).
  { rewrite F2Q_fneg, Eo, inject_Z_opp. reflexivity. }
  rewrite (Qtrunc_comp _ _ E), Qtrunc_Z. apply checked_in_range.
  unfold Int.INT_MIN, Int.INT_MAX. lia.
Qed.

Lemma updateScrollbars_sized (v u : TilemapScrollView) :
  updateScrollbars v = Some u ->
  exists cw ch, Int.of_float (contentExtent MAP_WIDTH (canvas v)) = Some cw /\
                Int.of_float (contentExtent MAP_HEIGHT (canvas v)) = Some ch.
Proof.
  unfold updateScrollbars, contentExtent. intros H.
  apply bind_Some in H. destruct H as (m1 & M1 & H).
  apply bind_Some in H. destruct H as (cw & CW & H).
  apply bind_Some in H. destruct H as (m2 & M2 & H).
  apply bind_Some in H. destruct H as (ch & CH & _).
  unfold Int.mul in M1, M2. apply checked_Some in M1, M2.
  destruct M1 as [-> _], M2 as [-> _]. exists cw, ch. split; assumption.
Qed.

Lemma updateScrollbars_whole (v : TilemapScrollView) (cw ch nx ny : Z) :
  Int.of_float (contentExtent MAP_WIDTH (canvas v)) = Some cw ->
  Int.of_float (contentExtent MAP_HEIGHT (canvas v)) = Some ch ->
  whole (offsetX (canvas v)) nx -> whole (offsetY (canvas v)) ny ->
  Z.abs nx < 2 ^ 24 -> Z.abs ny < 2 ^ 24 ->
  exists u, updateScrollbars v = Some u /\ canvas u = canvas v.
Proof.
  unfold contentExtent. intros CW CH WX WY BX BY. unfold updateScrollbars.
  change (Int.mul MAP_WIDTH TILE_SIZE) with (Some (MAP_WIDTH * TILE_SIZE)).
  change (Int.mul MAP_HEIGHT TILE_SIZE) with (Some (MAP_HEIGHT * TILE_SIZE)).
  cbn [bind]. rewrite CW, CH. cbn [bind].
  rewrite (of_float_whole _ _ WX BX), (of_float_whole _ _ WY BY). cbn [bind].
  eexists. split; reflexivity.
Qed.

Lemma drag_step (bx by' x y : Z) (v : TilemapScrollView) :
  Z.abs bx <= 2 ^ 23 -> Z.abs by' <= 2 ^ 23 -> Z.abs x <= 2 ^ 22 -> Z.abs y <= 2 ^ 22 ->
  dragging_by bx by' v ->
  exists v', handle v (FL_DRAG x y) = Some v' /\ dragging_by bx by' v' /\
             lastMouseX (canvas v') = x /\ lastMouseY (canvas v') = y /\
             zoom (canvas v') = zoom (canvas v).
Proof.
  intros BX BY X Y (D & WX & WY & LX & LY & cw & ch & CW & CH).
  assert (P22 : 2 ^ 22 = 4194304) by reflexivity.
  assert (P23 : 2 ^ 23 = 8388608) by reflexivity.
  assert (P24 : 2 ^ 24 = 16777216) by reflexivity.
  cbn [handle]. rewrite D. unfold Int.sub.
  rewrite !checked_in_range by (unfold Int.INT_MIN, Int.INT_MAX; lia). cbn [bind].
  pose proof (whole_fadd _ _ (x - lastMouseX (canvas v)) WX ltac:(lia) ltac:(lia)) as WX'.
  pose proof (whole_fadd _ _ (y - lastMouseY (canvas v)) WY ltac:(lia) ltac:(lia)) as WY'.
  replace (bx + lastMouseX (canvas v) + (x - lastMouseX (canvas v))) with (bx + x) in WX'
    by lia.
  replace (by' + lastMouseY (canvas v) + (y - lastMouseY (canvas v))) with (by' + y) in WY'
    by lia.
  remember (fadd (offsetX (canvas v)) (of_int (x - lastMouseX (canvas v)))) as ox eqn:Dx.
  remember (fadd (offsetY (canvas v)) (of_int (y - lastMouseY (canvas v)))) as oy eqn:Dy.
  clear Dx Dy.
  remember (with_canvas v (set_lastMouse (set_offset (canvas v) ox oy) x y)) as v1 eqn:D1.
  assert (C1 : canvas v1 = set_lastMouse (set_offset (canvas v) ox oy) x y)
    by (rewrite D1; reflexivity).
  assert (G : forall v', canvas v' = canvas v1 ->
                         dragging_by bx by' v' /\ lastMouseX (canvas v') = x /\
                         lastMouseY (canvas v') = y /\ zoom (canvas v') = zoom (canvas v)).
  { intros v' E. unfold dragging_by, contentExtent. rewrite E, C1.
    cbn [dragging offsetX offsetY lastMouseX lastMouseY zoom set_lastMouse set_offset].
    split; [| split; [reflexivity | split; reflexivity]].
    split; [exact D |]. split; [exact WX' |]. split; [exact WY' |].
    split; [exact X |]. split; [exact Y |]. exists cw, ch. split; assumption. }
  unfold notifyParent. destruct (parentView (canvas v1)).
  - destruct (updateScrollbars_whole v1 cw ch (bx + x) (by' + y)) as (u & U & CU).
    + rewrite C1. exact CW.
    + rewrite C1. exact CH.
    + rewrite C1. exact WX'.
    + rewrite C1. exact WY'.
    + lia.
    + lia.
    + exists u. split; [exact U | apply G; exact CU].
  - exists v1. split; [reflexivity | apply G; reflexivity].
Qed.

Lemma last_default {A : Type} (l : list A) (a d d' : A) :
  last (a :: l) d = last (a :: l) d'.
Proof.
  revert a. induction l as [| b l IH]; intros a; [reflexivity |].
  change (last (b :: l) d = last (b :: l) d'). apply IH.
Qed.

Lemma drag_run (bx by' : Z) (pts : list (Z * Z)) :
  Z.abs bx <= 2 ^ 23 -> Z.abs by' <= 2 ^ 23 ->
  Forall (fun q => Z.abs (fst q) <= 2 ^ 22 /\ Z.abs (snd q) <= 2 ^ 22) pts ->
  forall v, dragging_by bx by' v ->
  exists v', run v (map (fun q => CanvasEvent (FL_DRAG (fst q) (snd q))) pts) = Some v' /\
             dragging_by bx by' v' /\
             (lastMouseX (canvas v'), lastMouseY (canvas v'))
             = last pts (lastMouseX (canvas v), lastMouseY (canvas v)) /\
             zoom (canvas v') = zoom (canvas v).
Proof.
  intros BX BY. induction pts as [| q rest IH]; intros A v I.
  - exists v. split; [reflexivity |]. split; [exact I |]. split; reflexivity.
  - inversion A as [| q' rest' [Q1 Q2] A']. subst q' rest'.
    destruct (drag_step bx by' (fst q) (snd q) v BX BY Q1 Q2 I) as (v1 & H1 & I1 & L1 & L2 & Z1).
    destruct (IH A' v1 I1) as (v' & R & I' & L' & Z').
    exists v'. cbn [map run step]. rewrite H1. cbn [bind].
    split; [exact R |]. split; [exact I' |]. split; [| congruence].
    rewrite L', L1, L2. destruct rest as [| q2 rest2].
    + destruct q. reflexivity.
    + change (last (q :: q2 :: rest2) (lastMouseX (canvas v), lastMouseY (canvas v)))
        with (last (q2 :: rest2) (lastMouseX (canvas v), lastMouseY (canvas v))).
      apply last_default.
Qed.

(** [TilemapWindow::handle], [FL_PUSH] and [FL_DRAG]. A drag pans by the
    displacement of the pointer. From an offset of whole pixels, after a
    left push at [p] and drags through any points that end at [q], the
    offset is the old one plus [q - p]: the path between does not matter,
    no rounding accumulates, the zoom is untouched and every step is
    defined (offsets and coordinates within [2^22], and a zoom at which the
    scrollbars can be computed). *)
Theorem drag_follows_pointer (v u : TilemapScrollView) (p : Z * Z) (pts : list (Z * Z))
    (nx ny : Z) :
  whole (offsetX (canvas v)) nx -> whole (offsetY (canvas v)) ny ->
  Z.abs nx <= 2 ^ 22 -> Z.abs ny <= 2 ^ 22 ->
  Z.abs (fst p) <= 2 ^ 22 -> Z.abs (snd p) <= 2 ^ 22 ->
  Forall (fun q => Z.abs (fst q) <= 2 ^ 22 /\ Z.abs (snd q) <= 2 ^ 22) pts ->
  updateScrollbars v = Some u ->
  exists v', run v (dragPath p pts) = Some v' /\
             whole (offsetX (canvas v')) (nx + (fst (last pts p) - fst p)) /\
             whole (offsetY (canvas v')) (ny + (snd (last pts p) - snd p)) /\
             zoom (canvas v') = zoom (canvas v).
Proof.
  intros WX WY BX BY PX PY A U.
  destruct (updateScrollbars_sized v u U) as (cw & ch & CW & CH).
  assert (P22 : 2 ^ 22 = 4194304) by reflexivity.
  assert (P23 : 2 ^ 23 = 8388608) by reflexivity.
  remember (with_canvas v (set_lastMouse (set_dragging (canvas v) true) (fst p) (snd p)))
    as v1 eqn:D1.
  assert (I : dragging_by (nx - fst p) (ny - snd p) v1).
  { rewrite D1. unfold dragging_by, contentExtent.
    cbn [canvas with_canvas dragging offsetX offsetY lastMouseX lastMouseY zoom set_lastMouse
         set_dragging].
    replace (nx - fst p + fst p) with nx by lia. replace (ny - snd p + snd p) with ny by lia.
    split; [reflexivity |]. split; [exact WX |]. split; [exact WY |].
    split; [exact PX |]. split; [exact PY |]. exists cw, ch. split; assumption. }
  destruct (drag_run (nx - fst p) (ny - snd p) pts ltac:(lia) ltac:(lia) A v1 I)
    as (v' & R & (_ & WX' & WY' & _) & L & Z').
  exists v'. unfold dragPath. cbn [run step handle].
  change (FL_LEFT_MOUSE =? FL_LEFT_MOUSE) with true. cbv iota. cbn [bind].
  rewrite <- D1. split; [exact R |].
  assert (L1 : lastMouseX (canvas v') = fst (last pts p) /\
               lastMouseY (canvas v') = snd (last pts p)).
  { rewrite D1 in L.
    cbn [canvas with_canvas lastMouseX lastMouseY set_lastMouse set_dragging] in L.
    replace (fst p, snd p) with p in L by (destruct p; reflexivity).
    rewrite <- L. split; reflexivity. }
  destruct L1 as [<- <-].
  replace (nx + (lastMouseX (canvas v') - fst p)) with (nx - fst p + lastMouseX (canvas v'))
    by lia.
  replace (ny + (lastMouseY (canvas v') - snd p)) with (ny - snd p + lastMouseY (canvas v'))
    by lia.
  split; [exact WX' |]. split; [exact WY' |].
  rewrite Z', D1. reflexivity.
Qed.

(** ** The calls of one frame *)

Lemma strideList_nil (x x1 s : Z) : 1 <= s -> x1 <= x -> strideList x x1 s = [].
Proof.
  intros S L. unfold strideList. rewrite (iterations_done x x1 s S L). reflexivity.
Qed.

Lemma strideList_cons (x x1 s : Z) :
  1 <= s -> x < x1 -> strideList x x1 s = x :: strideList (x + s) x1 s.
Proof.
  intros S L. unfold strideList. rewrite (iterations_step x x1 s S L).
  pose proof (iterations_nonneg (x + s) x1 s) as N.
  replace (Z.to_nat (1 + iterations (x + s) x1 s))
    with (Datatypes.S (Z.to_nat (iterations (x + s) x1 s))) by lia.
  cbn [seq map]. f_equal; [simpl; lia |].
  rewrite <- seq_shift, map_map. apply map_ext. intros k. lia.
Qed.

Lemma strideList_in (x0 x1 s x : Z) :
  1 <= s -> In x (strideList x0 x1 s) ->
  x0 <= x < x1 /\ exists k, 0 <= k /\ x = x0 + k * s.
Proof.
  intros S H. unfold strideList in H. apply in_map_iff in H.
  destruct H as (k & E & K). apply in_seq in K.
  assert (Kz : Z.of_nat k < iterations x0 x1 s) by lia.
  split; [| exists (Z.of_nat k); split; [lia | lia]].
  unfold iterations in Kz.
  assert (D : Z.of_nat k < (x1 - x0 + s - 1) / s) by lia.
  assert (M : Z.of_nat k * s + s <= x1 - x0 + s - 1).
  { pose proof (Z.mul_div_le (x1 - x0 + s - 1) s ltac:(lia)). nia. }
  nia.
Qed.

Lemma strideList_cover (x0 x1 s i : Z) :
  1 <= s -> x0 <= i < x1 ->
  exists x, In x (strideList x0 x1 s) /\ x <= i < x + s.
Proof.
  intros S I. pose (k := (i - x0) / s).
  assert (K0 : 0 <= k) by (apply Z.div_pos; lia).
  assert (K1 : k * s <= i - x0 < k * s + s).
  { pose proof (Z.div_mod (i - x0) s ltac:(lia)).
    pose proof (Z.mod_pos_bound (i - x0) s ltac:(lia)). unfold k. nia. }
  assert (K2 : k < iterations x0 x1 s).
  { unfold iterations.
    assert (k + 1 <= (x1 - x0 + s - 1) / s); [| lia].
    apply Z.div_le_lower_bound; [lia |]. nia. }
  exists (x0 + k * s). split; [| lia].
  unfold strideList. apply in_map_iff. exists (Z.to_nat k).
  split; [lia |]. apply in_seq. lia.
Qed.

Lemma forLoop_blocks {A : Type} (g : Z -> list A) (body : Z -> list A -> option (list A))
    (x1 s : Z) :
  1 <= s ->
  (forall x a a', body x a = Some a' -> a' = rev (g x) ++ a) ->
  forall (fuel : nat) (x : Z) (a a' : list A),
    forLoop fuel x x1 s body a = Some a' ->
    rev a' = rev a ++ flat_map g (strideList x x1 s).
Proof.
  intros S B. induction fuel as [| fuel IH]; intros x a a' H; simpl in H; [discriminate |].
  destruct (Z.ltb_spec x x1) as [L | G].
  - apply bind_Some in H. destruct H as (a1 & H1 & H).
    apply bind_Some in H. destruct H as (x' & H2 & H).
    unfold Int.add in H2. apply checked_Some in H2. destruct H2 as [-> _].
    apply IH in H. apply B in H1. subst a1.
    rewrite H, (strideList_cons x x1 s S L), rev_app_distr, rev_involutive.
    cbn [flat_map]. rewrite <- app_assoc. reflexivity.
  - apply Some_inj in H. subst a'. rewrite (strideList_nil x x1 s S G).
    cbn [flat_map]. rewrite app_nil_r. reflexivity.
Qed.

Lemma drawCell_call (mapW mapH : Z) (tileMap : Z -> Z -> Z) (s y x : Z)
    (calls calls' : list DrawCall) :
  drawCell mapW mapH tileMap s y x calls = Some calls' ->
  calls' = cellCall tileMap s y x :: calls /\ 0 <= x < mapW /\ 0 <= y < mapH.
Proof.
  unfold drawCell, readTile. intros H.
  destruct (Z.leb_spec 0 y); [| discriminate]. destruct (Z.ltb_spec y mapH); [| discriminate].
  destruct (Z.leb_spec 0 x); [| discriminate]. destruct (Z.ltb_spec x mapW); [| discriminate].
  cbn [andb bind] in H.
  apply bind_Some in H. destruct H as (px & PX & H).
  apply bind_Some in H. destruct H as (py & PY & H).
  apply bind_Some in H. destruct H as (sz & SZ & H).
  apply bind_Some in H. destruct H as (c & C & H).
  unfold Int.mul in PX, PY, SZ. apply checked_Some in PX, PY, SZ.
  destruct PX as [-> _], PY as [-> _], SZ as [-> _].
  unfold drawTile in C.
  apply bind_Some in C. destruct C as (? & _ & C).
  apply bind_Some in C. destruct C as (? & _ & C).
  apply Some_inj in C. apply Some_inj in H. subst c calls'.
  split; [reflexivity | lia].
Qed.

Lemma flat_map_single {A B : Type} (f : A -> B) (l : list A) :
  flat_map (fun x => [f x]) l = map f l.
Proof. induction l as [| x l IH]; [reflexivity | cbn [flat_map map app]; rewrite IH; reflexivity]. Qed.

Lemma drawTilesOf_calls (mapW mapH : Z) (tileMap : Z -> Z -> Z) (t : TilemapWindow)
    (calls : list DrawCall) :
  drawTilesOf mapW mapH tileMap t = Some calls ->
  exists x0 y0 x1 y1 s,
    tileRangeOf mapW mapH t = Some (x0, y0, x1, y1) /\ lodStep (zoom t) = Some s /\
    calls = flat_map (fun y => map (cellCall tileMap s y) (strideList x0 x1 s))
              (strideList y0 y1 s).
Proof.
  unfold drawTilesOf. intros H.
  apply bind_Some in H. destruct H as ([[[x0 y0] x1] y1] & R & H).
  apply bind_Some in H. destruct H as (s & S & H).
  apply bind_Some in H. destruct H as (l & L & H).
  apply Some_inj in H. subst calls.
  exists x0, y0, x1, y1, s. split; [exact R |]. split; [exact S |].
  pose proof (lodStep_pos _ _ S) as S1.
  rewrite rev_append_rev, app_nil_r.
  apply (forLoop_blocks (fun y => map (cellCall tileMap s y) (strideList x0 x1 s))) in L.
  - exact L.
  - exact S1.
  - intros y a a' D. unfold drawRow in D.
    apply (forLoop_blocks (fun x => [cellCall tileMap s y x])) in D.
    + rewrite <- (rev_involutive a'), D, rev_app_distr, rev_involutive, flat_map_single.
      reflexivity.
    + exact S1.
    + intros x b b' C. apply drawCell_call in C. destruct C as [-> _]. reflexivity.
Qed.

(** [TilemapWindow::draw], the two loops. The calls of [drawTile] of one
    frame are, in this order, those of the rows [y = tileY0, tileY0 + step,
    ...] below [tileY1] and, in each row, of the columns [x = tileX0,
    tileX0 + step, ...] below [tileX1]: tile [tileMap[y][x]] at pixel
    [(16 x, 16 y)] with side [16 * step]. *)
Theorem draw_calls (tileMap : Z -> Z -> Z) (t : TilemapWindow) (calls : list DrawCall) :
  drawTiles tileMap t = Some calls ->
  exists x0 y0 x1 y1 s,
    tileRange t = Some (x0, y0, x1, y1) /\ lodStep (zoom t) = Some s /\
    calls = flat_map (fun y => map (cellCall tileMap s y) (strideList x0 x1 s))
              (strideList y0 y1 s).
Proof. apply drawTilesOf_calls. Qed.

Lemma draw_calls_witness :
  drawTiles (fun y x => y + x) scenarioA
  = Some (flat_map (fun y => map (cellCall (fun y x => y + x) 1 y) (strideList 0 50 1))
            (strideList 0 38 1)) /\
  exists x0 y0 x1 y1 s,
    tileRange scenarioA = Some (x0, y0, x1, y1) /\ lodStep (zoom scenarioA) = Some s /\
    flat_map (fun y => map (cellCall (fun y x => y + x) 1 y) (strideList 0 50 1))
      (strideList 0 38 1)
    = flat_map (fun y => map (cellCall (fun y x => y + x) s y) (strideList x0 x1 s))
        (strideList y0 y1 s).
Proof.
  assert (D : drawTiles (fun y x => y + x) scenarioA
              = Some (flat_map (fun y => map (cellCall (fun y x => y + x) 1 y)
                                            (strideList 0 50 1)) (strideList 0 38 1)))
    by (vm_compute; reflexivity).
  split; [exact D | exact (draw_calls _ _ _ D)].
Defined.

(** [TilemapWindow::draw], the level-of-detail stepping. No tile of the
    range is left out by the stepping: every tile [(i, j)] of the range
    lies under the quad of exactly one call, the one of the block of
    [step x step] tiles that holds it, which shows the tile of the block's
    first row and column. *)
Theorem lod_covers (tileMap : Z -> Z -> Z) (t : TilemapWindow) (calls : list DrawCall)
    (x0 y0 x1 y1 : Z) :
  drawTiles tileMap t = Some calls -> tileRange t = Some (x0, y0, x1, y1) ->
  forall i j, x0 <= i < x1 -> y0 <= j < y1 ->
  exists c, In c calls /\ covers c i j /\
            dc_tile c = tileMap (dc_y c / TILE_SIZE) (dc_x c / TILE_SIZE) /\
            forall c', In c' calls -> covers c' i j -> c' = c.
Proof.
  intros D R i j I J.
  destruct (drawTilesOf_calls _ _ _ _ _ D) as (x0' & y0' & x1' & y1' & s & R' & S & E).
  unfold tileRange in R. rewrite R in R'. apply Some_inj in R'.
  inversion R'. subst x0' y0' x1' y1'. clear R'.
  pose proof (lodStep_pos _ _ S) as S1.
  destruct (strideList_cover x0 x1 s i S1 I) as (x & Hx & Cx).
  destruct (strideList_cover y0 y1 s j S1 J) as (y & Hy & Cy).
  exists (cellCall tileMap s y x).
  assert (In1 : In (cellCall tileMap s y x) calls).
  { rewrite E. apply in_flat_map. exists y. split; [exact Hy |].
    apply List.in_map. exact Hx. }
  split; [exact In1 |]. unfold covers, cellCall, TILE_SIZE. cbn [dc_x dc_y dc_size dc_tile].
  split; [lia |]. split.
  - rewrite !Z.div_mul by lia. reflexivity.
  - intros c' In' (A1 & A2 & A3 & A4). rewrite E in In'. apply in_flat_map in In'.
    destruct In' as (y' & Hy' & In'). apply in_map_iff in In'.
    destruct In' as (x' & <- & Hx'). unfold cellCall, TILE_SIZE in A1, A2, A3, A4.
    cbn [dc_x dc_y dc_size] in A1, A2, A3, A4.
    destruct (strideList_in _ _ _ _ S1 Hx) as (_ & k & K0 & Kx).
    destruct (strideList_in _ _ _ _ S1 Hx') as (_ & k' & K0' & Kx').
    destruct (strideList_in _ _ _ _ S1 Hy) as (_ & l & L0 & Ly).
    destruct (strideList_in _ _ _ _ S1 Hy') as (_ & l' & L0' & Ly').
    assert (Ek : k' = k).
    { destruct (Z.lt_trichotomy k k') as [C | [C | C]]; [exfalso; nia | auto | exfalso; nia]. }
    assert (El : l' = l).
    { destruct (Z.lt_trichotomy l l') as [C | [C | C]]; [exfalso; nia | auto | exfalso; nia]. }
    subst. reflexivity.
Qed.

Lemma lod_covers_witness :
  exists calls,
    drawTiles (fun y x => y + x) coarseWindow = Some calls /\
    length calls = 1200%nat /\
    lodStep (zoom coarseWindow) = Some 5 /\
    tileRange coarseWindow = Some (0, 0, 200, 150) /\
    exists c, In c calls /\ covers c 7 13 /\
              dc_tile c = dc_y c / TILE_SIZE + dc_x c / TILE_SIZE /\
              forall c', In c' calls -> covers c' 7 13 -> c' = c.
Proof.
  eexists. split; [vm_compute; reflexivity |].
  match goal with |- length ?a = _ /\ _ => pose (calls := a) end.
  split; [vm_compute; reflexivity |]. split; [vm_compute; reflexivity |].
  assert (D : drawTiles (fun y x => y + x) coarseWindow = Some calls)
    by (vm_compute; reflexivity).
  assert (R : tileRange coarseWindow = Some (0, 0, 200, 150)) by (vm_compute; reflexivity).
  split; [exact R |].
  apply (lod_covers (fun y x => y + x) coarseWindow calls 0 0 200 150 D R 7 13); lia.
Defined.

Lemma drawCell_safe (mapW mapH : Z) (tileMap : Z -> Z -> Z) (s y x : Z)
    (calls : list DrawCall) :
  0 <= x < mapW -> 0 <= y < mapH -> mapW + s <= 2 ^ 27 -> mapH + s <= 2 ^ 27 -> 1 <= s ->
  exists calls', drawCell mapW mapH tileMap s y x calls = Some calls'.
Proof.
  intros X Y MW MH S. unfold drawCell, readTile.
  destruct (Z.leb_spec 0 y); [| lia]. destruct (Z.ltb_spec y mapH); [| lia].
  destruct (Z.leb_spec 0 x); [| lia]. destruct (Z.ltb_spec x mapW); [| lia].
  cbn [andb bind]. unfold Int.mul, drawTile, Int.add, TILE_SIZE.
  repeat (rewrite checked_in_range by (unfold Int.INT_MIN, Int.INT_MAX; lia); cbn [bind]).
  eexists. reflexivity.
Qed.

Lemma drawHover_defined (t : TilemapWindow) :
  hover_ok t -> exists o, drawHover t = Some o.
Proof.
  unfold hover_ok, drawHover, MAP_WIDTH, MAP_HEIGHT, TILE_SIZE. intros [[-> ->] | [X Y]].
  - eexists. reflexivity.
  - destruct (Z.leb_spec 0 (hoveredX t)); [| lia].
    destruct (Z.leb_spec 0 (hoveredY t)); [| lia].
    cbn [andb]. unfold Int.mul, Int.add.
    repeat (rewrite checked_in_range by (unfold Int.INT_MIN, Int.INT_MAX; lia); cbn [bind]).
    eexists. reflexivity.
Qed.

(** [TilemapWindow::draw], the loops and the outline. Once the tile range
    and the step are computed, the frame has defined behaviour when the
    step is at most [2^27 - 10000]: no index leaves [tileMap], no [int]
    overflows and both loops end. From a step of [2^27] on, the side
    [TILE_SIZE * step] of the first quad overflows. *)
Theorem draw_safe (tileMap : Z -> Z -> Z) (t : TilemapWindow) (x0 y0 x1 y1 s : Z) :
  tileRange t = Some (x0, y0, x1, y1) -> lodStep (zoom t) = Some s -> hover_ok t ->
  (s <= 2 ^ 27 - MAP_WIDTH -> exists frame, draw tileMap t = Some frame) /\
  (2 ^ 27 <= s -> x0 < x1 -> y0 < y1 -> draw tileMap t = None).
Proof.
  intros R S Hv. pose proof (lodStep_pos _ _ S) as S1.
  unfold draw, drawTiles, drawTilesOf. unfold tileRange in R. rewrite R. cbn [bind].
  rewrite S. cbn [bind].
  apply tileRangeOf_Some in R. destruct R as (_ & Ex0 & Ey0 & Ex1 & Ey1).
  unfold MAP_WIDTH, MAP_HEIGHT in *. split.
  - intros B.
    assert (L : exists calls,
               forLoop (loopFuel y0 y1) y0 y1 s (drawRow 10000 10000 tileMap x0 x1 s) []
               = Some calls).
    { apply (forLoop_defined _ y0 y1 s); unfold Int.INT_MIN, Int.INT_MAX, loopFuel; try lia.
      intros y a Y. unfold drawRow.
      apply (forLoop_defined _ x0 x1 s); unfold Int.INT_MIN, Int.INT_MAX, loopFuel; try lia.
      intros x a' X. apply drawCell_safe; lia. }
    destruct L as (calls & ->). cbn [bind].
    destruct (drawHover_defined t Hv) as (o & ->). cbn [bind]. eexists. reflexivity.
  - intros B X Y. unfold loopFuel. cbn [forLoop].
    destruct (Z.ltb_spec y0 y1); [| lia]. unfold drawRow at 1. unfold loopFuel.
    cbn [forLoop]. destruct (Z.ltb_spec x0 x1); [| lia].
    unfold drawCell at 1, readTile.
    destruct ((0 <=? y0) && (y0 <? 10000) && (0 <=? x0) && (x0 <? 10000));
      [| reflexivity].
    cbn [bind]. unfold Int.mul, Int.checked, Int.in_range, TILE_SIZE.
    destruct ((Int.INT_MIN <=? x0 * 16) && (x0 * 16 <=? Int.INT_MAX)); [| reflexivity].
    cbn [bind].
    destruct ((Int.INT_MIN <=? y0 * 16) && (y0 * 16 <=? Int.INT_MAX)); [| reflexivity].
    cbn [bind].
    assert (O : (16 * s <=? Int.INT_MAX) = false).
    { apply Z.leb_gt. unfold Int.INT_MAX. lia. }
    rewrite O, andb_false_r. reflexivity.
Qed.

Lemma draw_safe_witness :
  tileRange scenarioA = Some (0, 0, 50, 38) /\ lodStep (zoom scenarioA) = Some 1 /\
  hover_ok scenarioA /\ exists frame, draw (fun y x => y + x) scenarioA = Some frame.
Proof.
  assert (R : tileRange scenarioA = Some (0, 0, 50, 38)) by (vm_compute; reflexivity).
  assert (S : lodStep (zoom scenarioA) = Some 1) by (vm_compute; reflexivity).
  assert (Hv : hover_ok scenarioA) by (left; split; reflexivity).
  split; [exact R |]. split; [exact S |]. split; [exact Hv |].
  apply (proj1 (draw_safe (fun y x => y + x) scenarioA 0 0 50 38 1 R S Hv)).
  vm_compute. discriminate.
Defined.

(** ** Instances *)

Lemma input_frame_witness :
  exists v v', start = Some v /\ step v wheelDown = Some v' /\
               hoveredX (canvas v') = hoveredX (canvas v) /\
               hoveredY (canvas v') = hoveredY (canvas v).
Proof.
  eexists. eexists. split; [vm_compute; reflexivity |]. split; [vm_compute; reflexivity |].
  refine (proj1 (input_frame _ _ wheelDown _) _).
  - vm_compute. reflexivity.
  - intros x y. discriminate.
Defined.

Lemma wheel_direction_witness :
  exists v v', start = Some v /\ handle v (FL_MOUSEWHEEL 0 0 1) = Some v' /\
               flt (zoom (canvas v')) (zoom (canvas v)).
Proof.
  eexists. eexists. split; [vm_compute; reflexivity |]. split; [vm_compute; reflexivity |].
  refine (proj2 (proj1 (wheel_direction _ _ 0 0 1 _ _ _) _) _ _).
  - vm_compute. reflexivity.
  - vm_compute. reflexivity.
  - vm_compute. repeat split.
  - lia.
  - vm_compute. reflexivity.
  - vm_compute. discriminate.
Defined.

Lemma wheel_no_round_trip_witness :
  exists v v1 v2, start = Some v /\ handle v (FL_MOUSEWHEEL 0 0 1) = Some v1 /\
                  handle v1 (FL_MOUSEWHEEL 0 0 (-1)) = Some v2 /\
                  ((989 # 1000) * F2Q (zoom (canvas v)) <= F2Q (zoom (canvas v2)))%Q /\
                  (F2Q (zoom (canvas v2)) < F2Q (zoom (canvas v)))%Q.
Proof.
  eexists. eexists. eexists.
  split; [vm_compute; reflexivity |].
  match goal with |- handle _ _ = Some ?a /\ _ => pose (v1 := a) end.
  split; [vm_compute; reflexivity |]. split; [vm_compute; reflexivity |].
  refine (proj2 (wheel_no_round_trip _ v1 _ 0 0 1 0 0 (-1) _ _ _ _ _ _ _)).
  - vm_compute. reflexivity.
  - vm_compute. reflexivity.
  - vm_compute. reflexivity.
  - vm_compute. reflexivity.
  - vm_compute. discriminate.
  - vm_compute. reflexivity.
  - left. split; lia.
Defined.

Lemma texture_in_atlas_witness :
  tileOfRand 100 = Some 36 /\
  (F2Q (tex_u (texCoords 128 128 36)) == inject_Z 4 * (1 # 8))%Q /\
  (F2Q (texRight (texCoords 128 128 36)) == inject_Z 5 * (1 # 8))%Q.
Proof.
  assert (T : tileOfRand 100 = Some 36) by reflexivity.
  split; [exact T |].
  destruct (texture_in_atlas 100 36 128 128) as (_ & _ & _ & _ & _ & E);
    [lia | exact T | split; [lia | reflexivity] | split; [lia | reflexivity] |].
  destruct (E eq_refl eq_refl) as (A & B & _). split; [exact A | exact B].
Defined.

Lemma hover_on_map_witness :
  updateHoveredTile scenarioA 500 500 = Some (set_hovered scenarioA 31 31) /\
  31 = Qfloor (F2Q (screenToWorld 500 (offsetX scenarioA) (zoom scenarioA)) / 16) /\
  31 = Qfloor (F2Q (screenToWorld 500 (offsetY scenarioA) (zoom scenarioA)) / 16).
Proof.
  assert (H : updateHoveredTile scenarioA 500 500 = Some (set_hovered scenarioA 31 31))
    by (vm_compute; reflexivity).
  split; [exact H |].
  refine (proj1 (hover_on_map scenarioA _ 500 500 H _ _) _).
  - vm_compute. discriminate.
  - vm_compute. discriminate.
  - split; vm_compute; reflexivity.
Defined.

Lemma drag_follows_pointer_witness :
  exists v u, start = Some v /\ updateScrollbars v = Some u /\
  exists v', run v (dragPath (100, 100) [(108, 100); (120, 130)]) = Some v' /\
             whole (offsetX (canvas v'))
               (0 + (fst (last [(108, 100); (120, 130)] (100, 100)) - fst (100, 100))) /\
             whole (offsetY (canvas v'))
               (0 + (snd (last [(108, 100); (120, 130)] (100, 100)) - snd (100, 100))) /\
             zoom (canvas v') = zoom (canvas v).
Proof.
  eexists. eexists. split; [vm_compute; reflexivity |].
  match goal with |- updateScrollbars ?a = _ /\ _ => pose (v := a) end.
  split; [vm_compute; reflexivity |].
  refine (drag_follows_pointer v _ (100, 100) [(108, 100); (120, 130)] 0 0 _ _ _ _ _ _ _ _).
  - split; vm_compute; reflexivity.
  - split; vm_compute; reflexivity.
  - vm_compute. discriminate.
  - vm_compute. discriminate.
  - vm_compute. discriminate.
  - vm_compute. discriminate.
  - repeat constructor; vm_compute; discriminate.
  - vm_compute. reflexivity.
Defined.

(** ** The initial view, idle inputs, the pick off the map *)

Open Scope Z_scope.

(** The constructors of [TilemapScrollView] and [TilemapWindow]. For every
    size [W x H] whose sides less 16 are [int]s, the view starts with the
    canvas of [(W - 16) x (H - 16)] pixels at offset (0, 0) and zoom 1, no
    hovered tile, no drag, and with each scrollbar at 0, its page the side
    of the canvas and its range the larger of that side and the 160000
    pixels of the map. *)
Theorem newView_initial (W H : Z) :
  Int.INT_MIN + 16 <= W <= Int.INT_MAX -> Int.INT_MIN + 16 <= H <= Int.INT_MAX ->
  newView W H
  = Some (mkView
            (mkWindow (of_int 0) (of_int 0) (of_int 1) true 0 0 false (-1) (-1)
               (W - 16) (H - 16))
            (mkScrollbar 0 (W - 16) 0 (Z.max (W - 16) (MAP_WIDTH * TILE_SIZE)))
            (mkScrollbar 0 (H - 16) 0 (Z.max (H - 16) (MAP_HEIGHT * TILE_SIZE)))).
Proof.
  intros HW HH. unfold newView, Int.sub.
  rewrite !checked_in_range by (unfold Int.INT_MIN, Int.INT_MAX in *; lia). cbn [bind].
  unfold updateScrollbars, newWindow.
  cbn [canvas zoom offsetX offsetY w h parentView lastMouseX lastMouseY dragging hoveredX
       hoveredY].
  change (Int.mul MAP_WIDTH TILE_SIZE) with (Some (MAP_WIDTH * TILE_SIZE)).
  change (Int.mul MAP_HEIGHT TILE_SIZE) with (Some (MAP_HEIGHT * TILE_SIZE)).
  cbn [bind].
  assert (E1 : Int.of_float (fmul (of_int (MAP_WIDTH * TILE_SIZE)) (of_int 1))
               = Some (MAP_WIDTH * TILE_SIZE)) by (vm_compute; reflexivity).
  assert (E2 : Int.of_float (fmul (of_int (MAP_HEIGHT * TILE_SIZE)) (of_int 1))
               = Some (MAP_HEIGHT * TILE_SIZE)) by (vm_compute; reflexivity).
  assert (E3 : Int.of_float (fneg (of_int 0)) = Some 0) by (vm_compute; reflexivity).
  rewrite E1, E2, E3. cbn [bind]. reflexivity.
Qed.

Lemma newView_initial_witness :
  exists v, newView 800 600 = Some v /\ w (canvas v) = 784 /\ h (canvas v) = 584 /\
            sb_total (hscroll v) = 160000 /\ sb_total (vscroll v) = 160000.
Proof.
  eexists. split.
  - apply (newView_initial 800 600); vm_compute; split; discriminate.
  - repeat split.
Defined.

Lemma step_idle (v v' : TilemapScrollView) (i : Input) :
  idle i -> dragging (canvas v) = false -> step v i = Some v' ->
  dragging (canvas v') = false /\
  offsetX (canvas v') = offsetX (canvas v) /\ offsetY (canvas v') = offsetY (canvas v) /\
  zoom (canvas v') = zoom (canvas v) /\
  hscroll v' = hscroll v /\ vscroll v' = vscroll v.
Proof.
  intros I D H. destruct i as [e | pos | pos | X Y W H']; try contradiction.
  destruct e as [b x y | x y | | x y dy | x y |]; try contradiction; cbn [step handle] in H.
  - cbn [idle] in I. destruct (Z.eqb_spec b FL_LEFT_MOUSE); [contradiction |].
    apply Some_inj in H. subst v'. repeat split; assumption.
  - rewrite D in H. apply Some_inj in H. subst v'. repeat split; assumption.
  - apply Some_inj in H. subst v'. repeat split; reflexivity.
  - apply bind_Some in H. destruct H as (t' & U & H). apply Some_inj in H. subst v'.
    destruct (updateHoveredTile_frame _ _ _ _ U) as (hx & hy & ->).
    repeat split; assumption.
  - apply Some_inj in H. subst v'. repeat split; assumption.
Qed.

(** [TilemapWindow::handle], [FL_DRAG] without the left button. While no
    left push has started a drag, drag events move nothing: through any
    sequence of drags, releases, pointer moves and pushes of other buttons
    the offset, the zoom and the scrollbars stay as they are. *)
Theorem no_pan_without_push (inputs : list Input) (v v' : TilemapScrollView) :
  dragging (canvas v) = false -> Forall idle inputs -> run v inputs = Some v' ->
  dragging (canvas v') = false /\
  offsetX (canvas v') = offsetX (canvas v) /\ offsetY (canvas v') = offsetY (canvas v) /\
  zoom (canvas v') = zoom (canvas v) /\
  hscroll v' = hscroll v /\ vscroll v' = vscroll v.
Proof.
  revert v. induction inputs as [| i rest IH]; intros v D A R; cbn [run] in R.
  - apply Some_inj in R. subst v'. repeat split; assumption.
  - apply bind_Some in R. destruct R as (v1 & S1 & R).
    inversion A as [| i' rest' I A']. subst i' rest'.
    destruct (step_idle v v1 i I D S1) as (D1 & X1 & Y1 & Z1 & H1 & V1).
    destruct (IH v1 D1 A' R) as (D' & X' & Y' & Z' & H' & V').
    repeat split; congruence.
Qed.

Lemma no_pan_without_push_witness :
  exists v v', start = Some v /\
               run v [CanvasEvent (FL_PUSH 3 10 10); CanvasEvent (FL_DRAG 50 60);
                      CanvasEvent FL_RELEASE] = Some v' /\
               offsetX (canvas v') = offsetX (canvas v).
Proof.
  eexists. eexists. split; [vm_compute; reflexivity |]. split; [vm_compute; reflexivity |].
  refine (proj1 (proj2 (no_pan_without_push
            [CanvasEvent (FL_PUSH 3 10 10); CanvasEvent (FL_DRAG 50 60); CanvasEvent FL_RELEASE]
            _ _ _ _ _))).
  - vm_compute. reflexivity.
  - repeat constructor. discriminate.
  - vm_compute. reflexivity.
Defined.

Lemma trunc_div16_neg (f : float) :
  is_finite (fdiv f (of_int TILE_SIZE)) = true -> (F2Q f <= - (16))%Q ->
  Qtrunc (F2Q (fdiv f (of_int TILE_SIZE))) <= -1.
Proof.
  intros Fd P. rewrite of_int_TILE_SIZE in *.
  assert (E : (F2Q (fdiv f (S754_finite false 8388608 (-19))) == rnd (F2Q f / 16))%Q).
  { rewrite (F2Q_fdiv _ _ _ _ Fd). apply rnd_comp.
    assert (S16 : (F2Q (S754_finite false 8388608 (-19)) == 16)%Q) by reflexivity.
    rewrite S16. reflexivity. }
  assert (Q0 : (F2Q f / 16 <= inject_Z (-1))%Q).
  { apply Qle_shift_div_r; [reflexivity |]. change (inject_Z (-1)) with (- (1))%Q. lra. }
  pose proof (rnd_mono _ _ Q0) as R0. rewrite rnd_Z in R0 by (vm_compute; reflexivity).
  rewrite (Qtrunc_comp _ _ E). unfold Qtrunc.
  destruct (Qle_bool 0 (rnd (F2Q f / 16))) eqn:B.
  - apply Qle_bool_iff in B. change (inject_Z (-1)) with (- (1))%Q in R0. lra.
  - apply Qceiling_le_Z. exact R0.
Qed.

(** [TilemapWindow::updateHoveredTile]. A pointer whose world coordinate is
    a full tile or more before the map, on either axis, hovers no tile. *)
Theorem hover_off_map (t t' : TilemapWindow) (mx my : Z) :
  updateHoveredTile t mx my = Some t' ->
  (F2Q (screenToWorld mx (offsetX t) (zoom t)) <= - (16))%Q \/
  (F2Q (screenToWorld my (offsetY t) (zoom t)) <= - (16))%Q ->
  hoveredX t' = -1 /\ hoveredY t' = -1.
Proof.
  intros H C. unfold updateHoveredTile in H.
  apply bind_Some in H. destruct H as (tx & TX & H).
  apply bind_Some in H. destruct H as (ty & TY & H).
  pose proof (of_float_finite _ _ TX) as FX. pose proof (of_float_finite _ _ TY) as FY.
  apply of_float_Some in TX, TY.
  assert (N : tx <= -1 \/ ty <= -1).
  { destruct C as [C | C]; [left; rewrite TX | right; rewrite TY];
      apply trunc_div16_neg; assumption. }
  assert (B : (0 <=? tx) && (0 <=? ty) && (tx <? MAP_WIDTH) && (ty <? MAP_HEIGHT) = false).
  { destruct (Z.leb_spec 0 tx); destruct (Z.leb_spec 0 ty); try reflexivity. lia. }
  rewrite B in H. apply Some_inj in H. subst t'. split; reflexivity.
Qed.

Lemma hover_off_map_witness :
  exists t', updateHoveredTile (set_offset scenarioA (of_int 40) (of_int 0)) 0 5 = Some t' /\
             hoveredX t' = -1 /\ hoveredY t' = -1.
Proof.
  eexists. split; [vm_compute; reflexivity |].
  refine (hover_off_map (set_offset scenarioA (of_int 40) (of_int 0)) _ 0 5 _ _).
  - vm_compute. reflexivity.
  - left. vm_compute. discriminate.
Defined.

(** ** The visible range against the viewport *)

Open Scope Q_scope.

Lemma edge_mono (a b iz : float) :
  is_finite (fdiv (fmul a iz) (of_int TILE_SIZE)) = true ->
  is_finite (fdiv (fmul b iz) (of_int TILE_SIZE)) = true ->
  0 <= F2Q iz -> F2Q a <= F2Q b ->
  F2Q (fdiv (fmul a iz) (of_int TILE_SIZE)) <= F2Q (fdiv (fmul b iz) (of_int TILE_SIZE)).
Proof.
  rewrite of_int_TILE_SIZE. intros Fa Fb P L.
  pose proof (fdiv_finite_inv _ _ _ _ Fa) as Ma.
  pose proof (fdiv_finite_inv _ _ _ _ Fb) as Mb.
  rewrite (F2Q_fdiv _ _ _ _ Fa), (F2Q_fdiv _ _ _ _ Fb). apply rnd_mono.
  assert (S16 : F2Q (S754_finite false 8388608 (-19)) == 16) by reflexivity.
  rewrite S16.
  assert (M : F2Q (fmul a iz) <= F2Q (fmul b iz)).
  { rewrite (F2Q_fmul _ _ Ma), (F2Q_fmul _ _ Mb). apply rnd_mono. nra. }
  unfold Qdiv. apply Qmult_le_compat_r; [exact M | discriminate].
Qed.

Lemma left_edge_mono (o o' z : float) :
  valid z = true -> flt (of_int 0) z ->
  let edge := fun o => fdiv (fmul (fneg o) (fdiv (of_int 1) z)) (of_int TILE_SIZE) in
  is_finite (edge o) = true -> is_finite (edge o') = true ->
  F2Q o <= F2Q o' -> F2Q (edge o') <= F2Q (edge o).
Proof.
  intros V P edge F F' L. unfold edge in *.
  pose proof F as M. rewrite of_int_TILE_SIZE in M. apply fdiv_finite_inv in M.
  apply fmul_finite_inv in M. destruct M as [_ Fi].
  destruct (invZoom_cases z V P Fi) as [I0 _].
  apply edge_mono; try assumption. rewrite !F2Q_fneg. lra.
Qed.

Lemma F2Q_of_int_mono (n n' : Z) :
  is_finite (of_int n) = true -> is_finite (of_int n') = true ->
  (n <= n')%Z -> F2Q (of_int n) <= F2Q (of_int n').
Proof.
  intros F F' L. rewrite <- (F2X_F2Q _ F), <- (F2X_F2Q _ F'). unfold of_int.
  rewrite !F2X_round32. apply rnd_mono. rewrite <- Zle_Qle. exact L.
Qed.

Lemma right_edge_mono (o o' z : float) (W W' : Z) :
  valid z = true -> flt (of_int 0) z ->
  let edge := fun W o =>
    fdiv (fmul (fsub (of_int W) o) (fdiv (of_int 1) z)) (of_int TILE_SIZE) in
  is_finite (edge W o) = true -> is_finite (edge W' o') = true ->
  F2Q o' <= F2Q o -> (W <= W')%Z -> F2Q (edge W o) <= F2Q (edge W' o').
Proof.
  intros V P edge F F' L LW. unfold edge in *.
  pose proof F as M. rewrite of_int_TILE_SIZE in M. apply fdiv_finite_inv in M.
  apply fmul_finite_inv in M. destruct M as [Fs Fi].
  pose proof F' as M'. rewrite of_int_TILE_SIZE in M'. apply fdiv_finite_inv in M'.
  apply fmul_finite_inv in M'. destruct M' as [Fs' _].
  destruct (invZoom_cases z V P Fi) as [I0 _].
  destruct (fsub_finite_inv _ _ Fs) as [FW Fo].
  destruct (fsub_finite_inv _ _ Fs') as [FW' Fo'].
  apply edge_mono; try assumption.
  rewrite <- (F2X_F2Q _ Fs), <- (F2X_F2Q _ Fs').
  rewrite (F2X_fsub _ _ FW Fo), (F2X_fsub _ _ FW' Fo'). apply rnd_mono.
  pose proof (F2Q_of_int_mono W W' FW FW' LW). lra.
Qed.

Close Scope Q_scope.
Open Scope Z_scope.

(** [TilemapWindow::draw], the tile range, for two windows at the same
    positive zoom whose ranges are both defined. The first visible column
    never moves right when the offset grows, and the column after the last
    never moves left when the offset shrinks or stays and the viewport
    widens; the same holds for the rows. So enlarging the window hides no
    tile, and panning never moves the range against the pan. *)
Theorem range_monotone (t t' : TilemapWindow) (x0 y0 x1 y1 x0' y0' x1' y1' : Z) :
  tileRange t = Some (x0, y0, x1, y1) -> tileRange t' = Some (x0', y0', x1', y1') ->
  zoom t' = zoom t -> valid (zoom t) = true -> flt (of_int 0) (zoom t) ->
  ((F2Q (offsetX t) <= F2Q (offsetX t'))%Q -> x0' <= x0) /\
  ((F2Q (offsetX t') <= F2Q (offsetX t))%Q -> w t <= w t' -> x1 <= x1') /\
  ((F2Q (offsetY t) <= F2Q (offsetY t'))%Q -> y0' <= y0) /\
  ((F2Q (offsetY t') <= F2Q (offsetY t))%Q -> h t <= h t' -> y1 <= y1').
Proof.
  intros R R' Z V P.
  apply tileRangeOf_Some in R, R'.
  destruct R as ((F1 & F2 & F3 & F4) & -> & -> & -> & ->).
  destruct R' as ((F1' & F2' & F3' & F4') & -> & -> & -> & ->).
  unfold tileLeft, tileTop, tileRight, tileBottom, viewLeft, viewTop, viewRight, viewBottom,
    invZoom in *.
  rewrite Z in *.
  repeat split.
  - intros L. apply Z.max_le_compat_l. apply Qfloor_resp_le.
    apply (left_edge_mono _ _ _ V P F1 F1' L).
  - intros L LW. apply Z.min_le_compat_l. apply Qceiling_resp_le.
    apply (right_edge_mono _ _ _ _ _ V P F3 F3' L LW).
  - intros L. apply Z.max_le_compat_l. apply Qfloor_resp_le.
    apply (left_edge_mono _ _ _ V P F2 F2' L).
  - intros L LW. apply Z.min_le_compat_l. apply Qceiling_resp_le.
    apply (right_edge_mono _ _ _ _ _ V P F4 F4' L LW).
Qed.

Lemma range_monotone_witness :
  exists x0 y0 x1 y1 x0' y0' x1' y1',
    tileRange scenarioA = Some (x0, y0, x1, y1) /\
    tileRange (set_size scenarioA 1000 700) = Some (x0', y0', x1', y1') /\
    x1 <= x1'.
Proof.
  do 8 eexists. split; [vm_compute; reflexivity |]. split; [vm_compute; reflexivity |].
  refine (proj1 (proj2 (range_monotone scenarioA (set_size scenarioA 1000 700)
                          _ _ _ _ _ _ _ _ _ _ _ _ _)) _ _).
  - vm_compute. reflexivity.
  - vm_compute. reflexivity.
  - reflexivity.
  - vm_compute. reflexivity.
  - vm_compute. repeat split.
  - vm_compute. discriminate.
  - vm_compute. discriminate.
Defined.
